(** * The predicate expression engine of qjs-modules (src/predicate.c)

    A shallow embedding of the evaluator, the argument counters, the
    lifecycle operations, the introspection and the renderers of
    [src/predicate.c], followed by the properties that the specification
    states about them and by further properties that the code shows.

    Conventions.
    - A node ([Predicate*]) lives in a store at an address; a predicate
      object value carries the address of its node, so two references to
      one object see the same lazy caches.
    - C integers are [Z]; the 64-bit ones are wrapped with [int64_wrap].
      A [double] is the [Z] of its 64 IEEE-754 bits and is only ever handed
      to the arithmetic of the C library, which is a parameter.
    - QuickJS, libregexp and libm are external collaborators: their entry
      points are the fields of the class [Runtime].
    - [assert] is modelled as in a build without NDEBUG: a failing
      assertion aborts the evaluation ([AssertFail]).
    - Reference counts are those of the objects that nodes own; they are
      moved by [predicate_clone] and [predicate_free_rt].  The references
      that the evaluator takes and drops on the values passing through it
      are not followed. *)

From Stdlib Require Import ZArith Lia List Permutation.
From Stdlib Require Import Strings.Byte Strings.String.
From stdpp Require Import base option list gmap.

Local Open Scope Z_scope.

(** ** Dynamic values *)

Definition addr := nat.
Definition JSAtom := Z.
Definition Bytecode := list byte.

Inductive js_class :=
| JS_CLASS_OBJECT
| JS_CLASS_ARRAY
| JS_CLASS_FUNCTION
| JS_CLASS_PREDICATE.

(** The values the engine tells apart.  Objects are references: a class
    and the address of the object.  [JS_ArrayBufferU32] is the fresh
    buffer that [predicate_regexp_capture] hands to a callback. *)
Inductive JSValue :=
| JS_UNDEFINED
| JS_NULL
| JS_EXCEPTION
| JS_Bool (b : bool)
| JS_Int32 (i : Z)
| JS_Float64 (bits : Z)
| JS_String (s : list byte)
| JS_Object (cls : js_class) (p : addr)
| JS_ArrayBufferU32 (words : list Z).

#[global] Instance js_class_eq_dec : EqDecision js_class.
Proof. solve_decision. Defined.

#[global] Instance byte_eq_dec : EqDecision byte.
Proof. intros x y. destruct (Byte.eqb x y) eqn:E.
  - left. now apply Byte.byte_dec_bl.
  - right. intros ->. rewrite (Byte.byte_dec_lb eq_refl) in E. discriminate.
Defined.

#[global] Instance JSValue_eq_dec : EqDecision JSValue.
Proof. solve_decision. Defined.

(** Modelled from the spec: [js_is_null_or_undefined] of utils.h (not
    under src/) tells the "unset" operand, the null or undefined marker. *)
Definition js_is_null_or_undefined (v : JSValue) : bool :=
  match v with
  | JS_UNDEFINED | JS_NULL => true
  | _ => false
  end.

Definition JS_IsObject (v : JSValue) : bool :=
  match v with
  | JS_Object _ _ => true
  | _ => false
  end.

Definition JS_IsFunction (v : JSValue) : bool :=
  match v with
  | JS_Object JS_CLASS_FUNCTION _ => true
  | _ => false
  end.

Definition JS_IsArray (v : JSValue) : bool :=
  match v with
  | JS_Object JS_CLASS_ARRAY _ => true
  | _ => false
  end.

(** Modelled from the spec: [js_predicate_data] of quickjs-predicate.h
    (not under src/) returns the node behind a predicate object, and null
    for any other value ("if given a predicate node ... if given a plain
    callable ... if given a non-callable literal"). *)
Definition js_predicate_data (v : JSValue) : option addr :=
  match v with
  | JS_Object JS_CLASS_PREDICATE p => Some p
  | _ => None
  end.

Definition predicate_is (v : JSValue) : bool :=
  bool_decide (is_Some (js_predicate_data v)).

Definition predicate_callable (v : JSValue) : bool :=
  predicate_is v || JS_IsFunction v.

Definition JS_NewBool (z : Z) : JSValue := JS_Bool (negb (z =? 0)).
Definition JS_NewInt32 (z : Z) : JSValue := JS_Int32 z.
Definition JS_NewFloat64 (bits : Z) : JSValue := JS_Float64 bits.

Definition c_not (z : Z) : Z := if z =? 0 then 1 else 0.

Definition int64_wrap (z : Z) : Z := (z + 2 ^ 63) mod 2 ^ 64 - 2 ^ 63.
Definition uint32_wrap (z : Z) : Z := z mod 2 ^ 32.
Definition fits_int32 (z : Z) : bool := (- 2 ^ 31 <=? z) && (z <? 2 ^ 31).

(** ** Nodes *)

Inductive unary_id :=
| PREDICATE_NOTNOT
| PREDICATE_NOT
| PREDICATE_BNOT
| PREDICATE_SQRT
| PREDICATE_INSTANCEOF
| PREDICATE_PROTOTYPEIS
| PREDICATE_EQUAL.

Inductive binary_id :=
| PREDICATE_ADD
| PREDICATE_SUB
| PREDICATE_MUL
| PREDICATE_DIV
| PREDICATE_MOD
| PREDICATE_BOR
| PREDICATE_BAND
| PREDICATE_POW
| PREDICATE_ATAN2.

Inductive boolean_id :=
| PREDICATE_OR
| PREDICATE_AND
| PREDICATE_XOR.

Record RegExp := { source : list byte; flags : Z }.

(** Modelled from the spec: the [Vector] of vector.h, which is not under
    src/.  The spec calls the decoded charset "a lazily computed, cached
    ordered sequence of decoded code points"; the guard of the evaluator
    tests [size == 0 && data == 0], so the vector is either unallocated
    ([None]) or a buffer holding a sequence of 32-bit elements. *)
Definition Vector := option (list Z).

Definition vector_init : Vector := None.

Definition vector_put (v : Vector) (x : Z) : Vector :=
  Some (default [] v ++ [x]).

Definition vector_elems (v : Vector) : list Z := default [] v.

Definition vector_size (v : Vector) : nat := length (vector_elems v).

Definition vector_unset (v : Vector) : bool :=
  match v with
  | None => true
  | Some _ => false
  end.

Fixpoint find_index (l : list Z) (x : Z) (i : Z) : Z :=
  match l with
  | [] => -1
  | y :: l' => if y =? x then i else find_index l' x (i + 1)
  end.

Definition vector_find (v : Vector) (x : Z) : Z := find_index (vector_elems v) x 0.

Definition vector_copy (src : Vector) : Vector := src.

(** The tagged union [Predicate].  A string buffer and its length are
    one list; [npredicates] is the length of [predicates]. *)
Inductive Predicate :=
| Pred_type (type_flags : Z)
| Pred_charset (set : list byte) (chars : Vector)
| Pred_string (str : list byte)
| Pred_unary (id : unary_id) (predicate : JSValue)
| Pred_binary (id : binary_id) (left right : JSValue)
| Pred_boolean (id : boolean_id) (predicates : list JSValue)
| Pred_regexp (expr : RegExp) (bytecode : option Bytecode)
| Pred_property (atom : JSAtom) (predicate : JSValue)
| Pred_member (object : JSValue)
| Pred_shift (n : Z) (predicate : JSValue)
| Pred_function (func this_val : JSValue) (arity : Z).

(** ** The external collaborators *)

Class Runtime := {
  (* utils.h, buffer-utils.h *)
  js_value_type : JSValue -> Z;
  js_input_chars : JSValue -> list byte;
  js_value_equals : JSValue -> JSValue -> Z;
  (* cutils: the code point at the head of the bytes, and the bytes after it *)
  unicode_from_utf8 : list byte -> Z * list byte;
  (* QuickJS conversions *)
  JS_ToBool : JSValue -> Z;
  JS_ToInt64 : JSValue -> Z;
  JS_ToFloat64 : JSValue -> Z;
  (* QuickJS objects *)
  JS_IsInstanceOf : JSValue -> JSValue -> Z;
  JS_GetPrototype : JSValue -> JSValue;
  JS_VALUE_GET_OBJ : JSValue -> Z;
  JS_GetProperty : JSValue -> JSAtom -> JSValue;
  JS_HasProperty : JSValue -> JSAtom -> Z;
  JS_ValueToAtom : JSValue -> JSAtom;
  JS_Call : JSValue -> JSValue -> Z -> list (option JSValue) -> JSValue;
  (* libregexp, and regexp_compile of utils.c *)
  regexp_compile : RegExp -> option Bytecode;
  lre_get_capture_count : Bytecode -> Z;
  lre_exec : option Bytecode -> list byte -> Z * list (option Z);
  (* double arithmetic, on the bits of the operands *)
  double_add : Z -> Z -> Z;
  double_sub : Z -> Z -> Z;
  double_mul : Z -> Z -> Z;
  double_div : Z -> Z -> Z;
  double_fmod : Z -> Z -> Z;
  double_pow : Z -> Z -> Z;
  double_atan2 : Z -> Z -> Z;
  double_sqrt : Z -> Z;
  double_to_uint64 : Z -> Z;
  double_of_uint64 : Z -> Z;
  double_of_int64 : Z -> Z;
  (* what js_arguments_shift yields once no argument remains: the spec
     leaves the policy open *)
  arguments_underflow : JSValue;
  (* what [pr->unary.predicate] reads on a type, charset or string node,
     whose payload is another member of the union: a matter of memory
     layout *)
  union_unary_view : Predicate -> JSValue
}.

(** ** The argument cursor *)

(** Modelled from the spec: [JSArguments] and its operations live in
    utils.h, which is not under src/.  The spec describes "an ordered
    sequence of argument values plus a read index"; predicate.c reads
    [args->c] and [args->v] as the count of, and the pointer to, the
    arguments that remain ([predicate_value] passes them on as "whatever
    arguments remain in the cursor").  The cursor is therefore the list of
    remaining arguments: [shift()] "returns the argument at the index and
    advances it by one", [shiftN(n)] "advances without returning". *)
Definition JSArguments := list JSValue.

Definition js_arguments_new (argv : list JSValue) : JSArguments := argv.

Definition args_c (args : JSArguments) : Z := Z.of_nat (length args).

Definition js_arguments_shift `{Runtime} (args : JSArguments) : JSValue * JSArguments :=
  match args with
  | [] => (arguments_underflow, [])
  | x :: rest => (x, rest)
  end.

Definition js_arguments_shiftn (args : JSArguments) (n : Z) : JSArguments :=
  drop (Z.to_nat n) args.

(** ** Machine state and outcomes *)

(** What the engine asks of its collaborators, in the order it asks. *)
Inductive Event :=
| EvCompile (expr : RegExp)
| EvExec (bytecode : option Bytecode) (input : list byte)
| EvCall (func this_val : JSValue) (argc : Z) (argv : list (option JSValue))
| EvSetLength (arr : JSValue) (len : Z)
| EvSetEntry (arr : JSValue) (index : Z) (entry : option (Z * Z))
| EvThrowTypeError (target : JSValue).

Record State := {
  nodes : gmap addr Predicate;   (* the node behind each [Predicate*] *)
  refcount : gmap addr nat;      (* the reference count of each live object *)
  trace : list Event
}.

Definition set_node (pr : addr) (node : Predicate) (st : State) : State :=
  {| nodes := <[pr := node]> (nodes st); refcount := refcount st; trace := trace st |}.

Definition log (e : Event) (st : State) : State :=
  {| nodes := nodes st; refcount := refcount st; trace := trace st ++ [e] |}.

Inductive Outcome (A : Type) :=
| Ok (a : A)
| AssertFail     (* a failed [assert]: the process aborts *)
| Fault          (* a pointer to no live node *)
| OutOfFuel.     (* a recursion or loop bound of the model was reached *)

Arguments Ok {A} a.
Arguments AssertFail {A}.
Arguments Fault {A}.
Arguments OutOfFuel {A}.

#[global] Instance Outcome_bind : MBind Outcome := fun A B f m =>
  match m with
  | Ok a => f a
  | AssertFail => AssertFail
  | Fault => Fault
  | OutOfFuel => OutOfFuel
  end.

#[global] Instance Outcome_ret : MRet Outcome := fun A a => Ok a.

Definition Result : Type := Outcome (JSValue * JSArguments * State).

(** ** Helpers of the evaluator *)

Section Helpers.
Context `{Runtime}.

Definition JS_NewInt64 (z : Z) : JSValue :=
  if fits_int32 z then JS_NewInt32 z else JS_NewFloat64 (double_of_int64 z).

(** [JS_ToInt64] into an [int64_t]; [js_value_toint64_free] of utils.h
    (not under src/) is the same conversion, followed by the release of
    the value. *)
Definition to_int64 (v : JSValue) : Z := int64_wrap (JS_ToInt64 v).

(** [JS_Call], with the call left in the trace. *)
Definition js_call (func this_val : JSValue) (argc : Z)
    (argv : list (option JSValue)) (st : State) : JSValue * State :=
  (JS_Call func this_val argc argv, log (EvCall func this_val argc argv) st).

(** lines 15-26.  The loop leaves only at [p == end].  It is given as
    many turns as there are bytes: a decoder that advances needs no more
    (see [utf8_loop_advances]), and a loop that has bytes left after
    that many turns has met a decoder that does not advance.  There the
    model gives no result ([None]), as the source loop gives none on a
    decoder that stays in place. *)
Fixpoint utf8_loop (fuel : nat) (p : list byte) (out : Vector) : option Vector :=
  match p with
  | [] => Some out
  | _ :: _ =>
      match fuel with
      | O => None
      | S fuel' =>
          let '(codepoint, next) := unicode_from_utf8 p in
          utf8_loop fuel' next (vector_put out (uint32_wrap codepoint))
      end
  end.

Definition utf8_to_unicode (str : list byte) (out : Vector) : option (nat * Vector) :=
  out' ← utf8_loop (length str) str out;
  Some (vector_size out', out').

(** Modelled from the spec: [input_buffer_getc] of buffer-utils.h (not
    under src/) reads the next code point of the input and advances. *)
Definition input_buffer_getc (input : list byte) : Z * list byte :=
  let '(codepoint, next) := unicode_from_utf8 input in
  (uint32_wrap codepoint, next).

(** lines 76-84.  The loop leaves at the end of the input or at a code
    point that is not in the set; as in [utf8_loop], [None] stands for an
    input on which the decoder does not advance and the source loop never
    leaves. *)
Fixpoint charset_loop (fuel : nat) (input : list byte) (chars : Vector)
    : option JSValue :=
  match input with
  | [] => Some (JS_NewInt32 1)
  | _ :: _ =>
      match fuel with
      | O => None
      | S fuel' =>
          let '(codepoint, rest) := input_buffer_getc input in
          if vector_find chars codepoint =? -1 then Some (JS_NewInt32 0)
          else charset_loop fuel' rest chars
      end
  end.

(** lines 142-153 *)
Definition binary_result (id : binary_id) (left right : Z) : Z :=
  match id with
  | PREDICATE_ADD => double_add left right
  | PREDICATE_SUB => double_sub left right
  | PREDICATE_MUL => double_mul left right
  | PREDICATE_DIV => double_div left right
  | PREDICATE_MOD => double_fmod left right
  | PREDICATE_BOR =>
      double_of_uint64 (Z.lor (double_to_uint64 left) (double_to_uint64 right))
  | PREDICATE_BAND =>
      double_of_uint64 (Z.land (double_to_uint64 left) (double_to_uint64 right))
  | PREDICATE_POW => double_pow left right
  | PREDICATE_ATAN2 => double_atan2 left right
  end.

Definition capture_at (capture : list (option Z)) (i : nat) : option Z :=
  mjoin (capture !! i).

(** lines 753-767: the offsets of each group, zero where it is unset. *)
Fixpoint capture_words (capture : list (option Z)) (i groups : nat) : list Z :=
  match groups with
  | O => []
  | S groups' =>
      match capture_at capture i with
      | Some start =>
          [uint32_wrap start; uint32_wrap (default 0 (capture_at capture (S i)))]
      | None => [0; 0]
      end ++ capture_words capture (S (S i)) groups'
  end.

Definition predicate_regexp_capture (capture : list (option Z)) (capture_count : Z)
    : JSValue :=
  JS_ArrayBufferU32 (capture_words capture 0 (Z.to_nat capture_count)).

(** lines 213-225: the sink receives its length, then one entry per group. *)
Fixpoint capture_sink (arg : JSValue) (capture : list (option Z)) (i groups : nat)
    (st : State) : State :=
  match groups with
  | O => st
  | S groups' =>
      let left :=
        match capture_at capture i with
        | Some start => Some (uint32_wrap start,
                              uint32_wrap (default 0 (capture_at capture (S i))))
        | None => None
        end in
      capture_sink arg capture (S (S i)) groups'
        (log (EvSetEntry arg (Z.of_nat i / 2) left) st)
  end.

(** lines 311-313: [for(i = 0; i < nargs; i++) argv[i++] = shift(args)];
    [i] is advanced in the body and again by the loop.  A slot of the
    variable-length array that is never written stays [None]. *)
Fixpoint function_argv (fuel i : nat) (nargs : Z) (argv : list (option JSValue))
    (args : JSArguments) : list (option JSValue) * JSArguments :=
  match fuel with
  | O => (argv, args)
  | S fuel' =>
      if Z.of_nat i <? nargs then
        let '(x, args') := js_arguments_shift args in
        function_argv fuel' (S (S i)) nargs (<[i := Some x]> argv) args'
      else (argv, args)
  end.

(** lines 1077-1086 *)
Definition predicate_regexp_compile (pr : addr) (st : State) : Outcome (Z * State) :=
  match nodes st !! pr with
  | None => Fault
  | Some (Pred_regexp expr bytecode) =>
      match bytecode with
      | Some _ => AssertFail
      | None =>
          let compiled := regexp_compile expr in
          let st' := set_node pr (Pred_regexp expr compiled) (log (EvCompile expr) st) in
          match compiled with
          | Some bc => Ok (lre_get_capture_count bc, st')
          | None => Ok (0, st')
          end
      end
  | Some _ => AssertFail
  end.
End Helpers.

(** ** The evaluator (lines 59-356) *)

(** [predicate_eval], [predicate_call] and [predicate_value] call each
    other; the three bodies are written over the recursive call [eval], and
    the knot is tied by [predicate_eval] below. *)
Section Evaluator.
Context `{Runtime}.
Variable eval : addr -> JSArguments -> State -> Result.

(** lines 327-340 *)
Definition predicate_call_with (value : JSValue) (argv : list JSValue) (st : State)
    : Outcome (JSValue * State) :=
  match js_predicate_data value with
  | Some pr =>
      '(ret, _, st') ← eval pr (js_arguments_new argv) st;
      Ok (ret, st')
  | None =>
      if JS_IsFunction value then
        Ok (js_call value JS_UNDEFINED (args_c argv) (Some <$> argv) st)
      else Ok (JS_UNDEFINED, st)
  end.

(** lines 342-356.  A literal is handed back as it is; the reference
    that [JS_DupValue] (line 352) adds to it for the caller, and that no
    caller gives back, is not followed. *)
Definition predicate_value_with (value : JSValue) (args : JSArguments) (st : State)
    : Result :=
  match js_predicate_data value with
  | Some pr => eval pr args st
  | None =>
      if JS_IsFunction value then
        '(ret, st') ← predicate_call_with value args st;
        Ok (ret, args, st')
      else Ok (value, args, st)
  end.

(** lines 132-137, one turn of the loop *)
Definition binary_operand (value : JSValue) (args : JSArguments) (st : State)
    : Result :=
  let '(value', args') :=
    if js_is_null_or_undefined value then js_arguments_shift args else (value, args) in
  predicate_value_with value' args' st.

(** lines 162-165 *)
Fixpoint or_loop (predicates : list JSValue) (ret : JSValue) (args : JSArguments)
    (st : State) : Result :=
  match predicates with
  | [] => Ok (ret, args, st)
  | p :: rest =>
      '(ret', args', st') ← predicate_value_with p args st;
      if negb (JS_ToBool ret' =? 0) then Ok (ret', args', st')
      else or_loop rest ret' args' st'
  end.

(** lines 172-175 *)
Fixpoint and_loop (predicates : list JSValue) (ret : JSValue) (args : JSArguments)
    (st : State) : Result :=
  match predicates with
  | [] => Ok (ret, args, st)
  | p :: rest =>
      '(ret', args', st') ← predicate_value_with p args st;
      if negb (c_not (JS_ToBool ret') =? 0) then Ok (ret', args', st')
      else and_loop rest ret' args' st'
  end.

(** lines 182-186 *)
Fixpoint xor_loop (predicates : list JSValue) (r : Z) (args : JSArguments)
    (st : State) : Outcome (Z * JSArguments * State) :=
  match predicates with
  | [] => Ok (r, args, st)
  | p :: rest =>
      '(v, args', st') ← predicate_value_with p args st;
      xor_loop rest (Z.lxor r (to_int64 v)) args' st'
  end.

(** lines 202-227: what is done with the captures of a match *)
Definition regexp_export (re : JSValue) (capture : list (option Z))
    (capture_count result : Z) (args : JSArguments) (st : State)
    : JSArguments * State :=
  if negb (result =? 0) && (1 <? args_c args) then
    let '(arg, args') := js_arguments_shift args in
    if JS_IsFunction arg then
      let argv := [predicate_regexp_capture capture capture_count; re] in
      (args', snd (js_call arg JS_NULL 2 (Some <$> argv) st))
    else if JS_IsArray arg then
      (args', capture_sink arg capture 0 (Z.to_nat capture_count)
                (log (EvSetLength arg (uint32_wrap capture_count)) st))
    else (args', st)
  else (args, st).

(** lines 59-325.  The cases are the shapes of [Predicate]: an id
    outside the enumeration, which the source meets with [assert(0)]
    (line 318), is no node of the model.  The release of the argument
    of a Member node ([JS_FreeValue], line 290) is not followed. *)
Definition predicate_eval_body (pr : addr) (args : JSArguments) (st : State) : Result :=
  match nodes st !! pr with
  | None => Fault
  | Some (Pred_type type_flags) =>
      let '(arg, args) := js_arguments_shift args in
      let id := js_value_type arg in
      Ok (JS_NewBool (c_not (c_not (Z.land id type_flags))), args, st)
  | Some (Pred_charset set chars) =>
      let '(arg, args) := js_arguments_shift args in
      let input := js_input_chars arg in
      '(chars, st) ←
        (if vector_unset chars then
           match utf8_to_unicode set vector_init with
           | Some (_, chars') => Ok (chars', set_node pr (Pred_charset set chars') st)
           | None => OutOfFuel
           end
         else Ok (chars, st));
      match charset_loop (length input) input chars with
      | Some ret => Ok (ret, args, st)
      | None => OutOfFuel
      end
  | Some (Pred_string str) =>
      let '(arg, args) := js_arguments_shift args in
      let input := js_input_chars arg in
      if (length str <=? length input)%nat
         && bool_decide (take (length str) input = str)
      then Ok (JS_NewInt32 1, args, st)
      else Ok (JS_UNDEFINED, args, st)
  | Some (Pred_unary PREDICATE_NOTNOT predicate) =>
      '(v, args, st) ← predicate_value_with predicate args st;
      Ok (JS_NewBool (c_not (c_not (JS_ToBool v))), args, st)
  | Some (Pred_unary PREDICATE_NOT predicate) =>
      '(v, args, st) ← predicate_value_with predicate args st;
      Ok (JS_NewBool (c_not (JS_ToBool v)), args, st)
  | Some (Pred_unary PREDICATE_BNOT predicate) =>
      '(v, args, st) ← predicate_value_with predicate args st;
      Ok (JS_NewInt64 (Z.lnot (to_int64 v)), args, st)
  | Some (Pred_unary PREDICATE_SQRT predicate) =>
      '(v, args, st) ← predicate_value_with predicate args st;
      Ok (JS_NewFloat64 (double_sqrt (JS_ToFloat64 v)), args, st)
  | Some (Pred_binary id lhs rhs) =>
      '(v0, args, st) ← binary_operand lhs args st;
      '(v1, args, st) ← binary_operand rhs args st;
      Ok (JS_NewFloat64 (binary_result id (JS_ToFloat64 v0) (JS_ToFloat64 v1)), args, st)
  | Some (Pred_boolean PREDICATE_OR predicates) =>
      or_loop predicates JS_UNDEFINED args st
  | Some (Pred_boolean PREDICATE_AND predicates) =>
      and_loop predicates JS_UNDEFINED args st
  | Some (Pred_boolean PREDICATE_XOR predicates) =>
      '(r, args, st) ← xor_loop predicates 0 args st;
      Ok (JS_NewInt64 r, args, st)
  | Some (Pred_regexp expr bytecode) =>
      let '(re, args) := js_arguments_shift args in
      let input := js_input_chars re in
      '(capture_count, st) ←
        match bytecode with
        | None => predicate_regexp_compile pr st
        | Some _ => Ok (0, st)
        end;
      let bytecode :=
        match nodes st !! pr with
        | Some (Pred_regexp _ bc) => bc
        | _ => None
        end in
      let '(result, capture) := lre_exec bytecode input in
      let st := log (EvExec bytecode input) st in
      let '(args, st) := regexp_export re capture capture_count result args st in
      Ok (JS_NewBool result, args, st)
  | Some (Pred_unary PREDICATE_INSTANCEOF predicate) =>
      let '(arg, args) := js_arguments_shift args in
      Ok (JS_NewBool (JS_IsInstanceOf arg predicate), args, st)
  | Some (Pred_unary PREDICATE_PROTOTYPEIS predicate) =>
      let '(arg, args) := js_arguments_shift args in
      let proto := JS_GetPrototype arg in
      Ok (JS_Bool (JS_VALUE_GET_OBJ proto =? JS_VALUE_GET_OBJ predicate), args, st)
  | Some (Pred_unary PREDICATE_EQUAL predicate) =>
      let '(arg, args) := js_arguments_shift args in
      Ok (JS_NewBool (js_value_equals arg predicate), args, st)
  | Some (Pred_property atom predicate) =>
      let '(obj, args) := js_arguments_shift args in
      if JS_IsObject obj then
        let ret := JS_GetProperty obj atom in
        if negb (js_is_null_or_undefined predicate) && predicate_callable predicate
        then
          '(result, st) ← predicate_call_with predicate [ret] st;
          Ok (result, args, st)
        else Ok (ret, args, st)
      else Ok (JS_EXCEPTION, args, log (EvThrowTypeError obj) st)
  | Some (Pred_member object) =>
      let '(member, args) := js_arguments_shift args in
      let atom := JS_ValueToAtom member in
      if negb (JS_HasProperty object atom =? 0)
      then Ok (JS_GetProperty object atom, args, st)
      else Ok (JS_UNDEFINED, args, st)
  | Some (Pred_shift n predicate) =>
      if n <=? args_c args then
        predicate_value_with predicate (js_arguments_shiftn args n) st
      else Ok (JS_UNDEFINED, args, st)
  | Some (Pred_function func this_val arity) =>
      let nargs := arity in
      let '(argv, args) :=
        function_argv (Z.to_nat nargs) 0 nargs
          (replicate (Z.to_nat nargs) None) args in
      let '(ret, st) := js_call func this_val nargs argv st in
      Ok (ret, args, st)
  end.
End Evaluator.

Fixpoint predicate_eval `{Runtime} (fuel : nat) (pr : addr) (args : JSArguments)
    (st : State) {struct fuel} : Result :=
  match fuel with
  | O => OutOfFuel
  | S fuel' => predicate_eval_body (predicate_eval fuel') pr args st
  end.

Definition predicate_call `{Runtime} (fuel : nat) :=
  predicate_call_with (predicate_eval fuel).

Definition predicate_value `{Runtime} (fuel : nat) :=
  predicate_value_with (predicate_eval fuel).

(** ** Counting the arguments of a tree (lines 1088-1169) *)

Section Counter.
Context `{Runtime}.
Variable store : gmap addr Predicate.
Variable count : addr -> Outcome Z.

(** [if(js_is_null_or_undefined(v)) n++; else if((other =
    js_predicate_data(v))) n += predicate_recursive_num_args(other);] *)
Definition operand_num_args (value : JSValue) : Outcome Z :=
  if js_is_null_or_undefined value then Ok 1
  else
    match js_predicate_data value with
    | Some other => count other
    | None => Ok 0
    end.

(** lines 1135-1137 *)
Fixpoint boolean_num_args (predicates : list JSValue) (n : Z) : Outcome Z :=
  match predicates with
  | [] => Ok n
  | p :: rest =>
      match js_predicate_data p with
      | Some other => m ← count other; boolean_num_args rest (n + m)
      | None => boolean_num_args rest n
      end
  end.

Definition predicate_recursive_num_args_body (pr : addr) : Outcome Z :=
  match store !! pr with
  | None => Fault
  | Some (Pred_type _ as node)
  | Some (Pred_charset _ _ as node)
  | Some (Pred_string _ as node) => operand_num_args (union_unary_view node)
  | Some (Pred_unary _ predicate) => operand_num_args predicate
  | Some (Pred_binary _ lhs rhs) =>
      n ← operand_num_args lhs;
      m ← operand_num_args rhs;
      Ok (n + m)
  | Some (Pred_boolean _ predicates) => boolean_num_args predicates 0
  | Some (Pred_regexp _ _) => Ok 1
  | Some (Pred_property atom predicate) =>
      m ← operand_num_args predicate;
      Ok ((if atom =? 0 then 1 else 0) + m)
  | Some (Pred_member _) => Ok 1
  | Some (Pred_shift _ _) => Ok 1
  | Some (Pred_function _ _ arity) => Ok arity
  end.
End Counter.

Fixpoint predicate_recursive_num_args `{Runtime} (fuel : nat)
    (store : gmap addr Predicate) (pr : addr) {struct fuel} : Outcome Z :=
  match fuel with
  | O => OutOfFuel
  | S fuel' =>
      predicate_recursive_num_args_body store
        (predicate_recursive_num_args fuel' store) pr
  end.

(** ** Ownership: clone and free (lines 769-845 and 987-1075) *)

Definition set_refcount (p : addr) (n : nat) (st : State) : State :=
  {| nodes := nodes st; refcount := <[p := n]> (refcount st); trace := trace st |}.

Definition release_object (p : addr) (st : State) : State :=
  {| nodes := delete p (nodes st); refcount := delete p (refcount st); trace := trace st |}.

(** QuickJS: one more owner of the object behind the value. *)
Definition JS_DupValue (v : JSValue) (st : State) : JSValue * State :=
  match v with
  | JS_Object _ p =>
      (v, {| nodes := nodes st; refcount := alter S p (refcount st); trace := trace st |})
  | _ => (v, st)
  end.

(** Modelled from the spec: [js_values_dup] of utils.h (not under src/);
    "owned references are ownership-duplicated (reference count
    incremented, not deep-copied)", one value after the other. *)
Fixpoint js_values_dup (values : list JSValue) (st : State) : list JSValue * State :=
  match values with
  | [] => ([], st)
  | v :: rest =>
      let '(v', st') := JS_DupValue v st in
      let '(rest', st'') := js_values_dup rest st' in
      (v' :: rest', st'')
  end.

(** [js_mallocz]: a block that is neither a live node nor a live object. *)
Definition js_mallocz (st : State) : addr :=
  fresh (dom (nodes st) ∪ dom (refcount st)).

(** lines 987-1075 *)
Definition predicate_clone (pr : addr) (st : State) : Outcome (addr * State) :=
  let ret := js_mallocz st in
  match nodes st !! pr with
  | None => Fault
  | Some (Pred_type type_flags) => Ok (ret, set_node ret (Pred_type type_flags) st)
  | Some (Pred_charset set chars) =>
      Ok (ret, set_node ret (Pred_charset set (vector_copy chars)) st)
  | Some (Pred_string str) => Ok (ret, set_node ret (Pred_string str) st)
  | Some (Pred_unary id predicate) =>
      let '(predicate', st) := JS_DupValue predicate st in
      Ok (ret, set_node ret (Pred_unary id predicate') st)
  | Some (Pred_binary id lhs rhs) =>
      let '(lhs', st) := JS_DupValue lhs st in
      let '(rhs', st) := JS_DupValue rhs st in
      Ok (ret, set_node ret (Pred_binary id lhs' rhs') st)
  | Some (Pred_boolean id predicates) =>
      let '(predicates', st) := js_values_dup predicates st in
      Ok (ret, set_node ret (Pred_boolean id predicates') st)
  | Some (Pred_regexp expr _) => Ok (ret, set_node ret (Pred_regexp expr None) st)
  | Some (Pred_property atom predicate) =>
      let '(predicate', st) := JS_DupValue predicate st in
      Ok (ret, set_node ret (Pred_property atom predicate') st)
  | Some (Pred_member object) =>
      let '(object', st) := JS_DupValue object st in
      Ok (ret, set_node ret (Pred_member object') st)
  | Some (Pred_shift n predicate) =>
      let '(predicate', st) := JS_DupValue predicate st in
      Ok (ret, set_node ret (Pred_shift n predicate') st)
  | Some (Pred_function func this_val arity) =>
      let '(func', st) := JS_DupValue func st in
      let '(this_val', st) := JS_DupValue this_val st in
      Ok (ret, set_node ret (Pred_function func' this_val' arity) st)
  end.

Section Release.
Variable free_rt : addr -> State -> Outcome State.

(** Modelled from the spec: the finalizer of the predicate class belongs
    to the host binding layer, which is not under src/.  QuickJS takes one
    owner off the object, and the last owner finalizes it; "free(node)
    recursively releases every owned reference", so the finalizer frees
    the node of the object with [predicate_free_rt], and then the object
    goes. *)
Definition JS_FreeValueRT_with (v : JSValue) (st : State) : Outcome State :=
  match v with
  | JS_Object cls p =>
      match refcount st !! p with
      | None | Some O => Fault
      | Some (S O) =>
          match cls with
          | JS_CLASS_PREDICATE => st' ← free_rt p st; Ok (release_object p st')
          | _ => Ok (release_object p st)
          end
      | Some (S n) => Ok (set_refcount p n st)
      end
  | _ => Ok st
  end.

(** Modelled from the spec: [js_values_free] of utils.h (not under src/)
    releases every value of the array, in order. *)
Fixpoint js_values_free_with (values : list JSValue) (st : State) : Outcome State :=
  match values with
  | [] => Ok st
  | v :: rest => st' ← JS_FreeValueRT_with v st; js_values_free_with rest st'
  end.

(** lines 769-845; [memset(pr, 0, sizeof(Predicate))] leaves the id 0,
    [PREDICATE_TYPE], and no flags. *)
Definition predicate_free_rt_body (pr : addr) (st : State) : Outcome State :=
  st' ←
    match nodes st !! pr with
    | None => Fault
    | Some (Pred_type _) | Some (Pred_charset _ _) | Some (Pred_string _)
    | Some (Pred_regexp _ _) => Ok st
    | Some (Pred_unary _ predicate) => JS_FreeValueRT_with predicate st
    | Some (Pred_binary _ lhs rhs) =>
        st' ← JS_FreeValueRT_with lhs st; JS_FreeValueRT_with rhs st'
    | Some (Pred_boolean _ predicates) => js_values_free_with predicates st
    | Some (Pred_property _ predicate) => JS_FreeValueRT_with predicate st
    | Some (Pred_member object) => JS_FreeValueRT_with object st
    | Some (Pred_shift _ predicate) => JS_FreeValueRT_with predicate st
    | Some (Pred_function func this_val _) =>
        st' ← JS_FreeValueRT_with func st; JS_FreeValueRT_with this_val st'
    end;
  Ok (set_node pr (Pred_type 0) st').
End Release.

Fixpoint predicate_free_rt (fuel : nat) (pr : addr) (st : State) {struct fuel}
    : Outcome State :=
  match fuel with
  | O => OutOfFuel
  | S fuel' => predicate_free_rt_body (predicate_free_rt fuel') pr st
  end.

Definition JS_FreeValueRT (fuel : nat) := JS_FreeValueRT_with (predicate_free_rt fuel).

(** ** A small runtime, to run the model on examples *)

Module Example.

Definition bytes (s : string) : list byte := list_byte_of_string s.

(** The type bits, in the order of the names in [predicate_dump]. *)
Definition value_type (v : JSValue) : Z :=
  match v with
  | JS_UNDEFINED => 1
  | JS_NULL => 2
  | JS_Bool _ => 4
  | JS_Int32 _ => 8
  | JS_String _ => 32
  | JS_Float64 _ => 1024
  | JS_Object JS_CLASS_FUNCTION _ => 16 + 2048
  | JS_Object JS_CLASS_ARRAY _ => 16 + 4096
  | JS_Object _ _ => 16
  | _ => 0
  end.

Definition to_bool (v : JSValue) : Z :=
  match v with
  | JS_UNDEFINED | JS_NULL => 0
  | JS_EXCEPTION => -1
  | JS_Bool b => if b then 1 else 0
  | JS_Int32 i => if i =? 0 then 0 else 1
  | JS_Float64 bits => if bits =? 0 then 0 else 1
  | JS_String s => match s with [] => 0 | _ => 1 end
  | _ => 1
  end.

Definition to_number (v : JSValue) : Z :=
  match v with
  | JS_Bool b => if b then 1 else 0
  | JS_Int32 i => i
  | JS_Float64 bits => bits
  | _ => 0
  end.

(** One-byte code points only. *)
Definition decode (p : list byte) : Z * list byte :=
  match p with
  | [] => (-1, [])
  | b :: rest => (Z.of_N (Byte.to_N b), rest)
  end.

(** A pattern is a literal that must open the input; a pattern that
    starts with an opening parenthesis does not compile. *)
Definition compile (re : RegExp) : option Bytecode :=
  match source re with
  | x28 :: _ => None
  | pattern => Some pattern
  end.

Definition exec (bc : option Bytecode) (input : list byte) : Z * list (option Z) :=
  match bc with
  | Some pattern =>
      if bool_decide (take (length pattern) input = pattern)
      then (1, [Some 0; Some (Z.of_nat (length pattern))])
      else (0, [])
  | None => (0, [])
  end.

#[export] Instance runtime : Runtime := {|
  js_value_type := value_type;
  js_input_chars v := match v with JS_String s => s | _ => [] end;
  js_value_equals x y := if bool_decide (x = y) then 1 else 0;
  unicode_from_utf8 := decode;
  JS_ToBool := to_bool;
  JS_ToInt64 := to_number;
  JS_ToFloat64 := to_number;
  JS_IsInstanceOf _ _ := 0;
  JS_GetPrototype _ := JS_NULL;
  JS_VALUE_GET_OBJ v := match v with JS_Object _ p => Z.of_nat p | _ => 0 end;
  JS_GetProperty _ atom := JS_Int32 atom;
  JS_HasProperty _ _ := 1;
  JS_ValueToAtom := to_number;
  JS_Call _ _ argc _ := JS_Int32 argc;
  regexp_compile := compile;
  lre_get_capture_count _ := 1;
  lre_exec := exec;
  double_add := Z.add;
  double_sub := Z.sub;
  double_mul := Z.mul;
  double_div := Z.div;
  double_fmod := Z.rem;
  double_pow := Z.pow;
  double_atan2 _ _ := 0;
  double_sqrt := Z.sqrt;
  double_to_uint64 z := z mod 2 ^ 64;
  double_of_uint64 z := z;
  double_of_int64 z := z;
  arguments_underflow := JS_UNDEFINED;
  union_unary_view _ := JS_Int32 0
|}.

(** A decoder that reads one-byte code points and does not move past a
    byte that opens no sequence. *)
Definition decode_ascii (p : list byte) : Z * list byte :=
  match p with
  | [] => (-1, [])
  | b :: rest => if Z.of_N (Byte.to_N b) <? 128 then (Z.of_N (Byte.to_N b), rest) else (-1, p)
  end.

Definition stalling : Runtime := {|
  js_value_type := @js_value_type runtime;
  js_input_chars := @js_input_chars runtime;
  js_value_equals := @js_value_equals runtime;
  unicode_from_utf8 := decode_ascii;
  JS_ToBool := @JS_ToBool runtime;
  JS_ToInt64 := @JS_ToInt64 runtime;
  JS_ToFloat64 := @JS_ToFloat64 runtime;
  JS_IsInstanceOf := @JS_IsInstanceOf runtime;
  JS_GetPrototype := @JS_GetPrototype runtime;
  JS_VALUE_GET_OBJ := @JS_VALUE_GET_OBJ runtime;
  JS_GetProperty := @JS_GetProperty runtime;
  JS_HasProperty := @JS_HasProperty runtime;
  JS_ValueToAtom := @JS_ValueToAtom runtime;
  JS_Call := @JS_Call runtime;
  regexp_compile := @regexp_compile runtime;
  lre_get_capture_count := @lre_get_capture_count runtime;
  lre_exec := @lre_exec runtime;
  double_add := @double_add runtime;
  double_sub := @double_sub runtime;
  double_mul := @double_mul runtime;
  double_div := @double_div runtime;
  double_fmod := @double_fmod runtime;
  double_pow := @double_pow runtime;
  double_atan2 := @double_atan2 runtime;
  double_sqrt := @double_sqrt runtime;
  double_to_uint64 := @double_to_uint64 runtime;
  double_of_uint64 := @double_of_uint64 runtime;
  double_of_int64 := @double_of_int64 runtime;
  arguments_underflow := @arguments_underflow runtime;
  union_unary_view := @union_unary_view runtime
|}.

Definition state_of (l : list (addr * Predicate)) : State :=
  {| nodes := list_to_map l; refcount := ∅; trace := [] |}.

Definition pred (p : addr) : JSValue := JS_Object JS_CLASS_PREDICATE p.
Definition fn (p : addr) : JSValue := JS_Object JS_CLASS_FUNCTION p.
Definition obj (p : addr) : JSValue := JS_Object JS_CLASS_OBJECT p.

Arguments pred p%_nat.
Arguments fn p%_nat.
Arguments obj p%_nat.

End Example.

(** * The vocabulary of the properties *)

(** ** Lazy caches *)

Section CacheVocabulary.
Context `{Runtime}.

Definition decoded (text : list byte) : option Vector :=
  snd <$> utf8_to_unicode text vector_init.

(** The decoder advances: what it leaves is shorter than what it was
    given.  Both decoding loops leave on such a decoder. *)
Definition decoder_advances : Prop :=
  forall b p, (length (unicode_from_utf8 (b :: p)).2 <= length p)%nat.

(** A node after an evaluation: the node before, or the node before
    with its unset cache filled from its own literal. *)
Inductive node_fills : Predicate -> Predicate -> Prop :=
| fills_same node : node_fills node node
| fills_charset set chars :
    decoded set = Some chars ->
    node_fills (Pred_charset set None) (Pred_charset set chars)
| fills_regexp expr :
    node_fills (Pred_regexp expr None) (Pred_regexp expr (regexp_compile expr)).

Definition state_fills (s s' : State) : Prop :=
  (forall q, option_Forall2 node_fills (nodes s !! q) (nodes s' !! q))
  /\ refcount s' = refcount s
  /\ trace s `prefix_of` trace s'.
End CacheVocabulary.

(** The patterns handed to [regexp_compile] so far, oldest first. *)
Definition compilations (st : State) : list RegExp :=
  omap (fun e => match e with EvCompile expr => Some expr | _ => None end) (trace st).

Definition vector_mem (chars : Vector) (x : Z) : bool :=
  bool_decide (x ∈ vector_elems chars).

(** ** Operand lists *)

(** The reference for "left to right": every operand is resolved in
    turn, each on the cursor and the state that the one before left. *)
Fixpoint eval_operands `{Runtime} (eval : addr -> JSArguments -> State -> Result)
    (operands : list JSValue) (args : JSArguments) (st : State)
    : Outcome (list JSValue * JSArguments * State) :=
  match operands with
  | [] => Ok ([], args, st)
  | p :: rest =>
      '(v, args', st') ← predicate_value_with eval p args st;
      '(vs, args'', st'') ← eval_operands eval rest args' st';
      Ok (v :: vs, args'', st'')
  end.

Section OperandVocabulary.
Context `{Runtime}.

Definition truthy (v : JSValue) : Prop := JS_ToBool v <> 0.
Definition falsy (v : JSValue) : Prop := JS_ToBool v = 0.

(** The result that ends the scan of an Or, of an And. *)
Definition stops (id : boolean_id) (v : JSValue) : Prop :=
  match id with
  | PREDICATE_OR => truthy v
  | PREDICATE_AND => falsy v
  | PREDICATE_XOR => False
  end.

(** A literal operand: what [predicate_value] hands back as it is. *)
Definition is_literal (v : JSValue) : bool :=
  negb (bool_decide (is_Some (js_predicate_data v))) && negb (JS_IsFunction v).

Definition xor_fold (vs : list JSValue) : Z :=
  foldl Z.lxor 0 (to_int64 <$> vs).

(** In the words of the specification: each result is converted "to a
    64-bit integer", the integer of [int64_t] that is congruent to it
    modulo 2^64, and the integers are folded "with bitwise xor". *)
Definition as_int64 (z : Z) : Z :=
  let m := z mod 2 ^ 64 in
  if m <? 2 ^ 63 then m else m - 2 ^ 64.

Definition xor64 (vs : list JSValue) : Z :=
  foldr (fun v acc => Z.lxor (as_int64 (JS_ToInt64 v)) acc) 0 vs.
End OperandVocabulary.

(** ** Argument counts *)

(** The trees on which the count is exact.  Left out are: the nodes whose
    consumption depends on the values met (Or and And stop early, a Regex
    node takes a second argument when it matches and two follow its input), Shift nodes, a reference
    that is set on an Equal, Instanceof or PrototypeIs node, an unset
    operand of a Not, NotNot, BNot or Sqrt node, a Property node with a
    filter or without a key, the nodes that are counted through another
    member of the union, and Function nodes of arity two or more. *)
Section ExactCount.
Variable store : gmap addr Predicate.
Variable exact : addr -> bool.

Definition exact_operand (v : JSValue) : bool :=
  match js_predicate_data v with
  | Some other => exact other
  | None => true
  end.

Definition exact_count_body (pr : addr) : bool :=
  match store !! pr with
  | Some (Pred_unary PREDICATE_NOTNOT operand)
  | Some (Pred_unary PREDICATE_NOT operand)
  | Some (Pred_unary PREDICATE_BNOT operand)
  | Some (Pred_unary PREDICATE_SQRT operand) =>
      negb (js_is_null_or_undefined operand) && exact_operand operand
  | Some (Pred_unary _ reference) => js_is_null_or_undefined reference
  | Some (Pred_binary _ lhs rhs) => exact_operand lhs && exact_operand rhs
  | Some (Pred_boolean PREDICATE_XOR operands) => forallb exact_operand operands
  | Some (Pred_member _) => true
  | Some (Pred_property atom filter) =>
      negb (atom =? 0) && js_is_null_or_undefined filter
  | Some (Pred_function _ _ arity) => (0 <=? arity) && (arity <=? 1)
  | _ => false
  end.
End ExactCount.

Fixpoint exact_count (fuel : nat) (store : gmap addr Predicate) (pr : addr) : bool :=
  match fuel with
  | O => false
  | S fuel' => exact_count_body store (exact_count fuel' store) pr
  end.

(** An argument that is itself a predicate would be evaluated when a
    binary node takes it from the cursor. *)
Definition plain_arguments (args : JSArguments) : Prop :=
  Forall (fun v => js_predicate_data v = None) args.

(** [run] takes exactly [n] arguments from any cursor that holds them,
    and leaves the nodes as they are. *)
Definition consumes (store : gmap addr Predicate)
    (run : JSArguments -> State -> Result) (n : Z) : Prop :=
  forall args st, nodes st = store -> plain_arguments args -> n <= args_c args ->
    exists v st', run args st = Ok (v, drop (Z.to_nat n) args, st') /\ nodes st' = store.

(** The count as a sum over a finite tree.  A tree is a node together
    with the trees of the nested predicates that the count follows. *)
#[warnings="-register-all"] Inductive Tree :=
| Tree_node (node : Predicate) (nested : list Tree).

(** The operand slots of a node that the count looks at: the operand of
    a unary node, both operands of an arithmetic node, the operands of a
    combinator, the filter of a Property node, and what the operand slot
    reads on a Type, Charset or String node.  The operand of a Shift
    node and the values of a Member or Function node are not looked
    at. *)
Definition counted_operands `{Runtime} (node : Predicate) : list JSValue :=
  match node with
  | Pred_type _ | Pred_charset _ _ | Pred_string _ => [union_unary_view node]
  | Pred_unary _ predicate => [predicate]
  | Pred_binary _ lhs rhs => [lhs; rhs]
  | Pred_boolean _ predicates => predicates
  | Pred_property _ predicate => [predicate]
  | Pred_regexp _ _ | Pred_member _ | Pred_shift _ _ | Pred_function _ _ _ => []
  end.

(** The nested predicates among them, in order. *)
Definition nested_predicates `{Runtime} (node : Predicate) : list addr :=
  omap js_predicate_data (counted_operands node).

Definition unset_slots (operands : list JSValue) : Z :=
  Z.of_nat (length (List.filter js_is_null_or_undefined operands)).

(** What a node adds to the count by itself: one per unset operand slot
    (the operand slots of a combinator are not counted), one per Regex
    node, one per Member node, one per Shift node, the declared arity
    of a Function node, and one for the missing key of a Property
    node. *)
Definition own_slots `{Runtime} (node : Predicate) : Z :=
  match node with
  | Pred_boolean _ _ => 0
  | Pred_regexp _ _ => 1
  | Pred_member _ => 1
  | Pred_shift _ _ => 1
  | Pred_function _ _ arity => arity
  | Pred_property atom _ =>
      (if atom =? 0 then 1 else 0) + unset_slots (counted_operands node)
  | _ => unset_slots (counted_operands node)
  end.

Section Trees.
Context {A : Type}.
Variable corresponds : Tree -> A -> Prop.
Variable measure : Tree -> Z.
Variable depth : Tree -> nat.

(** The trees and the addresses correspond one for one. *)
Fixpoint each (ts : list Tree) (ps : list A) : Prop :=
  match ts, ps with
  | [], [] => True
  | t :: ts', p :: ps' => corresponds t p /\ each ts' ps'
  | _, _ => False
  end.

Definition sum_over (ts : list Tree) : Z := foldr (fun t n => measure t + n) 0 ts.

Definition deepest (ts : list Tree) : nat := foldr (fun t h => Nat.max (depth t) h) 0%nat ts.
End Trees.

(** The store holds the tree [t] at [pr]. *)
Fixpoint unfolds `{Runtime} (store : gmap addr Predicate) (t : Tree) (pr : addr) : Prop :=
  match t with
  | Tree_node node nested =>
      store !! pr = Some node
      /\ each (unfolds store) nested (nested_predicates node)
  end.

Fixpoint height (t : Tree) : nat :=
  match t with
  | Tree_node _ nested => S (deepest height nested)
  end.

(** In the words of the specification: the "slots a tree would consume
    ... summed recursively across all children, plus one per regex node
    (its input), plus the declared arity for function nodes, plus one
    per missing property key". *)
Fixpoint static_count `{Runtime} (t : Tree) : Z :=
  match t with
  | Tree_node node nested => own_slots node + sum_over static_count nested
  end.

(** ** Ownership *)

(** The values a node owns a reference to, in the order in which
    [predicate_free_rt] releases them. *)
Definition node_values (node : Predicate) : list JSValue :=
  match node with
  | Pred_type _ | Pred_charset _ _ | Pred_string _ | Pred_regexp _ _ => []
  | Pred_unary _ predicate => [predicate]
  | Pred_binary _ lhs rhs => [lhs; rhs]
  | Pred_boolean _ predicates => predicates
  | Pred_property _ predicate => [predicate]
  | Pred_member object => [object]
  | Pred_shift _ predicate => [predicate]
  | Pred_function func this_val _ => [func; this_val]
  end.

(** What [predicate_clone] writes into the new block. *)
Definition clone_node (node : Predicate) : Predicate :=
  match node with
  | Pred_regexp expr _ => Pred_regexp expr None
  | Pred_charset set chars => Pred_charset set (vector_copy chars)
  | other => other
  end.

Definition object_addr (v : JSValue) : option addr :=
  match v with
  | JS_Object _ p => Some p
  | _ => None
  end.

(** How many of the values are references to the object at [p]. *)
Definition occurrences (values : list JSValue) (p : addr) : nat :=
  length (filter (fun v => object_addr v = Some p) values).

Definition no_reference (a : addr) (v : JSValue) : Prop := js_predicate_data v <> Some a.

#[global] Instance no_reference_dec a v : Decision (no_reference a v).
Proof. unfold no_reference. apply _. Defined.

(** No node other than [a] itself holds a reference to [a]. *)
Definition unreferenced (a : addr) (store : gmap addr Predicate) : Prop :=
  forall p node, p <> a -> store !! p = Some node ->
    Forall (no_reference a) (node_values node).

(** Two states that differ at most in the node at [a] (and in the
    reference counts, which no evaluation reads). *)
Definition agree (a : addr) (s1 s2 : State) : Prop :=
  unreferenced a (nodes s1)
  /\ (forall p, p <> a -> nodes s1 !! p = nodes s2 !! p)
  /\ trace s1 = trace s2.

(** Two outcomes of the same kind; when both are results, the same
    result, in states that agree. *)
Definition related {A : Type} (a : addr) (good : A -> Prop)
    (r1 r2 : Outcome (A * State)) : Prop :=
  match r1, r2 with
  | Ok (x1, s1), Ok (x2, s2) => x1 = x2 /\ good x1 /\ agree a s1 s2
  | AssertFail, AssertFail | Fault, Fault | OutOfFuel, OutOfFuel => True
  | _, _ => False
  end.

Definition good_cursor {A : Type} (a : addr) (x : A * JSArguments) : Prop :=
  Forall (no_reference a) x.2.

Definition any_result {A : Type} (x : A) : Prop := True.

(** The object behind a value, if it is one, has an owner. *)
Definition alive (st : State) (v : JSValue) : Prop :=
  match object_addr v with
  | Some p =>
      match refcount st !! p with
      | Some (S _) => True
      | _ => False
      end
  | None => True
  end.

Create HintDb frame.

Ltac related_ok :=
  simpl;
  split; [ reflexivity
         | split; [ first [ exact I | assumption ]
                  | first [ assumption | solve [ auto with frame ] ] ] ].

(** * Further parts of the engine and their vocabulary *)

(** ** What an evaluation may do *)

(** An outcome that is not an abort and, when it is a result, leaves a
    cursor that is what remains of [args] once some arguments were taken
    off its front. *)
Definition sound_outcome {A : Type} (args : JSArguments)
    (r : Outcome (A * JSArguments * State)) : Prop :=
  match r with
  | Ok (_, args', _) => args' `suffix_of` args
  | AssertFail => False
  | _ => True
  end.

Definition aborted {A : Type} (r : Outcome A) : bool :=
  match r with
  | AssertFail => true
  | _ => false
  end.

(** The cache of a charset node once an evaluation went through it. *)
Definition charset_cache `{Runtime} (set : list byte) (chars : Vector) : option Vector :=
  if vector_unset chars then decoded set else Some chars.

(** Two runs that end alike; when both give a result, the same value and
    the same cursor. *)
Definition same_answer (r1 r2 : Result) : Prop :=
  match r1, r2 with
  | Ok (v1, a1, _), Ok (v2, a2, _) => v1 = v2 /\ a1 = a2
  | AssertFail, AssertFail | Fault, Fault | OutOfFuel, OutOfFuel => True
  | _, _ => False
  end.

(** ** The arguments a node takes itself (lines 1171-1234) *)

(** [predicate_direct_num_args] reads the node behind its pointer and
    nothing else; every kind returns from its case, so the final
    [return -1] is out of reach. *)
Definition predicate_direct_num_args (node : Predicate) : Z :=
  match node with
  | Pred_type _ | Pred_charset _ _ | Pred_string _ | Pred_unary _ _ => 1
  | Pred_binary _ lhs rhs =>
      (if js_is_null_or_undefined lhs then 1 else 0)
      + (if js_is_null_or_undefined rhs then 1 else 0)
  | Pred_boolean _ _ => 0
  | Pred_regexp _ _ => 1
  | Pred_property atom predicate =>
      (if atom =? 0 then 1 else 0)
      + (if negb (js_is_null_or_undefined predicate) then 1 else 0)
  | Pred_member _ => 1
  | Pred_shift _ _ => 1
  | Pred_function _ _ arity => arity
  end.

(** The nodes that hold no nested predicate and no callable: a test on
    one argument, a lookup, or arithmetic on literals and arguments. *)
Definition self_contained (node : Predicate) : bool :=
  match node with
  | Pred_type _ | Pred_charset _ _ | Pred_string _ | Pred_member _ => true
  | Pred_unary PREDICATE_INSTANCEOF _
  | Pred_unary PREDICATE_PROTOTYPEIS _
  | Pred_unary PREDICATE_EQUAL _ => true
  | Pred_binary _ lhs rhs => is_literal lhs && is_literal rhs
  | _ => false
  end.

(** ** Introspection: operand values and their labels (lines 847-985) *)

Definition lit (s : string) : list byte := list_byte_of_string s.

(** What an introspection call hands back: a value, or a fresh array,
    given by its elements in index order. *)
Inductive Introspected :=
| Returned (v : JSValue)
| NewArray (items : list JSValue).

(** [JS_SetPropertyUint32] on such an array: the element at [i] is
    replaced; an index past the end extends the array, the elements in
    between reading as undefined. *)
Definition array_set (items : list JSValue) (i : nat) (v : JSValue) : list JSValue :=
  if (i <? length items)%nat then <[i := v]> items
  else items ++ replicate (i - length items) JS_UNDEFINED ++ [v].

(** Modelled from the spec: [js_values_toarray] of utils.h (not under
    src/) builds the "sequence" of "the node's immediate operand values":
    a fresh array of the [n] values, in order. *)
Definition js_values_toarray (values : list JSValue) : Introspected :=
  NewArray values.

Section Introspection.
(* QuickJS: the value of an atom *)
Variable JS_AtomToValue : JSAtom -> JSValue.
(* what [pr->string.str], [pr->string.len] read on a charset node, whose
   payload is another member of the union: a matter of memory layout *)
Variable union_string_view : list byte -> Vector -> list byte.

(** lines 847-917 *)
Definition predicate_values (node : Predicate) : Introspected :=
  match node with
  | Pred_type _ | Pred_regexp _ _ => Returned JS_UNDEFINED
  | Pred_charset set chars =>
      NewArray (array_set [] 0 (JS_String (union_string_view set chars)))
  | Pred_string str => NewArray (array_set [] 0 (JS_String str))
  | Pred_unary _ predicate => js_values_toarray [predicate]
  | Pred_binary _ lhs rhs => js_values_toarray [lhs; rhs]
  | Pred_boolean _ predicates => js_values_toarray predicates
  | Pred_property atom predicate => js_values_toarray [JS_AtomToValue atom; predicate]
  | Pred_member object => Returned object
  | Pred_shift _ predicate => Returned predicate
  | Pred_function func _ _ => Returned func
  end.
End Introspection.

Definition int32_wrap (z : Z) : Z := (z + 2 ^ 31) mod 2 ^ 32 - 2 ^ 31.

(** line 960: [for(i = 0; i < n; i++) JS_SetPropertyUint32(ret, i,
    JS_NewInt32(i))], where [i] is a [uint32_t]. *)
Fixpoint index_keys (fuel i : nat) (n : Z) (ret : list JSValue) : list JSValue :=
  match fuel with
  | O => ret
  | S fuel' =>
      if Z.of_nat i <? n
      then index_keys fuel' (S i) n
             (array_set ret i (JS_NewInt32 (int32_wrap (Z.of_nat i))))
      else ret
  end.

(** lines 919-985; [n] is a [uint32_t] copy of [npredicates]. *)
Definition predicate_keys (node : Predicate) : list JSValue :=
  let ret := [] in
  match node with
  | Pred_type _ | Pred_charset _ _ | Pred_string _ | Pred_regexp _ _ => ret
  | Pred_unary _ _ => array_set ret 0 (JS_String (lit "predicate"))
  | Pred_binary _ _ _ =>
      array_set (array_set ret 0 (JS_String (lit "left"))) 1 (JS_String (lit "right"))
  | Pred_boolean _ predicates =>
      let n := uint32_wrap (Z.of_nat (length predicates)) in
      index_keys (Z.to_nat n) 0 n ret
  | Pred_property _ _ =>
      array_set (array_set ret 0 (JS_String (lit "atom"))) 1 (JS_String (lit "predicate"))
  | Pred_member _ => array_set ret 0 (JS_String (lit "object"))
  | Pred_shift _ _ => array_set ret 0 (JS_String (lit "predicate"))
  | Pred_function _ _ _ => array_set ret 0 (JS_String (lit "func"))
  end.

(** The labels name the elements of the values, one for one. *)
Definition labelled_by (keys : list JSValue) (values : Introspected) : Prop :=
  match values with
  | NewArray items => length items = length keys
  | Returned _ => False
  end.

(** The nodes whose operands are handed back as an array. *)
Definition operand_array (node : Predicate) : bool :=
  match node with
  | Pred_unary _ _ | Pred_binary _ _ _ | Pred_boolean _ _ | Pred_property _ _ => true
  | _ => false
  end.

(** ** Rendering: the dumper and the source regenerator (lines 28-47,
    358-751 and 1236-1271) *)

(** A text buffer ([DynBuf]) is the list of its bytes.  What [%s] and
    [dbuf_putstr] copy of a string is what stands before its first zero
    byte. *)
Fixpoint c_string (s : list byte) : list byte :=
  match s with
  | [] => []
  | c :: rest => if bool_decide (c = x00) then [] else c :: c_string rest
  end.

Definition byte_of_Z (z : Z) : byte := default x00 (Byte.of_N (Z.to_N z)).

(** The levels that [predicate_precedence] names; the enumeration is
    declared outside src/, and its numbering is a parameter. *)
Inductive JSPrecedence :=
| PRECEDENCE_EQUALITY
| PRECEDENCE_LESS_GREATER_IN
| PRECEDENCE_UNARY
| PRECEDENCE_ADDITIVE
| PRECEDENCE_MULTIPLICATIVE
| PRECEDENCE_EXPONENTIATION
| PRECEDENCE_BITWISE_OR
| PRECEDENCE_BITWISE_AND
| PRECEDENCE_LOGICAL_OR
| PRECEDENCE_LOGICAL_AND
| PRECEDENCE_BITWISE_XOR
| PRECEDENCE_MEMBER_ACCESS.

(** The helpers of buffer-utils.h, utils.h and char-utils.h, the
    conversions of [printf] and the list of parameter names
    ([Arguments]), none of which is under src/.  A helper that writes
    into a buffer is the text that it appends. *)
Class Printer := {
  (* the parameter names of the regenerated source *)
  Arguments : Type;
  arguments_alloc : Z -> option Arguments;
  arguments_push : Arguments -> list byte -> list byte * Arguments;
  arguments_shift : Arguments -> list byte * Arguments;
  arguments_dump : Arguments -> list byte;
  (* the text each helper appends *)
  dbuf_bitflags : Z -> list (list byte) -> list byte;
  dbuf_put_escaped : list byte -> list byte;
  dbuf_put_value : JSValue -> list byte;
  js_value_dump : JSValue -> list byte;
  (* the buffer after [dbuf_0] *)
  dbuf_0 : list byte -> list byte;
  (* the strings that helpers return *)
  regexp_flags_tostring : Z -> list byte;
  js_function_name : JSValue -> list byte;
  js_object_tostring : JSValue -> list byte;
  js_function_tostring : JSValue -> list byte;
  js_tostring : JSValue -> list byte;
  js_tosource : JSValue -> option (list byte);
  js_value_type_name : Z -> list byte;
  JS_AtomToCString : JSAtom -> list byte;
  js_get_propertystr_int32 : JSValue -> list byte -> Z;
  (* printf: %d and %zu, and %0<width>x *)
  printf_int : Z -> list byte;
  printf_hex : nat -> Z -> list byte;
  (* char-utils.h *)
  byte_chrs : list byte -> list byte -> nat;
  is_whitespace_char : byte -> bool;
  is_alphanumeric_char : byte -> bool;
  is_digit_char : byte -> bool;
  (* the number of a precedence level *)
  precedence_value : JSPrecedence -> Z
}.

Definition JS_IsNumber (v : JSValue) : bool :=
  match v with
  | JS_Int32 _ | JS_Float64 _ => true
  | _ => false
  end.

(** lines 358-365.  The table is indexed by [pr->id]; the enumeration
    is declared in predicate.h, which is not under src/, and its values
    are taken in the order in which the names stand, which is the order
    that the operator tables of [predicate_dump] and [predicate_tosource]
    ([pr->id - PREDICATE_ADD], [pr->id - PREDICATE_OR]) rely on.  The
    entry that ends the table is a null pointer. *)
Definition predicate_typename (node : Predicate) : option (list byte) :=
  Some (lit match node with
            | Pred_type _ => "type"
            | Pred_charset _ _ => "charset"
            | Pred_string _ => "string"
            | Pred_unary PREDICATE_NOTNOT _ => "notnot"
            | Pred_unary PREDICATE_NOT _ => "not"
            | Pred_unary PREDICATE_BNOT _ => "bnot"
            | Pred_unary PREDICATE_SQRT _ => "sqrt"
            | Pred_binary PREDICATE_ADD _ _ => "add"
            | Pred_binary PREDICATE_SUB _ _ => "sub"
            | Pred_binary PREDICATE_MUL _ _ => "mul"
            | Pred_binary PREDICATE_DIV _ _ => "div"
            | Pred_binary PREDICATE_MOD _ _ => "mod"
            | Pred_binary PREDICATE_BOR _ _ => "bor"
            | Pred_binary PREDICATE_BAND _ _ => "band"
            | Pred_binary PREDICATE_POW _ _ => "pow"
            | Pred_binary PREDICATE_ATAN2 _ _ => "atan2"
            | Pred_boolean PREDICATE_OR _ => "or"
            | Pred_boolean PREDICATE_AND _ => "and"
            | Pred_boolean PREDICATE_XOR _ => "xor"
            | Pred_regexp _ _ => "regexp"
            | Pred_unary PREDICATE_INSTANCEOF _ => "instanceof"
            | Pred_unary PREDICATE_PROTOTYPEIS _ => "prototypeis"
            | Pred_unary PREDICATE_EQUAL _ => "equal"
            | Pred_property _ _ => "property"
            | Pred_member _ => "member"
            | Pred_shift _ _ => "shift"
            | Pred_function _ _ _ => "function"
            end).

(** lines 379-393 *)
Definition type_names : list (list byte) :=
  lit <$> ["UNDEFINED"; "NULL"; "BOOL"; "INT"; "OBJECT"; "STRING"; "SYMBOL";
           "BIG_FLOAT"; "BIG_INT"; "BIG_DECIMAL"; "FLOAT64"; "FUNCTION"; "ARRAY"]%string.

Section Dumper.
Context `{Printer}.

(** lines 404-407 *)
Definition dump_codepoint (p : Z) : list byte :=
  if p <? 128 then lit "'" ++ [byte_of_Z p] ++ lit "'"
  else if 16777215 <? p then lit "'\u" ++ printf_hex 8 p ++ lit "'"
  else if 65535 <? p then lit "\u" ++ printf_hex 6 p
  else lit "'\u" ++ printf_hex 4 p ++ lit "'".

(** lines 401-409 *)
Fixpoint dump_codepoints (i : nat) (chars : list Z) : list byte :=
  match chars with
  | [] => []
  | p :: rest =>
      (if (0 <? i)%nat then lit ", " else []) ++ dump_codepoint p
      ++ dump_codepoints (S i) rest
  end.

(** lines 458-463 *)
Fixpoint dump_values (i : nat) (predicates : list JSValue) : list byte :=
  match predicates with
  | [] => []
  | p :: rest =>
      (if (0 <? i)%nat then lit ", " else []) ++ dbuf_put_value p
      ++ dump_values (S i) rest
  end.

(** lines 367-532 *)
Definition predicate_dump (node : Predicate) (dbuf : list byte) : Outcome (list byte) :=
  match predicate_typename node with
  | None => AssertFail
  | Some type =>
      let dbuf := dbuf ++ lit "Predicate." ++ c_string type ++ lit "(" in
      dbuf ←
        match node with
        | Pred_type type_flags =>
            Ok (dbuf ++ lit "type == " ++ dbuf_bitflags type_flags type_names)
        | Pred_charset set chars =>
            Ok (dbuf ++ lit "[ " ++ dump_codepoints 0 (vector_elems chars)
                ++ lit " (len = " ++ printf_int (Z.of_nat (length set)) ++ lit ") ]")
        | Pred_string str => Ok (dbuf ++ lit "'" ++ dbuf_put_escaped str ++ lit "'")
        | Pred_unary PREDICATE_NOTNOT predicate =>
            Ok ((dbuf ++ lit "!") ++ lit "!( " ++ dbuf_put_value predicate ++ lit " )")
        | Pred_unary PREDICATE_NOT predicate =>
            Ok (dbuf ++ lit "!( " ++ dbuf_put_value predicate ++ lit " )")
        | Pred_binary PREDICATE_ATAN2 _ _ => AssertFail
        | Pred_binary id lhs rhs =>
            let op_str :=
              match id with
              | PREDICATE_ADD => " + "
              | PREDICATE_SUB => " - "
              | PREDICATE_MUL => " * "
              | PREDICATE_DIV => " / "
              | PREDICATE_MOD => " % "
              | PREDICATE_BOR => " | "
              | PREDICATE_BAND => " & "
              | _ => " ** "
              end%string in
            Ok (dbuf ++ lit "(" ++ dbuf_put_value lhs ++ lit op_str
                ++ dbuf_put_value rhs ++ lit ")")
        | Pred_boolean _ predicates => Ok (dbuf ++ dump_values 0 predicates)
        | Pred_regexp expr _ =>
            Ok (dbuf_0 (dbuf ++ lit "/" ++ source expr ++ lit "/"
                        ++ regexp_flags_tostring (flags expr)))
        | Pred_unary PREDICATE_INSTANCEOF predicate =>
            Ok (dbuf ++ c_string (js_function_name predicate))
        | Pred_unary PREDICATE_PROTOTYPEIS predicate =>
            Ok (dbuf ++ c_string (js_object_tostring predicate))
        | Pred_unary PREDICATE_EQUAL predicate => Ok (dbuf ++ js_value_dump predicate)
        | Pred_property atom predicate =>
            let dbuf := dbuf ++ lit "'" ++ c_string (JS_AtomToCString atom) ++ lit "'" in
            if negb (js_is_null_or_undefined predicate)
            then Ok (dbuf ++ lit ", " ++ c_string (js_tostring predicate))
            else Ok dbuf
        | Pred_member object => Ok (dbuf ++ js_value_dump object)
        | Pred_shift n predicate =>
            Ok (dbuf ++ lit ">> " ++ printf_int n ++ lit " " ++ js_value_dump predicate)
        | Pred_function func _ _ =>
            let nargs := js_get_propertystr_int32 func (lit "length") in
            Ok (dbuf ++ lit "func(" ++ printf_int nargs ++ lit ")")
        | Pred_unary PREDICATE_BNOT _ | Pred_unary PREDICATE_SQRT _ => AssertFail
        end;
      Ok (dbuf ++ lit ")")
  end.

(** lines 534-541 *)
Definition predicate_tostring (node : Predicate) : Outcome (list byte) :=
  dbuf ← predicate_dump node [];
  Ok (dbuf_0 dbuf).

(** lines 1236-1271; [ret] starts as -1. *)
Definition predicate_precedence (node : Predicate) : Outcome Z :=
  let ret :=
    match node with
    | Pred_type _ | Pred_charset _ _ | Pred_unary PREDICATE_PROTOTYPEIS _
    | Pred_regexp _ _ | Pred_shift _ _ => -1
    | Pred_string _ | Pred_unary PREDICATE_EQUAL _ => precedence_value PRECEDENCE_EQUALITY
    | Pred_unary PREDICATE_INSTANCEOF _ => precedence_value PRECEDENCE_LESS_GREATER_IN
    | Pred_unary _ _ => precedence_value PRECEDENCE_UNARY
    | Pred_binary PREDICATE_ADD _ _ | Pred_binary PREDICATE_SUB _ _ =>
        precedence_value PRECEDENCE_ADDITIVE
    | Pred_binary PREDICATE_MUL _ _ | Pred_binary PREDICATE_DIV _ _
    | Pred_binary PREDICATE_MOD _ _ | Pred_binary PREDICATE_ATAN2 _ _ =>
        precedence_value PRECEDENCE_MULTIPLICATIVE
    | Pred_binary PREDICATE_POW _ _ => precedence_value PRECEDENCE_EXPONENTIATION
    | Pred_binary PREDICATE_BOR _ _ => precedence_value PRECEDENCE_BITWISE_OR
    | Pred_binary PREDICATE_BAND _ _ => precedence_value PRECEDENCE_BITWISE_AND
    | Pred_boolean PREDICATE_OR _ => precedence_value PRECEDENCE_LOGICAL_OR
    | Pred_boolean PREDICATE_AND _ => precedence_value PRECEDENCE_LOGICAL_AND
    | Pred_boolean PREDICATE_XOR _ => precedence_value PRECEDENCE_BITWISE_XOR
    | Pred_property _ _ | Pred_member _ | Pred_function _ _ _ =>
        precedence_value PRECEDENCE_MEMBER_ACCESS
    end in
  if ret =? -1 then AssertFail else Ok ret.

(** lines 642-652 and 670-676: whether an operand goes between
    parentheses. *)
Definition operand_parens (store : gmap addr Predicate) (prec : Z) (value : JSValue)
    : Outcome bool :=
  let parens := negb (JS_IsNumber value) in
  match js_predicate_data value with
  | Some other =>
      match store !! other with
      | None => Fault
      | Some node =>
          p ← predicate_precedence node;
          Ok (if prec <=? p then false else parens)
      end
  | None => Ok parens
  end.

(** [s[i]], with the terminator past the end of the string. *)
Definition char_at (s : list byte) (i : nat) : byte := nth i s x00.

(** [!strncmp(a, b, n)] *)
Definition strncmp_equal (a b : list byte) (n : nat) : bool :=
  bool_decide (take n (c_string a ++ [x00]) = take n (c_string b ++ [x00])).

(** lines 698-700 *)
Fixpoint skip_arrow (fuel i : nat) (s : list byte) : nat :=
  match fuel with
  | O => i
  | S fuel' =>
      let c := char_at s i in
      if bool_decide (c = x00) then i
      else if negb (is_whitespace_char c) && negb (bool_decide (c = "="%byte))
              && negb (bool_decide (c = ">"%byte))
      then i
      else skip_arrow fuel' (S i) s
  end.

(** lines 695-708: what is left of the source of a filter once its
    header is taken off. *)
Definition strip_header (s : list byte) : list byte :=
  let s := c_string s in
  let slen := length s in
  let arglen := byte_chrs s (lit " =") in
  if (arglen <? slen)%nat then
    let i := skip_arrow (slen - arglen) arglen s in
    if strncmp_equal (drop i s) s arglen
       && negb (is_alphanumeric_char (char_at s (i + arglen))
                || is_digit_char (char_at s (i + arglen)))
    then drop (i + arglen) s
    else s
  else if strncmp_equal (drop 1 s) (lit " => ") 4 && is_alphanumeric_char (char_at s 5)
          && is_whitespace_char (char_at s 6)
  then drop 6 s
  else s.

Definition binary_op_str (id : binary_id) : list byte :=
  lit match id with
      | PREDICATE_ADD => " + "
      | PREDICATE_SUB => " - "
      | PREDICATE_MUL => " * "
      | PREDICATE_DIV => " / "
      | PREDICATE_MOD => " % "
      | PREDICATE_BOR => " | "
      | PREDICATE_BAND => " & "
      | PREDICATE_POW => " ** "
      | PREDICATE_ATAN2 => " atan2 "
      end.

Definition boolean_op_str (id : boolean_id) : list byte :=
  lit match id with
      | PREDICATE_OR => " || "
      | PREDICATE_AND => " && "
      | PREDICATE_XOR => " ^ "
      end.

Section Source.
Variable store : gmap addr Predicate.
Variable tosource : addr -> list byte -> Arguments -> Outcome (list byte * Arguments).

(** lines 28-47 *)
Definition predicate_inspect (value : JSValue) (dbuf : list byte) (args : Arguments)
    (parens : bool) : Outcome (list byte * Arguments) :=
  if js_is_null_or_undefined value then
    let '(arg, args) := arguments_shift args in
    Ok (dbuf ++ c_string arg, args)
  else
    match js_predicate_data value with
    | Some pr =>
        let dbuf := if parens then dbuf ++ lit "(" else dbuf in
        '(dbuf, args) ← tosource pr dbuf args;
        Ok (if parens then dbuf ++ lit ")" else dbuf, args)
    | None => Ok (dbuf ++ js_value_dump value, args)
    end.

(** lines 669-685 *)
Fixpoint boolean_tosource (op : list byte) (prec : Z) (i : nat)
    (predicates : list JSValue) (dbuf : list byte) (args : Arguments)
    : Outcome (list byte * Arguments) :=
  match predicates with
  | [] => Ok (dbuf, args)
  | p :: rest =>
      parens ← operand_parens store prec p;
      let dbuf := if (0 <? i)%nat then dbuf ++ op else dbuf in
      '(dbuf, args) ← predicate_inspect p dbuf args parens;
      boolean_tosource op prec (S i) rest dbuf args
  end.

(** lines 570-750, with [args] at hand *)
Definition predicate_tosource_body (pr : addr) (dbuf : list byte) (args : Arguments)
    : Outcome (list byte * Arguments) :=
  match store !! pr with
  | None => Fault
  | Some node =>
      '(dbuf, args) ←
        match node with
        | Pred_type type_flags =>
            let '(arg, args) := arguments_push args (lit "value") in
            Ok (dbuf ++ lit "typeof " ++ c_string arg ++ lit " == "
                ++ c_string (js_value_type_name type_flags), args)
        | Pred_charset set _ =>
            let '(arg, args) := arguments_push args (lit "chars") in
            Ok (dbuf ++ lit "'" ++ c_string set ++ lit "'.indexOf(" ++ c_string arg
                ++ lit ") != -1", args)
        | Pred_string str =>
            let '(arg, args) := arguments_push args (lit "string") in
            Ok (dbuf ++ c_string arg ++ lit " == '" ++ dbuf_put_escaped str ++ lit "'",
                args)
        | Pred_unary PREDICATE_EQUAL predicate =>
            let '(arg, args) := arguments_push args (lit "value") in
            predicate_inspect predicate (dbuf ++ c_string arg ++ lit " == ") args false
        | Pred_unary PREDICATE_INSTANCEOF predicate =>
            let '(arg, args) := arguments_push args (lit "object") in
            predicate_inspect predicate (dbuf ++ c_string arg ++ lit " instanceof ")
              args false
        | Pred_unary PREDICATE_PROTOTYPEIS predicate =>
            let '(arg, args) := arguments_push args (lit "object") in
            predicate_inspect predicate
              (dbuf ++ lit "Object.getPrototypeOf(" ++ c_string arg ++ lit ") == ")
              args false
        | Pred_unary PREDICATE_NOTNOT _ =>
            let '(arg, args) := arguments_push args (lit "value") in
            Ok (dbuf ++ lit "!!" ++ c_string arg, args)
        | Pred_unary PREDICATE_NOT _ =>
            let '(arg, args) := arguments_push args (lit "value") in
            Ok (dbuf ++ lit "!" ++ c_string arg, args)
        | Pred_unary PREDICATE_BNOT _ =>
            let '(arg, args) := arguments_push args (lit "value") in
            Ok (dbuf ++ lit "~" ++ c_string arg, args)
        | Pred_unary PREDICATE_SQRT _ =>
            let '(arg, args) := arguments_push args (lit "value") in
            Ok (dbuf ++ lit "Math.sqrt(" ++ c_string arg ++ lit ")", args)
        | Pred_binary id lhs rhs =>
            prec ← predicate_precedence node;
            parens0 ← operand_parens store prec lhs;
            parens1 ← operand_parens store prec rhs;
            '(dbuf, args) ← predicate_inspect lhs dbuf args parens0;
            predicate_inspect rhs (dbuf ++ binary_op_str id) args parens1
        | Pred_boolean id predicates =>
            prec ← predicate_precedence node;
            boolean_tosource (boolean_op_str id) prec 0 predicates dbuf args
        | Pred_property atom predicate =>
            let '(arg, args) := arguments_push args (lit "object") in
            let prop := JS_AtomToCString atom in
            let s := if js_is_null_or_undefined predicate then None
                     else js_tosource predicate in
            let dbuf := dbuf ++ c_string arg ++ lit "." ++ c_string prop in
            match s with
            | Some s => Ok (dbuf ++ strip_header s, args)
            | None => Ok (dbuf, args)
            end
        | Pred_member _ => Ok (dbuf, args)
        | Pred_function func _ _ => Ok (dbuf ++ c_string (js_function_tostring func), args)
        | Pred_regexp _ _ | Pred_shift _ _ => AssertFail
        end;
      Ok (dbuf_0 (arguments_dump args ++ lit " => " ++ dbuf), args)
  end.
End Source.
End Dumper.

(** The calls of [predicate_tosource] that [predicate_inspect] makes,
    which hand on the names. *)
Fixpoint predicate_tosource_names `{Printer} (fuel : nat) (store : gmap addr Predicate)
    (pr : addr) (dbuf : list byte) (args : Arguments) {struct fuel}
    : Outcome (list byte * Arguments) :=
  match fuel with
  | O => OutOfFuel
  | S fuel' =>
      predicate_tosource_body store (predicate_tosource_names fuel' store) pr dbuf args
  end.

(** lines 543-751.  Without names ([args == 0]) a list is allocated for
    one name more than [predicate_recursive_num_args] counts; when that
    fails, the out-of-memory exception is thrown and the buffer is left as
    it is ([None]). *)
Definition predicate_tosource `{Runtime} `{Printer} (fuel : nat)
    (store : gmap addr Predicate) (pr : addr) (dbuf : list byte)
    (args : option Arguments) : Outcome (option (list byte * Arguments)) :=
  match args with
  | Some args => r ← predicate_tosource_names fuel store pr dbuf args; Ok (Some r)
  | None =>
      n ← predicate_recursive_num_args fuel store pr;
      match arguments_alloc (n + 1) with
      | None => Ok None
      | Some tmp => r ← predicate_tosource_names fuel store pr dbuf tmp; Ok (Some r)
      end
  end.

(** ** The kinds that the renderers leave out *)

(** The kinds for which the switch of [predicate_dump] has no case. *)
Definition dump_unsupported (node : Predicate) : bool :=
  match node with
  | Pred_unary PREDICATE_BNOT _ | Pred_unary PREDICATE_SQRT _
  | Pred_binary PREDICATE_ATAN2 _ _ => true
  | _ => false
  end.

(** The kinds for which the switch of [predicate_tosource] has no case. *)
Definition source_unsupported (node : Predicate) : bool :=
  match node with
  | Pred_regexp _ _ | Pred_shift _ _ => true
  | _ => false
  end.

(** The kinds to which [predicate_precedence] gives no level. *)
Definition without_precedence (node : Predicate) : bool :=
  match node with
  | Pred_type _ | Pred_charset _ _ | Pred_unary PREDICATE_PROTOTYPEIS _
  | Pred_regexp _ _ | Pred_shift _ _ => true
  | _ => false
  end.

(** An operand that is a predicate of such a kind. *)
Definition operand_without_precedence (store : gmap addr Predicate) (v : JSValue) : bool :=
  match js_predicate_data v with
  | Some other =>
      match store !! other with
      | Some node => without_precedence node
      | None => false
      end
  | None => false
  end.

(** An infix node that meets such an operand before it renders
    anything: the left operand of an arithmetic node, its right operand
    when the left one is no predicate, the first operand of a
    combinator. *)
Definition infix_over_unranked (store : gmap addr Predicate) (node : Predicate) : bool :=
  match node with
  | Pred_binary _ lhs rhs =>
      operand_without_precedence store lhs
      || (bool_decide (js_predicate_data lhs = None)
          && operand_without_precedence store rhs)
  | Pred_boolean _ (p :: _) => operand_without_precedence store p
  | _ => false
  end.

(** The unary nodes that compute on their operand. *)
Definition logical_id (id : unary_id) : bool :=
  match id with
  | PREDICATE_NOTNOT | PREDICATE_NOT | PREDICATE_BNOT | PREDICATE_SQRT => true
  | _ => false
  end.

(** ** A small printer, to run the renderers on examples *)

Module ExamplePrinter.

(** The names given out so far; a name that is asked for when none is
    left is [x]. *)
#[export] Instance printer : Printer := {|
  Arguments := list (list byte);
  arguments_alloc n := if n <? 0 then None else Some [];
  arguments_push args name := (name, args ++ [name]);
  arguments_shift args :=
    match args with
    | [] => (lit "x", [])
    | name :: rest => (name, rest)
    end;
  arguments_dump args := lit "(" ++ concat args ++ lit ")";
  dbuf_bitflags flags _ := [byte_of_Z flags];
  dbuf_put_escaped s := s;
  dbuf_put_value v := match v with JS_String s => s | _ => lit "?" end;
  js_value_dump v :=
    match v with
    | JS_String s => s
    | JS_Int32 i => [byte_of_Z (48 + i)]
    | _ => lit "?"
    end;
  dbuf_0 dbuf := dbuf;
  regexp_flags_tostring _ := [];
  js_function_name _ := lit "f";
  js_object_tostring _ := lit "o";
  js_function_tostring _ := lit "f";
  js_tostring _ := lit "v";
  js_tosource _ := None;
  js_value_type_name _ := lit "t";
  JS_AtomToCString _ := lit "p";
  js_get_propertystr_int32 _ _ := 0;
  printf_int z := [byte_of_Z (48 + z)];
  printf_hex _ z := [byte_of_Z (48 + z)];
  byte_chrs s _ := length s;
  is_whitespace_char c := bool_decide (c = " "%byte);
  is_alphanumeric_char _ := false;
  is_digit_char _ := false;
  precedence_value level :=
    match level with
    | PRECEDENCE_LOGICAL_OR => 1
    | PRECEDENCE_LOGICAL_AND => 2
    | PRECEDENCE_BITWISE_OR => 3
    | PRECEDENCE_BITWISE_XOR => 4
    | PRECEDENCE_BITWISE_AND => 5
    | PRECEDENCE_EQUALITY => 6
    | PRECEDENCE_LESS_GREATER_IN => 7
    | PRECEDENCE_ADDITIVE => 8
    | PRECEDENCE_MULTIPLICATIVE => 9
    | PRECEDENCE_EXPONENTIATION => 10
    | PRECEDENCE_UNARY => 11
    | PRECEDENCE_MEMBER_ACCESS => 12
    end
|}.

End ExamplePrinter.

(** ** Runs on a larger recursion bound *)

(** [r2] is [r1], unless [r1] ran into the recursion bound of the
    model. *)
Definition refines {A : Type} (r1 r2 : Outcome A) : Prop :=
  r1 = OutOfFuel \/ r1 = r2.

(** A combinator that stops early. *)
Definition short_circuit (id : boolean_id) : bool :=
  match id with
  | PREDICATE_OR | PREDICATE_AND => true
  | PREDICATE_XOR => false
  end.

(** * Properties *)

Lemma predicate_eval_unfold `{Runtime} fuel pr args st :
  predicate_eval (S fuel) pr args st =
  predicate_eval_body (predicate_eval fuel) pr args st.
Proof. reflexivity. Qed.

Lemma args_c_nonneg (args : JSArguments) : 0 <= args_c args.
Proof. unfold args_c. lia. Qed.

(** The Charset case, read backwards and forwards: an answer comes with
    a cache, which is the one of the node or the decoded literal, stored
    into the node. *)
Lemma charset_eval_inv `{Runtime} eval pr set chars args st v args' st' :
  nodes st !! pr = Some (Pred_charset set chars) ->
  predicate_eval_body eval pr args st = Ok (v, args', st') ->
  let input := js_input_chars (js_arguments_shift args).1 in
  exists cache,
    charset_cache set chars = Some cache
    /\ charset_loop (length input) input cache = Some v
    /\ args' = (js_arguments_shift args).2
    /\ st' = if vector_unset chars then set_node pr (Pred_charset set cache) st else st.
Proof.
  intros Hnode. unfold predicate_eval_body. rewrite Hnode.
  destruct (js_arguments_shift args) as [arg rest]. simpl.
  unfold charset_cache, decoded. destruct (vector_unset chars).
  - destruct (utf8_to_unicode set vector_init) as [ [n cache] | ]; simpl;
      [ | discriminate ].
    destruct (charset_loop _ _ cache) as [ ret | ] eqn:Hloop; [ | discriminate ].
    intros [= <- <- <-]. eauto.
  - simpl. destruct (charset_loop _ _ chars) as [ ret | ] eqn:Hloop; [ | discriminate ].
    intros [= <- <- <-]. eauto.
Qed.

Lemma charset_eval_run `{Runtime} eval pr set chars cache args st v :
  nodes st !! pr = Some (Pred_charset set chars) ->
  charset_cache set chars = Some cache ->
  charset_loop (length (js_input_chars (js_arguments_shift args).1))
    (js_input_chars (js_arguments_shift args).1) cache = Some v ->
  predicate_eval_body eval pr args st
  = Ok (v, (js_arguments_shift args).2,
        if vector_unset chars then set_node pr (Pred_charset set cache) st else st).
Proof.
  intros Hnode Hcache Hloop. unfold predicate_eval_body. rewrite Hnode.
  destruct (js_arguments_shift args) as [arg rest]. simpl in *.
  unfold charset_cache, decoded in Hcache. destruct (vector_unset chars).
  - destruct (utf8_to_unicode set vector_init) as [ [n cache'] | ]; simpl in Hcache;
      [ | discriminate ].
    injection Hcache as ->. simpl. now rewrite Hloop.
  - injection Hcache as ->. simpl. now rewrite Hloop.
Qed.

(** ** Shift *)

(** C10.  A Shift node whose skip count exceeds the number of arguments
    left in the cursor returns the undefined marker; the cursor and the
    state are those it started from, so the wrapped operand was not
    evaluated, nothing was consumed and nothing was thrown. *)
Theorem shift_short_cursor_is_undefined `{Runtime} fuel pr n operand args st :
  nodes st !! pr = Some (Pred_shift n operand) ->
  args_c args < n ->
  predicate_eval (S fuel) pr args st = Ok (JS_UNDEFINED, args, st).
Proof.
  intros Hnode Hshort. rewrite predicate_eval_unfold.
  unfold predicate_eval_body. rewrite Hnode.
  destruct (n <=? args_c args) eqn:Hle; [ apply Z.leb_le in Hle; lia | reflexivity ].
Qed.

Lemma shift_short_cursor_is_undefined_witness :
  let st := Example.state_of [(0%nat, Pred_shift 2 (Example.pred 1));
                              (1%nat, Pred_regexp {| source := []; flags := 0 |} None)] in
  @predicate_eval Example.runtime 5 0%nat [JS_Int32 7] st
  = Ok (JS_UNDEFINED, [JS_Int32 7], st).
Proof.
  intros st.
  apply (@shift_short_cursor_is_undefined Example.runtime 4 0%nat 2 (Example.pred 1)).
  - reflexivity.
  - vm_compute. reflexivity.
Defined.

(** ** Property *)

(** C8.  A Property node consumes one argument.  When the argument is not
    an object the evaluation returns the exception marker after throwing a
    TypeError, and goes on no further; it is an ordinary result, which the
    caller may handle.  When it is an object the named property is read;
    the raw value is returned unless the post-filter is set and callable,
    in which case the value is the single argument of a call of the filter
    (a function is called with it, a predicate is evaluated on a fresh
    cursor holding it) and the result of that call is returned. *)
Theorem property_eval_cases `{Runtime} fuel pr atom filter obj rest st :
  nodes st !! pr = Some (Pred_property atom filter) ->
  let value := JS_GetProperty obj atom in
  let run := predicate_eval (S fuel) pr (obj :: rest) st in
  (JS_IsObject obj = false ->
     run = Ok (JS_EXCEPTION, rest, log (EvThrowTypeError obj) st))
  /\ (JS_IsObject obj = true ->
      (js_is_null_or_undefined filter = true \/ predicate_callable filter = false ->
         run = Ok (value, rest, st))
      /\ (JS_IsFunction filter = true ->
            run = Ok (JS_Call filter JS_UNDEFINED 1 [Some value], rest,
                      log (EvCall filter JS_UNDEFINED 1 [Some value]) st))
      /\ (forall p, js_predicate_data filter = Some p ->
            run = '(result, _, st') ← predicate_eval fuel p [value] st;
                  Ok (result, rest, st'))).
Proof.
  intros Hnode value run. subst run.
  rewrite predicate_eval_unfold. unfold predicate_eval_body. rewrite Hnode.
  simpl js_arguments_shift. cbv iota beta.
  split; [ intros ->; reflexivity | intros -> ].
  split; [ | split ].
  - intros [Hn | Hc].
    + rewrite Hn. reflexivity.
    + rewrite Hc, andb_false_r. reflexivity.
  - intros Hf. destruct filter as [ | | | | | | | [] q | ]; try discriminate Hf.
    reflexivity.
  - intros p Hp. destruct filter as [ | | | | | | | [] q | ]; try discriminate Hp.
    injection Hp as ->. subst value. simpl.
    unfold predicate_call_with, js_arguments_new. simpl.
    destruct (predicate_eval fuel p [JS_GetProperty obj atom] st)
      as [[[r a] s] | | | ]; reflexivity.
Qed.

Lemma property_eval_cases_witness :
  let st := Example.state_of [(0%nat, Pred_property 5 (Example.fn 9))] in
  @predicate_eval Example.runtime 1 0%nat [JS_Int32 3; JS_NULL] st
  = Ok (JS_EXCEPTION, [JS_NULL], log (EvThrowTypeError (JS_Int32 3)) st)
  /\ @predicate_eval Example.runtime 1 0%nat [Example.obj 4; JS_NULL] st
     = Ok (JS_Int32 1, [JS_NULL],
           log (EvCall (Example.fn 9) JS_UNDEFINED 1 [Some (JS_Int32 5)]) st).
Proof.
  intros st.
  pose proof (@property_eval_cases Example.runtime 0 0%nat 5 (Example.fn 9)
                (JS_Int32 3) [JS_NULL] st eq_refl) as [Hbad _].
  pose proof (@property_eval_cases Example.runtime 0 0%nat 5 (Example.fn 9)
                (Example.obj 4) [JS_NULL] st eq_refl) as [_ Hgood].
  split.
  - exact (Hbad eq_refl).
  - exact (proj1 (proj2 (Hgood eq_refl)) eq_refl).
Defined.

(** ** Function *)

(** The loop of a Function node takes one argument for every two of
    its arity. *)
Lemma function_argv_takes_half `{Runtime} nargs fuel : forall i argv args,
  let turns := (nargs - Z.of_nat i + 1) / 2 in
  Z.of_nat i <= nargs + 1 ->
  turns <= Z.of_nat fuel ->
  turns <= args_c args ->
  (function_argv fuel i nargs argv args).2 = drop (Z.to_nat turns) args.
Proof.
  induction fuel as [|fuel IH]; intros i argv args turns Hi Hfuel Hargs.
  - simpl. assert (Hz : Z.to_nat turns = 0%nat) by (clearbody turns; lia).
    rewrite Hz. reflexivity.
  - simpl. destruct (Z.of_nat i <? nargs) eqn:Hlt.
    + apply Z.ltb_lt in Hlt.
      assert (Hturns : turns = 1 + (nargs - Z.of_nat (S (S i)) + 1) / 2).
      { subst turns. replace (nargs - Z.of_nat i + 1)
          with ((nargs - Z.of_nat (S (S i)) + 1) + 1 * 2) by lia.
        rewrite Z.div_add by lia. lia. }
      assert (Hpos : 0 <= (nargs - Z.of_nat (S (S i)) + 1) / 2).
      { apply Z.div_pos; lia. }
      destruct args as [|x rest]; [ unfold args_c in Hargs; simpl in Hargs; lia | ].
      simpl js_arguments_shift. cbv iota beta.
      rewrite IH.
      * rewrite Hturns, Z2Nat.inj_add by lia. reflexivity.
      * lia.
      * lia.
      * unfold args_c in *. simpl length in Hargs. lia.
    + apply Z.ltb_ge in Hlt. simpl.
      replace turns with 0; [ reflexivity | ].
      subst turns. assert (nargs - Z.of_nat i + 1 = 0 \/ nargs - Z.of_nat i + 1 = 1)
        as [-> | ->] by lia; reflexivity.
Qed.

(** A Function node of arity [k] on a cursor that holds [k] arguments
    takes [(k + 1) / 2] of them, which is less than [k] from arity 2 on. *)
Lemma function_takes_half_of_arity `{Runtime} fuel pr func this_val arity args st :
  nodes st !! pr = Some (Pred_function func this_val arity) ->
  0 <= arity <= args_c args ->
  exists argv,
    predicate_eval (S fuel) pr args st
    = Ok (JS_Call func this_val arity argv,
          drop (Z.to_nat ((arity + 1) / 2)) args,
          log (EvCall func this_val arity argv) st)
    /\ (2 <= arity -> (arity + 1) / 2 < arity).
Proof.
  intros Hnode Harity. rewrite predicate_eval_unfold. unfold predicate_eval_body.
  rewrite Hnode.
  pose proof (function_argv_takes_half arity (Z.to_nat arity) 0%nat
                (replicate (Z.to_nat arity) None) args) as Hhalf.
  simpl in Hhalf. rewrite Z.sub_0_r in Hhalf.
  assert (Hle : (arity + 1) / 2 <= arity).
  { destruct (Z.eq_dec arity 0) as [->|Hnz]; [ discriminate | ].
    apply Z.div_le_upper_bound; lia. }
  specialize (Hhalf ltac:(lia) ltac:(lia) ltac:(lia)).
  destruct (function_argv (Z.to_nat arity) 0 arity (replicate (Z.to_nat arity) None) args)
    as [argv args'].
  simpl in Hhalf. subst args'. exists argv. split; [ reflexivity | ].
  intros Hk. apply Z.div_lt_upper_bound; lia.
Qed.

(** C2, at the failing input.  A Function node of arity 2 on a cursor
    [a; b; ...] takes only [a] from the cursor: the loop that fills the
    argument array advances its index twice per turn.  The callable is
    entered with two arguments, the second of which was never written,
    and [b] is left in the cursor. *)
Theorem function_arity_two_takes_one_argument `{Runtime} fuel pr func this_val a b rest st :
  nodes st !! pr = Some (Pred_function func this_val 2) ->
  predicate_eval (S fuel) pr (a :: b :: rest) st
  = Ok (JS_Call func this_val 2 [Some a; None], b :: rest,
        log (EvCall func this_val 2 [Some a; None]) st).
Proof.
  intros Hnode. rewrite predicate_eval_unfold. unfold predicate_eval_body.
  rewrite Hnode. reflexivity.
Qed.

Lemma function_arity_two_takes_one_argument_witness :
  let st := Example.state_of [(0%nat, Pred_function (Example.fn 1) JS_UNDEFINED 2)] in
  @predicate_eval Example.runtime 1 0%nat [JS_Int32 10; JS_Int32 20] st
  = Ok (JS_Int32 2, [JS_Int32 20],
        log (EvCall (Example.fn 1) JS_UNDEFINED 2 [Some (JS_Int32 10); None]) st).
Proof.
  intros st.
  exact (@function_arity_two_takes_one_argument Example.runtime 0 0%nat
           (Example.fn 1) JS_UNDEFINED (JS_Int32 10) (JS_Int32 20) [] st eq_refl).
Defined.

(** ** Regex *)

(** C1, at the failing inputs.  When the pattern of an uncompiled Regex
    node does not compile, the evaluation still runs the regex engine, on
    the unset compiled form, and returns the boolean made of what the
    engine answered: no failure is raised and the node stays uncompiled. *)
Theorem regexp_compile_failure_runs_engine `{Runtime} fuel pr expr re rest st :
  nodes st !! pr = Some (Pred_regexp expr None) ->
  regexp_compile expr = None ->
  exists args' st',
    predicate_eval (S fuel) pr (re :: rest) st
    = Ok (JS_NewBool (lre_exec None (js_input_chars re)).1, args', st')
    /\ EvExec None (js_input_chars re) ∈ trace st'
    /\ (forall target, EvThrowTypeError target ∈ trace st' ->
                       EvThrowTypeError target ∈ trace st)
    /\ nodes st' !! pr = Some (Pred_regexp expr None).
Proof.
  intros Hnode Hfail. rewrite predicate_eval_unfold. unfold predicate_eval_body.
  rewrite Hnode. simpl js_arguments_shift. cbv iota beta.
  unfold predicate_regexp_compile. rewrite Hnode, Hfail. simpl.
  rewrite lookup_insert_eq.
  destruct (lre_exec None (js_input_chars re)) as [result capture] eqn:Hexec.
  set (st1 := log (EvExec None (js_input_chars re)) _).
  assert (Hin : EvExec None (js_input_chars re) ∈ trace st1).
  { subst st1. simpl. set_solver. }
  assert (Hnodes : nodes st1 !! pr = Some (Pred_regexp expr None)).
  { subst st1. simpl. apply lookup_insert_eq. }
  assert (Hthrow : forall target, EvThrowTypeError target ∈ trace st1 ->
                                  EvThrowTypeError target ∈ trace st).
  { subst st1. simpl. intros target Ht.
    rewrite !elem_of_app, !list_elem_of_singleton in Ht.
    destruct Ht as [[Ht | Ht] | Ht]; [ exact Ht | discriminate | discriminate ]. }
  clearbody st1.
  destruct (regexp_export re capture 0 result rest st1) as [args' st'] eqn:Hexp.
  exists args', st'. split; [ reflexivity | ].
  unfold regexp_export in Hexp.
  destruct (negb (result =? 0) && (1 <? args_c rest)).
  2:{ injection Hexp as <- <-. auto. }
  destruct (js_arguments_shift rest) as [arg rest'].
  destruct (JS_IsFunction arg).
  { injection Hexp as <- <-. simpl. repeat split.
    - set_solver.
    - intros target Ht. apply Hthrow.
      rewrite elem_of_app, list_elem_of_singleton in Ht.
      destruct Ht as [Ht | Ht]; [ exact Ht | discriminate ].
    - exact Hnodes. }
  destruct (JS_IsArray arg).
  2:{ injection Hexp as <- <-. auto. }
  injection Hexp as <- <-. simpl. repeat split.
  - set_solver.
  - intros target Ht. apply Hthrow.
    rewrite elem_of_app, list_elem_of_singleton in Ht.
    destruct Ht as [Ht | Ht]; [ exact Ht | discriminate ].
  - exact Hnodes.
Qed.

Lemma regexp_compile_failure_runs_engine_witness :
  let st := Example.state_of
              [(0%nat, Pred_regexp {| source := Example.bytes "("; flags := 0 |} None)] in
  let input := JS_String (Example.bytes "x") in
  exists args' st',
    @predicate_eval Example.runtime 1 0%nat [input] st
    = Ok (JS_Bool false, args', st')
    /\ EvExec None (Example.bytes "x") ∈ trace st'
    /\ (forall target, EvThrowTypeError target ∈ trace st' ->
                       EvThrowTypeError target ∈ trace st)
    /\ nodes st' !! 0%nat
       = Some (Pred_regexp {| source := Example.bytes "("; flags := 0 |} None).
Proof.
  intros st input.
  exact (@regexp_compile_failure_runs_engine Example.runtime 0 0%nat
           {| source := Example.bytes "("; flags := 0 |} input [] st eq_refl eq_refl).
Defined.

(** The same run, computed: the pattern is compiled, in vain, and the
    engine is then entered with no compiled form. *)
Example regexp_compile_failure_run :
  let expr := {| source := Example.bytes "("; flags := 0 |} in
  let st := Example.state_of [(0%nat, Pred_regexp expr None)] in
  (fun r => match r with
            | Ok (v, args, st') => Some (v, args, trace st')
            | _ => None
            end)
    (@predicate_eval Example.runtime 1 0%nat [JS_String (Example.bytes "x")] st)
  = Some (JS_Bool false, [], [EvCompile expr; EvExec None (Example.bytes "x")]).
Proof. reflexivity. Qed.

(** ** What an evaluation may change

    An evaluation appends to the trace and fills lazy caches that were
    unset; it does nothing else to the state.  The statement is generic in
    the relation [P] between the state before and the state after. *)
Section Invariant.
Context `{Runtime}.
Variable P : State -> State -> Prop.
Hypothesis P_refl : forall s, P s s.
Hypothesis P_trans : forall s1 s2 s3, P s1 s2 -> P s2 s3 -> P s1 s3.
Hypothesis P_log : forall e s, P s (log e s).
Hypothesis P_charset : forall pr set chars s,
  nodes s !! pr = Some (Pred_charset set None) ->
  decoded set = Some chars ->
  P s (set_node pr (Pred_charset set chars) s).
Hypothesis P_regexp : forall pr expr s,
  nodes s !! pr = Some (Pred_regexp expr None) ->
  P s (set_node pr (Pred_regexp expr (regexp_compile expr)) s).

Lemma predicate_regexp_compile_P pr st n st' :
  predicate_regexp_compile pr st = Ok (n, st') -> P st st'.
Proof.
  unfold predicate_regexp_compile.
  destruct (nodes st !! pr) as [[]|] eqn:Hnode; try discriminate.
  destruct bytecode; try discriminate.
  intros Hok.
  assert (st' = set_node pr (Pred_regexp expr (regexp_compile expr))
                  (log (EvCompile expr) st)) as ->.
  { destruct (regexp_compile expr); injection Hok as _ <-; reflexivity. }
  eapply P_trans; [ apply P_log | apply P_regexp; exact Hnode ].
Qed.

Lemma capture_sink_P arg capture groups : forall i st,
  P st (capture_sink arg capture i groups st).
Proof.
  induction groups as [|groups IH]; intros i st; simpl; [ apply P_refl | ].
  eapply P_trans; [ apply P_log | apply IH ].
Qed.

Lemma regexp_export_P re capture capture_count result args st :
  P st (regexp_export re capture capture_count result args st).2.
Proof.
  unfold regexp_export.
  destruct (negb (result =? 0) && (1 <? args_c args)); [ | apply P_refl ].
  destruct (js_arguments_shift args) as [arg args'].
  destruct (JS_IsFunction arg); [ apply P_log | ].
  destruct (JS_IsArray arg); [ | apply P_refl ].
  simpl. eapply P_trans; [ apply P_log | apply capture_sink_P ].
Qed.

Section Body.
Variable eval : addr -> JSArguments -> State -> Result.
Hypothesis eval_P : forall pr args st v args' st',
  eval pr args st = Ok (v, args', st') -> P st st'.

Lemma predicate_call_with_P value argv st v st' :
  predicate_call_with eval value argv st = Ok (v, st') -> P st st'.
Proof.
  unfold predicate_call_with.
  destruct (js_predicate_data value) as [pr|].
  - destruct (eval pr (js_arguments_new argv) st) as [[[r a] s]| | |] eqn:E;
      try discriminate.
    simpl. intros [= _ <-]. eapply eval_P, E.
  - destruct (JS_IsFunction value); intros [= _ <-];
      [ apply P_log | apply P_refl ].
Qed.

Lemma predicate_value_with_P value args st v args' st' :
  predicate_value_with eval value args st = Ok (v, args', st') -> P st st'.
Proof.
  unfold predicate_value_with.
  destruct (js_predicate_data value) as [pr|]; [ apply eval_P | ].
  destruct (JS_IsFunction value); [ | intros [= _ _ <-]; apply P_refl ].
  destruct (predicate_call_with eval value args st) as [[r s]| | |] eqn:E;
    try discriminate.
  simpl. intros [= _ _ <-]. eapply predicate_call_with_P, E.
Qed.

Lemma binary_operand_P value args st v args' st' :
  binary_operand eval value args st = Ok (v, args', st') -> P st st'.
Proof.
  unfold binary_operand.
  destruct (if js_is_null_or_undefined value then _ else _) as [value' args0].
  apply predicate_value_with_P.
Qed.

Lemma or_loop_P predicates : forall ret args st v args' st',
  or_loop eval predicates ret args st = Ok (v, args', st') -> P st st'.
Proof.
  induction predicates as [|p rest IH]; intros ret args st v args' st'; simpl.
  - intros [= _ _ <-]. apply P_refl.
  - destruct (predicate_value_with eval p args st) as [[[r a] s]| | |] eqn:E;
      try discriminate.
    simpl. apply predicate_value_with_P in E.
    destruct (negb (JS_ToBool r =? 0)).
    + intros [= _ _ <-]. exact E.
    + intros Hrest. eapply P_trans; [ exact E | eapply IH, Hrest ].
Qed.

Lemma and_loop_P predicates : forall ret args st v args' st',
  and_loop eval predicates ret args st = Ok (v, args', st') -> P st st'.
Proof.
  induction predicates as [|p rest IH]; intros ret args st v args' st'; simpl.
  - intros [= _ _ <-]. apply P_refl.
  - destruct (predicate_value_with eval p args st) as [[[r a] s]| | |] eqn:E;
      try discriminate.
    simpl. apply predicate_value_with_P in E.
    destruct (negb (c_not (JS_ToBool r) =? 0)).
    + intros [= _ _ <-]. exact E.
    + intros Hrest. eapply P_trans; [ exact E | eapply IH, Hrest ].
Qed.

Lemma xor_loop_P predicates : forall r args st r' args' st',
  xor_loop eval predicates r args st = Ok (r', args', st') -> P st st'.
Proof.
  induction predicates as [|p rest IH]; intros r args st r' args' st'; simpl.
  - intros [= _ _ <-]. apply P_refl.
  - destruct (predicate_value_with eval p args st) as [[[v a] s]| | |] eqn:E;
      try discriminate.
    simpl. apply predicate_value_with_P in E.
    intros Hrest. eapply P_trans; [ exact E | eapply IH, Hrest ].
Qed.

Lemma predicate_eval_body_P pr args st v args' st' :
  predicate_eval_body eval pr args st = Ok (v, args', st') -> P st st'.
Proof.
  unfold predicate_eval_body.
  destruct (nodes st !! pr) as [node|] eqn:Hnode; [ | discriminate ].
  destruct node as [type_flags | set chars | str | id operand | id lhs rhs
                   | id preds | expr bc | atom filter | object | n operand
                   | func this_val arity].
  - destruct (js_arguments_shift args). intros [= _ _ <-]. apply P_refl.
  - intros Hrun.
    assert (Hbody : predicate_eval_body eval pr args st = Ok (v, args', st'))
      by (unfold predicate_eval_body; rewrite Hnode; exact Hrun).
    destruct (charset_eval_inv _ _ _ _ _ _ _ _ _ Hnode Hbody)
      as (cache & Hcache & _ & _ & ->).
    destruct chars as [elems|]; simpl in *.
    + apply P_refl.
    + now apply P_charset.
  - destruct (js_arguments_shift args).
    destruct (_ && _); intros [= _ _ <-]; apply P_refl.
  - destruct id;
      try (destruct (predicate_value_with eval operand args st)
             as [[[r a] s]| | |] eqn:E; try discriminate;
           simpl; intros [= _ _ <-]; eapply predicate_value_with_P, E);
      destruct (js_arguments_shift args); intros [= _ _ <-]; apply P_refl.
  - destruct (binary_operand eval lhs args st) as [[[v0 a0] s0]| | |] eqn:E0;
      try discriminate. simpl.
    destruct (binary_operand eval rhs a0 s0) as [[[v1 a1] s1]| | |] eqn:E1;
      try discriminate. simpl.
    intros [= _ _ <-].
    eapply P_trans; eapply binary_operand_P; eassumption.
  - destruct id.
    + apply or_loop_P.
    + apply and_loop_P.
    + destruct (xor_loop eval preds 0 args st) as [[[r a] s]| | |] eqn:E;
        try discriminate.
      simpl. intros [= _ _ <-]. eapply xor_loop_P, E.
  - destruct (js_arguments_shift args) as [re args0].
    set (compiled := match bc with
                     | Some _ => Ok (0, st)
                     | None => predicate_regexp_compile pr st
                     end).
    assert (Hc : forall n s, compiled = Ok (n, s) -> P st s).
    { subst compiled. destruct bc.
      - intros n s [= _ <-]. apply P_refl.
      - intros n s. apply predicate_regexp_compile_P. }
    destruct compiled as [[n s]| | |]; try discriminate. simpl.
    specialize (Hc n s eq_refl).
    destruct (lre_exec _ _) as [result capture].
    pose proof (regexp_export_P re capture n result args0
                  (log (EvExec match nodes s !! pr with
                               | Some (Pred_regexp _ bc0) => bc0
                               | _ => None
                               end (js_input_chars re)) s)) as He.
    destruct (regexp_export _ _ _ _ _ _) as [a1 s1]. simpl in He.
    intros [= _ _ <-].
    eapply P_trans; [ exact Hc | ]. eapply P_trans; [ apply P_log | exact He ].
  - destruct (js_arguments_shift args) as [obj args0].
    destruct (JS_IsObject obj); [ | intros [= _ _ <-]; apply P_log ].
    destruct (_ && _); [ | intros [= _ _ <-]; apply P_refl ].
    destruct (predicate_call_with eval filter _ st) as [[r s]| | |] eqn:E;
      try discriminate.
    simpl. intros [= _ _ <-]. eapply predicate_call_with_P, E.
  - destruct (js_arguments_shift args).
    destruct (negb _); intros [= _ _ <-]; apply P_refl.
  - destruct (n <=? args_c args).
    + apply predicate_value_with_P.
    + intros [= _ _ <-]. apply P_refl.
  - destruct (function_argv _ _ _ _ _) as [argv args0]. simpl.
    intros [= _ _ <-]. apply P_log.
Qed.
End Body.

Theorem predicate_eval_P fuel : forall pr args st v args' st',
  predicate_eval fuel pr args st = Ok (v, args', st') -> P st st'.
Proof.
  induction fuel as [|fuel IH]; intros pr args st v args' st'; [ discriminate | ].
  rewrite predicate_eval_unfold. apply predicate_eval_body_P. exact IH.
Qed.
End Invariant.

(** ** Lazy caches *)

Section Fills.
Context `{Runtime}.

Lemma node_fills_trans n1 n2 n3 :
  node_fills n1 n2 -> node_fills n2 n3 -> node_fills n1 n3.
Proof.
  intros H12 H23. inversion H23; subst; [ exact H12 | | ].
  - inversion H12; subst; now apply fills_charset.
  - inversion H12; subst; first [ apply fills_regexp | apply fills_same ].
Qed.

Lemma state_fills_refl s : state_fills s s.
Proof.
  split; [ | split ]; [ | reflexivity | reflexivity ].
  intros q. destruct (nodes s !! q); constructor. constructor.
Qed.

Lemma state_fills_trans s1 s2 s3 :
  state_fills s1 s2 -> state_fills s2 s3 -> state_fills s1 s3.
Proof.
  intros (Hn12 & Hr12 & Ht12) (Hn23 & Hr23 & Ht23). split; [ | split ].
  - intros q. specialize (Hn12 q). specialize (Hn23 q).
    destruct Hn12 as [n1 n2 H12|]; inversion Hn23; subst; constructor.
    eapply node_fills_trans; eassumption.
  - congruence.
  - etransitivity; eassumption.
Qed.

Lemma state_fills_log e s : state_fills s (log e s).
Proof.
  split; [ | split ]; simpl; [ | reflexivity | apply prefix_app_r; reflexivity ].
  intros q. destruct (nodes s !! q); constructor. constructor.
Qed.

Lemma state_fills_set_node pr node node' s :
  nodes s !! pr = Some node -> node_fills node node' ->
  state_fills s (set_node pr node' s).
Proof.
  intros Hnode Hfill. split; [ | split ]; simpl; [ | reflexivity | reflexivity ].
  intros q. destruct (decide (pr = q)) as [<-|Hne].
  - rewrite lookup_insert_eq, Hnode. constructor. exact Hfill.
  - rewrite lookup_insert_ne by exact Hne.
    destruct (nodes s !! q); constructor. constructor.
Qed.

(** Every evaluation only fills caches and appends to the trace. *)
Lemma predicate_eval_fills fuel pr args st v args' st' :
  predicate_eval fuel pr args st = Ok (v, args', st') -> state_fills st st'.
Proof.
  apply (predicate_eval_P state_fills).
  - apply state_fills_refl.
  - apply state_fills_trans.
  - apply state_fills_log.
  - intros p set chars s Hnode Hdecoded.
    eapply state_fills_set_node; [ exact Hnode | now constructor ].
  - intros p expr s Hnode. eapply state_fills_set_node; [ exact Hnode | constructor ].
Qed.

(** A compiled form, once stored, is the compiled form of the node in
    every later state. *)
Lemma compiled_form_kept s s' q expr bc :
  state_fills s s' ->
  nodes s !! q = Some (Pred_regexp expr (Some bc)) ->
  nodes s' !! q = Some (Pred_regexp expr (Some bc)).
Proof.
  intros (Hn & _) Hq. specialize (Hn q). rewrite Hq in Hn.
  inversion Hn as [n n' Hfill Hn1 Hn2|]; subst. inversion Hfill; subst. reflexivity.
Qed.

Lemma decoded_charset_kept s s' q set elems :
  state_fills s s' ->
  nodes s !! q = Some (Pred_charset set (Some elems)) ->
  nodes s' !! q = Some (Pred_charset set (Some elems)).
Proof.
  intros (Hn & _) Hq. specialize (Hn q). rewrite Hq in Hn.
  inversion Hn as [n n' Hfill Hn1 Hn2|]; subst. inversion Hfill; subst. reflexivity.
Qed.
End Fills.

Lemma compilations_log e st :
  compilations (log e st)
  = compilations st ++ match e with EvCompile expr => [expr] | _ => [] end.
Proof.
  unfold compilations. simpl. rewrite omap_app. f_equal. destruct e; reflexivity.
Qed.

Lemma compilations_set_node pr node st :
  compilations (set_node pr node st) = compilations st.
Proof. reflexivity. Qed.

Section RegexCache.
Context `{Runtime}.

Lemma capture_sink_compilations arg capture groups : forall i st,
  compilations (capture_sink arg capture i groups st) = compilations st.
Proof.
  induction groups as [|groups IH]; intros i st; simpl; [ reflexivity | ].
  rewrite IH, compilations_log. apply app_nil_r.
Qed.

Lemma capture_sink_nodes arg capture groups : forall i st,
  nodes (capture_sink arg capture i groups st) = nodes st.
Proof.
  induction groups as [|groups IH]; intros i st; simpl; [ reflexivity | ].
  rewrite IH. reflexivity.
Qed.

Lemma regexp_export_compilations re capture capture_count result args st :
  compilations (regexp_export re capture capture_count result args st).2
  = compilations st.
Proof.
  unfold regexp_export.
  destruct (negb (result =? 0) && (1 <? args_c args)); [ | reflexivity ].
  destruct (js_arguments_shift args) as [arg args'].
  destruct (JS_IsFunction arg).
  { simpl. rewrite compilations_log. apply app_nil_r. }
  destruct (JS_IsArray arg); [ | reflexivity ].
  simpl. rewrite capture_sink_compilations, compilations_log. apply app_nil_r.
Qed.

Lemma regexp_export_nodes re capture capture_count result args st :
  nodes (regexp_export re capture capture_count result args st).2 = nodes st.
Proof.
  unfold regexp_export.
  destruct (negb (result =? 0) && (1 <? args_c args)); [ | reflexivity ].
  destruct (js_arguments_shift args) as [arg args'].
  destruct (JS_IsFunction arg); [ reflexivity | ].
  destruct (JS_IsArray arg); [ | reflexivity ].
  simpl. rewrite capture_sink_nodes. reflexivity.
Qed.

(** C5, as the code has it.  [predicate_regexp_compile] is guarded by an
    assertion, not idempotent: on an uncompiled node it compiles the
    pattern, stores what the compiler returned and answers the capture
    count (0 when the pattern does not compile); on a compiled node the
    assertion fails.  The evaluator calls it only while the cache is
    null: evaluating a compiled node runs the stored form and compiles
    nothing, and no evaluation, of any tree, replaces a stored form. *)
Theorem regexp_compile_guarded pr expr bytecode st :
  nodes st !! pr = Some (Pred_regexp expr bytecode) ->
  let stored := match bytecode with
                | Some bc => Some bc
                | None => regexp_compile expr
                end in
  predicate_regexp_compile pr st
  = match bytecode with
    | Some _ => AssertFail
    | None => Ok (from_option lre_get_capture_count 0 (regexp_compile expr),
                  set_node pr (Pred_regexp expr (regexp_compile expr))
                    (log (EvCompile expr) st))
    end
  /\ (forall fuel re rest, exists args' st',
        predicate_eval (S fuel) pr (re :: rest) st
        = Ok (JS_NewBool (lre_exec stored (js_input_chars re)).1, args', st')
        /\ nodes st' !! pr = Some (Pred_regexp expr stored)
        /\ compilations st'
           = compilations st ++ match bytecode with Some _ => [] | None => [expr] end)
  /\ (forall bc fuel root args v args' st',
        bytecode = Some bc ->
        predicate_eval fuel root args st = Ok (v, args', st') ->
        nodes st' !! pr = Some (Pred_regexp expr (Some bc))).
Proof.
  intros Hnode stored. split; [ | split ].
  - unfold predicate_regexp_compile. rewrite Hnode.
    destruct bytecode; [ reflexivity | ].
    destruct (regexp_compile expr); reflexivity.
  - intros fuel re rest.
    rewrite predicate_eval_unfold. unfold predicate_eval_body. rewrite Hnode.
    simpl js_arguments_shift. cbv iota beta.
    assert (Hc : exists n st1,
               match bytecode with
               | Some _ => Ok (0, st)
               | None => predicate_regexp_compile pr st
               end = Ok (n, st1)
               /\ nodes st1 !! pr = Some (Pred_regexp expr stored)
               /\ compilations st1
                  = compilations st
                    ++ match bytecode with Some _ => [] | None => [expr] end).
    { subst stored. destruct bytecode as [bc|].
      - exists 0, st. rewrite app_nil_r. auto.
      - unfold predicate_regexp_compile. rewrite Hnode.
        exists (from_option lre_get_capture_count 0 (regexp_compile expr)),
               (set_node pr (Pred_regexp expr (regexp_compile expr))
                  (log (EvCompile expr) st)).
        split; [ destruct (regexp_compile expr); reflexivity | ].
        split; [ apply lookup_insert_eq | ].
        rewrite compilations_set_node, compilations_log. reflexivity. }
    destruct Hc as (n & st1 & -> & Hstored & Hcomp). simpl.
    rewrite Hstored.
    destruct (lre_exec stored (js_input_chars re)) as [result capture].
    set (st2 := log (EvExec stored (js_input_chars re)) st1).
    pose proof (regexp_export_compilations re capture n result rest st2) as Hec.
    pose proof (regexp_export_nodes re capture n result rest st2) as Hen.
    destruct (regexp_export re capture n result rest st2) as [args' st'].
    simpl in Hec, Hen. exists args', st'. split; [ reflexivity | ].
    split.
    + rewrite Hen. exact Hstored.
    + rewrite Hec. subst st2. rewrite compilations_log, app_nil_r. exact Hcomp.
  - intros bc fuel root args v args' st' -> Heval.
    eapply compiled_form_kept; [ eapply predicate_eval_fills, Heval | exact Hnode ].
Qed.
End RegexCache.

Lemma regexp_compile_guarded_witness :
  let expr := {| source := Example.bytes "ab"; flags := 0 |} in
  let st := Example.state_of [(0%nat, Pred_regexp expr (Some (Example.bytes "ab")))] in
  @predicate_regexp_compile Example.runtime 0%nat st = AssertFail.
Proof.
  intros expr st.
  exact (proj1 (@regexp_compile_guarded Example.runtime 0%nat expr
                  (Some (Example.bytes "ab")) st eq_refl)).
Defined.

(** C5 as stated fails: a second call of [predicate_regexp_compile], after
    a first one that compiled the pattern, does not succeed. *)
Lemma regexp_compile_second_call_aborts :
  let expr := {| source := Example.bytes "ab"; flags := 0 |} in
  let st := Example.state_of [(0%nat, Pred_regexp expr None)] in
  exists st1,
    @predicate_regexp_compile Example.runtime 0%nat st = Ok (1, st1)
    /\ @predicate_regexp_compile Example.runtime 0%nat st1 = AssertFail.
Proof. eexists. split; reflexivity. Qed.

(** ** Charset *)

Lemma find_index_absent l x : forall i, 0 <= i -> find_index l x i = -1 <-> x ∉ l.
Proof.
  induction l as [|y l IH]; intros i Hi; simpl.
  - split; [ intros _; apply not_elem_of_nil | reflexivity ].
  - rewrite not_elem_of_cons. destruct (y =? x) eqn:E.
    + apply Z.eqb_eq in E. subst y. split; [ lia | intros [Hne _]; congruence ].
    + apply Z.eqb_neq in E. rewrite (IH (i + 1)) by lia.
      split; [ intros Hl; split; [ congruence | exact Hl ] | intros [_ Hl]; exact Hl ].
Qed.

Lemma vector_find_absent chars x : (vector_find chars x =? -1) = negb (vector_mem chars x).
Proof.
  unfold vector_find, vector_mem.
  destruct (find_index_absent (vector_elems chars) x 0 ltac:(lia)) as [H1 H2].
  destruct (find_index (vector_elems chars) x 0 =? -1) eqn:E.
  - apply Z.eqb_eq in E. rewrite bool_decide_eq_false_2; [ reflexivity | auto ].
  - apply Z.eqb_neq in E. rewrite bool_decide_eq_true_2; [ reflexivity | ].
    destruct (decide (x ∈ vector_elems chars)); [ assumption | tauto ].
Qed.

Lemma set_node_same pr node st : nodes st !! pr = Some node -> set_node pr node st = st.
Proof.
  intros Hnode. destruct st as [n r t]. unfold set_node. simpl in *.
  f_equal. apply insert_id, Hnode.
Qed.

Section Charset.
Context `{Runtime}.

Lemma utf8_loop_elems fuel : forall p out,
  match utf8_loop fuel p vector_init with
  | Some v => exists v', utf8_loop fuel p out = Some v'
                         /\ vector_elems v' = vector_elems out ++ vector_elems v
  | None => utf8_loop fuel p out = None
  end.
Proof.
  assert (Hnil : forall out : Vector,
            exists v', Some out = Some v'
                       /\ vector_elems v' = vector_elems out ++ vector_elems vector_init).
  { intros out. exists out. split; [ reflexivity | ]. simpl. now rewrite app_nil_r. }
  induction fuel as [|fuel IH]; intros p out; destruct p as [|b p]; simpl;
    try apply Hnil; try reflexivity.
  destruct (unicode_from_utf8 (b :: p)) as [codepoint next].
  pose proof (IH next (vector_put out (uint32_wrap codepoint))) as Hout.
  pose proof (IH next (vector_put vector_init (uint32_wrap codepoint))) as Hinit.
  destruct (utf8_loop fuel next vector_init) as [v|].
  - destruct Hout as (v1 & -> & Hv1). destruct Hinit as (v2 & -> & Hv2).
    exists v1. split; [ reflexivity | ]. rewrite Hv1, Hv2.
    unfold vector_put, vector_init. simpl.
    destruct out as [elems|]; simpl; [ rewrite <- app_assoc | ]; reflexivity.
  - rewrite Hinit. exact Hout.
Qed.

(** On a decoder that advances the decoding loop leaves, within as many
    turns as there are bytes. *)
Lemma utf8_loop_advances :
  decoder_advances ->
  forall fuel p out, (length p <= fuel)%nat -> is_Some (utf8_loop fuel p out).
Proof.
  intros Hadv fuel. induction fuel as [|fuel IH]; intros p out Hle;
    destruct p as [|b p]; simpl; try (eexists; reflexivity).
  - simpl in Hle. lia.
  - specialize (Hadv b p). destruct (unicode_from_utf8 (b :: p)) as [codepoint next].
    simpl in Hadv, Hle. apply IH. lia.
Qed.

Lemma decoded_advances text : decoder_advances -> is_Some (decoded text).
Proof.
  intros Hadv. unfold decoded, utf8_to_unicode.
  destruct (utf8_loop_advances Hadv (length text) text vector_init (le_n _)) as [v ->].
  eexists. reflexivity.
Qed.

(** The scan of the argument stops at the first code point that is not
    in the set; when the argument decodes, it answers 1 exactly when all
    of its code points are in the set. *)
Lemma charset_loop_forallb chars fuel : forall input text,
  utf8_loop fuel input vector_init = Some text ->
  charset_loop fuel input chars
  = Some (JS_NewInt32 (if forallb (vector_mem chars) (vector_elems text) then 1 else 0)).
Proof.
  induction fuel as [|fuel IH]; intros input text; destruct input as [|b p]; simpl;
    try discriminate; try (intros [= <-]; reflexivity).
  unfold input_buffer_getc.
  destruct (unicode_from_utf8 (b :: p)) as [codepoint next].
  intros Htext.
  pose proof (utf8_loop_elems fuel next (vector_put vector_init (uint32_wrap codepoint)))
    as Helems.
  destruct (utf8_loop fuel next vector_init) as [tail|] eqn:Htail;
    [ | congruence ].
  destruct Helems as (v' & Hv' & Helems). rewrite Htext in Hv'. injection Hv' as <-.
  rewrite Helems. simpl. rewrite vector_find_absent.
  destruct (vector_mem chars (uint32_wrap codepoint)); simpl;
    [ now apply IH | reflexivity ].
Qed.

Lemma charset_loop_decoded chars input text :
  decoded input = Some text ->
  charset_loop (length input) input chars
  = Some (JS_NewInt32 (if forallb (vector_mem chars) (vector_elems text) then 1 else 0)).
Proof.
  unfold decoded, utf8_to_unicode. intros Htext. apply charset_loop_forallb.
  destruct (utf8_loop (length input) input vector_init) as [v|]; [ | discriminate ].
  simpl in Htext. congruence.
Qed.

End Charset.


(** On a decoder that does not move past some byte, the loops do not
    leave: neither the decoding of a literal that holds the byte, nor
    the test of an argument that holds it against a cache that holds
    the code point read there, reaches an answer. *)
Example charset_eval_stalls :
  let st := Example.state_of
              [(0%nat, Pred_charset [x61; xff] None);
               (1%nat, Pred_charset [x61; xff] (Some [97; 2 ^ 32 - 1]));
               (2%nat, Pred_charset (Example.bytes "a") None)] in
  (forall fuel, @predicate_eval Example.stalling (S fuel) 0%nat
                  [JS_String (Example.bytes "a")] st
                = OutOfFuel)
  /\ (forall fuel, @predicate_eval Example.stalling (S fuel) 1%nat
                     [JS_String [x61; xff]] st
                   = OutOfFuel)
  /\ @predicate_eval Example.stalling 1 1%nat [JS_String (Example.bytes "a")] st
     = Ok (JS_Int32 1, [], st)
  /\ @predicate_eval Example.stalling 1 2%nat [JS_String [x61; xff]] st
     = Ok (JS_Int32 0, [],
           set_node 2%nat (Pred_charset (Example.bytes "a") (Some [97])) st).
Proof.
  split; [ | split; [ | split ] ]; try intros fuel; rewrite predicate_eval_unfold;
    reflexivity.
Qed.

(** ** Boolean combinators *)

Section Boolean.
Context `{Runtime}.

Lemma last_cons_default (v d : JSValue) vs :
  default d (last (v :: vs)) = default v (last vs).
Proof. destruct vs as [|w vs]; [ reflexivity | ]. rewrite last_cons_cons. 
  revert w. induction vs as [|u vs IH]; intros w; [ reflexivity | ].
  rewrite !last_cons_cons. apply IH.
Qed.

Section Loops.
Variable eval : addr -> JSArguments -> State -> Result.

Lemma or_loop_skips pre : forall rest ret args st vs args1 st1,
  eval_operands eval pre args st = Ok (vs, args1, st1) ->
  Forall (fun w => ~ truthy w) vs ->
  or_loop eval (pre ++ rest) ret args st
  = or_loop eval rest (default ret (last vs)) args1 st1.
Proof.
  induction pre as [|p pre IH]; intros rest ret args st vs args1 st1; simpl.
  - intros [= <- <- <-] _. reflexivity.
  - destruct (predicate_value_with eval p args st) as [[[v a] s]| | |];
      try discriminate. simpl.
    destruct (eval_operands eval pre a s) as [[[ws a'] s']| | |] eqn:E;
      try discriminate. simpl.
    intros [= <- <- <-] Hall. inversion Hall as [|? ? Hv Hws]; subst.
    unfold truthy in Hv.
    destruct (JS_ToBool v =? 0) eqn:Hz;
      [ | apply Z.eqb_neq in Hz; contradiction ].
    simpl. rewrite (IH rest v a s ws a' s' E Hws), last_cons_default. reflexivity.
Qed.

Lemma and_loop_skips pre : forall rest ret args st vs args1 st1,
  eval_operands eval pre args st = Ok (vs, args1, st1) ->
  Forall (fun w => ~ falsy w) vs ->
  and_loop eval (pre ++ rest) ret args st
  = and_loop eval rest (default ret (last vs)) args1 st1.
Proof.
  induction pre as [|p pre IH]; intros rest ret args st vs args1 st1; simpl.
  - intros [= <- <- <-] _. reflexivity.
  - destruct (predicate_value_with eval p args st) as [[[v a] s]| | |];
      try discriminate. simpl.
    destruct (eval_operands eval pre a s) as [[[ws a'] s']| | |] eqn:E;
      try discriminate. simpl.
    intros [= <- <- <-] Hall. inversion Hall as [|? ? Hv Hws]; subst.
    unfold falsy in Hv. unfold c_not.
    destruct (JS_ToBool v =? 0) eqn:Hz;
      [ apply Z.eqb_eq in Hz; contradiction | ].
    simpl. rewrite (IH rest v a s ws a' s' E Hws), last_cons_default. reflexivity.
Qed.
End Loops.

(** C4.  An Or node resolves its operands from left to right and returns
    the first result that is truthy, with the cursor and the state as that
    operand left them: the operands after it, whatever they are, are not
    evaluated.  When no result is truthy every operand was evaluated and
    the last result is returned (the undefined marker for an empty list).
    An And node does the same with falsy for truthy. *)
Theorem boolean_short_circuit fuel pr id operands args st :
  nodes st !! pr = Some (Pred_boolean id operands) ->
  id <> PREDICATE_XOR ->
  (forall pre x post vs args1 st1 v args2 st2,
      operands = pre ++ x :: post ->
      eval_operands (predicate_eval fuel) pre args st = Ok (vs, args1, st1) ->
      Forall (fun w => ~ stops id w) vs ->
      predicate_value fuel x args1 st1 = Ok (v, args2, st2) ->
      stops id v ->
      predicate_eval (S fuel) pr args st = Ok (v, args2, st2))
  /\ (forall vs args' st',
        eval_operands (predicate_eval fuel) operands args st = Ok (vs, args', st') ->
        Forall (fun w => ~ stops id w) vs ->
        predicate_eval (S fuel) pr args st
        = Ok (default JS_UNDEFINED (last vs), args', st')).
Proof.
  intros Hnode Hid. split.
  - intros pre x post vs args1 st1 v args2 st2 -> Hpre Hall Hx Hstop.
    rewrite predicate_eval_unfold. unfold predicate_eval_body. rewrite Hnode.
    unfold predicate_value in Hx.
    destruct id; [ | | contradiction ].
    + rewrite (or_loop_skips _ pre _ _ _ _ _ _ _ Hpre Hall). simpl. rewrite Hx. simpl.
      simpl in Hstop. unfold truthy in Hstop.
      destruct (JS_ToBool v =? 0) eqn:Hz;
        [ apply Z.eqb_eq in Hz; contradiction | reflexivity ].
    + rewrite (and_loop_skips _ pre _ _ _ _ _ _ _ Hpre Hall). simpl. rewrite Hx. simpl.
      simpl in Hstop. unfold falsy in Hstop. rewrite Hstop. reflexivity.
  - intros vs args' st' Hops Hall.
    rewrite predicate_eval_unfold. unfold predicate_eval_body. rewrite Hnode.
    rewrite <- (app_nil_r operands).
    destruct id; [ | | contradiction ].
    + rewrite (or_loop_skips _ operands _ _ _ _ _ _ _ Hops Hall). reflexivity.
    + rewrite (and_loop_skips _ operands _ _ _ _ _ _ _ Hops Hall). reflexivity.
Qed.
End Boolean.

Lemma boolean_short_circuit_witness :
  let st := Example.state_of [(0%nat, Pred_boolean PREDICATE_AND [Example.pred 1; Example.pred 2]);
                              (1%nat, Pred_type 32);
                              (2%nat, Pred_type 8)] in
  @predicate_eval Example.runtime 2 0%nat [JS_Int32 1; JS_Int32 2] st
  = Ok (JS_Bool false, [JS_Int32 2], st).
Proof.
  intros st.
  refine (proj1 (@boolean_short_circuit Example.runtime 1 0%nat PREDICATE_AND
                   [Example.pred 1; Example.pred 2] [JS_Int32 1; JS_Int32 2] st
                   eq_refl _)
            [] (Example.pred 1) [Example.pred 2] [] [JS_Int32 1; JS_Int32 2] st
            (JS_Bool false) [JS_Int32 2] st eq_refl eq_refl (List.Forall_nil _) eq_refl eq_refl).
  discriminate.
Defined.

(** ** Xor *)

Section Xor.
Context `{Runtime}.

Lemma foldl_lxor_start r zs : foldl Z.lxor r zs = Z.lxor r (foldl Z.lxor 0 zs).
Proof.
  revert r. induction zs as [|z zs IH]; intros r; simpl.
  - symmetry. apply Z.lxor_0_r.
  - rewrite (IH (Z.lxor r z)), (IH (Z.lxor 0 z)), Z.lxor_0_l, Z.lxor_assoc. reflexivity.
Qed.

Lemma foldl_lxor_perm zs zs' :
  Permutation zs zs' -> foldl Z.lxor 0 zs = foldl Z.lxor 0 zs'.
Proof.
  induction 1 as [|z zs zs' _ IH|y z zs|zs1 zs2 zs3 _ IH1 _ IH2]; simpl.
  - reflexivity.
  - rewrite (foldl_lxor_start (Z.lxor 0 z) zs), (foldl_lxor_start (Z.lxor 0 z) zs'), IH.
    reflexivity.
  - f_equal. rewrite !Z.lxor_0_l. apply Z.lxor_comm.
  - congruence.
Qed.

Section Loops.
Variable eval : addr -> JSArguments -> State -> Result.

Lemma predicate_value_with_literal v args st :
  is_literal v = true -> predicate_value_with eval v args st = Ok (v, args, st).
Proof.
  unfold is_literal, predicate_value_with. intros Hlit.
  apply andb_true_iff in Hlit as [Hp Hf].
  destruct (js_predicate_data v); [ discriminate Hp | ].
  destruct (JS_IsFunction v); [ discriminate Hf | reflexivity ].
Qed.

(** The loop of lines 182-186 is the left-to-right resolution of every
    operand, followed by the fold. *)
Lemma xor_loop_operands operands : forall r args st,
  xor_loop eval operands r args st
  = '(vs, args', st') ← eval_operands eval operands args st;
    Ok (Z.lxor r (xor_fold vs), args', st').
Proof.
  induction operands as [|p rest IH]; intros r args st; simpl.
  - unfold xor_fold. simpl. rewrite Z.lxor_0_r. reflexivity.
  - destruct (predicate_value_with eval p args st) as [[[v a] s]| | |]; try reflexivity.
    simpl. rewrite IH.
    destruct (eval_operands eval rest a s) as [[[vs a'] s']| | |]; try reflexivity.
    simpl. unfold xor_fold. simpl.
    rewrite (foldl_lxor_start (Z.lxor 0 (to_int64 v))), Z.lxor_0_l, Z.lxor_assoc.
    reflexivity.
Qed.

(** Literal operands can be folded first: they touch neither the cursor
    nor the state. *)
Lemma xor_loop_literals_first operands : forall r args st,
  xor_loop eval operands r args st
  = xor_loop eval (filter (fun v => is_literal v = false) operands)
      (Z.lxor r (xor_fold (filter (fun v => is_literal v = true) operands))) args st.
Proof.
  induction operands as [|p rest IH]; intros r args st.
  - simpl. unfold xor_fold. simpl. rewrite Z.lxor_0_r. reflexivity.
  - destruct (is_literal p) eqn:Hlit.
    + rewrite (filter_cons_False (fun v => is_literal v = false)) by congruence.
      rewrite (filter_cons_True (fun v => is_literal v = true)) by exact Hlit.
      simpl. rewrite (predicate_value_with_literal p args st Hlit). simpl.
      rewrite IH. f_equal. unfold xor_fold. simpl.
      rewrite (foldl_lxor_start (Z.lxor 0 (to_int64 p))), Z.lxor_0_l, Z.lxor_assoc.
      reflexivity.
    + rewrite (filter_cons_True (fun v => is_literal v = false)) by exact Hlit.
      rewrite (filter_cons_False (fun v => is_literal v = true)) by congruence.
      simpl.
      destruct (predicate_value_with eval p args st) as [[[v a] s]| | |]; try reflexivity.
      simpl. rewrite IH. f_equal.
      rewrite !Z.lxor_assoc. f_equal. apply Z.lxor_comm.
Qed.
End Loops.

Lemma as_int64_range z : - 2 ^ 63 <= as_int64 z < 2 ^ 63.
Proof.
  unfold as_int64. pose proof (Z.mod_pos_bound z (2 ^ 64) ltac:(lia)) as Hm.
  destruct (z mod 2 ^ 64 <? 2 ^ 63) eqn:Hlt; [ apply Z.ltb_lt in Hlt | apply Z.ltb_ge in Hlt ];
    lia.
Qed.

Lemma as_int64_congruent z : as_int64 z mod 2 ^ 64 = z mod 2 ^ 64.
Proof.
  unfold as_int64. pose proof (Z.mod_pos_bound z (2 ^ 64) ltac:(lia)) as Hm.
  destruct (z mod 2 ^ 64 <? 2 ^ 63).
  - apply Z.mod_mod. lia.
  - replace (z mod 2 ^ 64 - 2 ^ 64) with (z mod 2 ^ 64 + (-1) * 2 ^ 64) by lia.
    rewrite Z.mod_add by lia. apply Z.mod_mod. lia.
Qed.

(** The conversion of the code is the one of the specification. *)
Lemma int64_wrap_as_int64 z : int64_wrap z = as_int64 z.
Proof.
  unfold int64_wrap, as_int64.
  pose proof (Z.mod_pos_bound z (2 ^ 64) ltac:(lia)) as Hm.
  rewrite <- Z.add_mod_idemp_l by lia.
  destruct (z mod 2 ^ 64 <? 2 ^ 63) eqn:Hlt.
  - apply Z.ltb_lt in Hlt. rewrite Z.mod_small by lia. lia.
  - apply Z.ltb_ge in Hlt.
    replace (z mod 2 ^ 64 + 2 ^ 63) with (z mod 2 ^ 64 - 2 ^ 63 + 1 * 2 ^ 64) by lia.
    rewrite Z.mod_add by lia. rewrite Z.mod_small by lia. lia.
Qed.

Lemma int64_range_shiftr a :
  - 2 ^ 63 <= a < 2 ^ 63 <-> Z.shiftr a 63 = 0 \/ Z.shiftr a 63 = -1.
Proof.
  rewrite Z.shiftr_div_pow2 by lia.
  pose proof (Z.div_mod a (2 ^ 63) ltac:(lia)) as Hdiv.
  pose proof (Z.mod_pos_bound a (2 ^ 63) ltac:(lia)) as Hmod.
  change (2 ^ 63) with 9223372036854775808 in *. lia.
Qed.

Lemma lxor_int64_range a b :
  - 2 ^ 63 <= a < 2 ^ 63 -> - 2 ^ 63 <= b < 2 ^ 63 -> - 2 ^ 63 <= Z.lxor a b < 2 ^ 63.
Proof.
  rewrite !int64_range_shiftr, Z.shiftr_lxor.
  intros [ -> | -> ] [ -> | -> ]; simpl; auto.
Qed.

Lemma xor64_range vs : - 2 ^ 63 <= xor64 vs < 2 ^ 63.
Proof.
  induction vs as [|v vs IH]; simpl; [ lia | ].
  apply lxor_int64_range; [ apply as_int64_range | exact IH ].
Qed.

Lemma xor_fold_xor64 vs : xor_fold vs = xor64 vs.
Proof.
  unfold xor_fold. induction vs as [|v vs IH]; [ reflexivity | ].
  rewrite fmap_cons. cbn [foldl xor64 foldr].
  rewrite (foldl_lxor_start (Z.lxor 0 (to_int64 v))), Z.lxor_0_l, IH.
  unfold to_int64. now rewrite int64_wrap_as_int64.
Qed.

(** C7.  A Xor node resolves every operand, from left to right, whatever
    the results are; it returns the bitwise xor of the results converted
    to 64-bit integers, itself a 64-bit integer.  Moving literal
    operands around, while the other operands keep their order, changes
    nothing of the outcome. *)
Theorem xor_eval_all_operands fuel pr operands args st :
  nodes st !! pr = Some (Pred_boolean PREDICATE_XOR operands) ->
  predicate_eval (S fuel) pr args st
  = ('(vs, args', st') ← eval_operands (predicate_eval fuel) operands args st;
     Ok (JS_NewInt64 (xor64 vs), args', st'))
  /\ (forall vs, - 2 ^ 63 <= xor64 vs < 2 ^ 63)
  /\ (forall z, - 2 ^ 63 <= as_int64 z < 2 ^ 63 /\ as_int64 z mod 2 ^ 64 = z mod 2 ^ 64)
  /\ (forall pr' operands',
        nodes st !! pr' = Some (Pred_boolean PREDICATE_XOR operands') ->
        Permutation operands operands' ->
        filter (fun v => is_literal v = false) operands
        = filter (fun v => is_literal v = false) operands' ->
        predicate_eval (S fuel) pr' args st = predicate_eval (S fuel) pr args st).
Proof.
  intros Hnode. split; [ | split; [ | split ] ].
  - rewrite predicate_eval_unfold. unfold predicate_eval_body. rewrite Hnode.
    rewrite xor_loop_operands.
    destruct (eval_operands (predicate_eval fuel) operands args st)
      as [[[vs a] s]| | |]; try reflexivity.
    simpl. now rewrite Z.lxor_0_l, xor_fold_xor64.
  - apply xor64_range.
  - intros z. split; [ apply as_int64_range | apply as_int64_congruent ].
  - intros pr' operands' Hnode' Hperm Hrest.
    rewrite !predicate_eval_unfold. unfold predicate_eval_body. rewrite Hnode, Hnode'.
    rewrite (xor_loop_literals_first _ operands), (xor_loop_literals_first _ operands').
    rewrite Hrest. do 3 f_equal. unfold xor_fold. apply foldl_lxor_perm.
    apply Permutation_map. apply filter_Permutation. symmetry. exact Hperm.
Qed.
End Xor.

Lemma xor_eval_all_operands_witness :
  let st := Example.state_of
              [(0%nat, Pred_boolean PREDICATE_XOR
                         [JS_Float64 (2 ^ 64 + 5); Example.pred 1; JS_Int32 3]);
               (1%nat, Pred_type 8);
               (2%nat, Pred_boolean PREDICATE_XOR [JS_Float64 (2 ^ 63); JS_Int32 1])] in
  @predicate_eval Example.runtime 2 0%nat [JS_Int32 9] st = Ok (JS_Int32 7, [], st)
  /\ @predicate_eval Example.runtime 2 2%nat [] st
     = Ok (JS_Float64 (- 2 ^ 63 + 1), [], st).
Proof.
  intros st. split.
  - exact (proj1 (@xor_eval_all_operands Example.runtime 1 0%nat
                    [JS_Float64 (2 ^ 64 + 5); Example.pred 1; JS_Int32 3]
                    [JS_Int32 9] st eq_refl)).
  - exact (proj1 (@xor_eval_all_operands Example.runtime 1 2%nat
                    [JS_Float64 (2 ^ 63); JS_Int32 1] [] st eq_refl)).
Defined.

(** Two Xor nodes whose operand lists differ in the place of the literals
    give the same outcome. *)
Example xor_reordered_literals :
  let st := Example.state_of
              [(0%nat, Pred_boolean PREDICATE_XOR [JS_Int32 5; Example.pred 2; JS_Int32 3]);
               (1%nat, Pred_boolean PREDICATE_XOR [JS_Int32 3; JS_Int32 5; Example.pred 2]);
               (2%nat, Pred_type 8)] in
  @predicate_eval Example.runtime 2 1%nat [JS_Int32 9] st
  = @predicate_eval Example.runtime 2 0%nat [JS_Int32 9] st.
Proof. reflexivity. Qed.

(** ** The argument count and the arguments consumed *)

Lemma plain_arguments_drop n args : plain_arguments args -> plain_arguments (drop n args).
Proof. apply Forall_drop. Qed.

Lemma args_c_drop n (args : JSArguments) :
  0 <= n <= args_c args -> args_c (drop (Z.to_nat n) args) = args_c args - n.
Proof. unfold args_c. intros Hn. rewrite length_drop. lia. Qed.

Section CountExact.
Context `{Runtime}.
Variable store : gmap addr Predicate.
Variable eval : addr -> JSArguments -> State -> Result.
Variable count : addr -> Outcome Z.
Variable exact : addr -> bool.

Hypothesis IH : forall q, exact q = true ->
  exists n, count q = Ok n /\ 0 <= n /\ consumes store (eval q) n.

Lemma drop_drop_Z n m (args : JSArguments) :
  0 <= n -> 0 <= m ->
  drop (Z.to_nat m) (drop (Z.to_nat n) args) = drop (Z.to_nat (n + m)) args.
Proof. intros Hn Hm. rewrite drop_drop, Z2Nat.inj_add by lia. reflexivity. Qed.

Lemma value_not_predicate v :
  js_predicate_data v = None -> consumes store (predicate_value_with eval v) 0.
Proof.
  intros Hv args st Hst _ _. unfold predicate_value_with, predicate_call_with.
  rewrite Hv. destruct (JS_IsFunction v); simpl; eauto.
Qed.

Lemma value_operand_exact v :
  exact_operand exact v = true ->
  exists n, match js_predicate_data v with
            | Some other => count other
            | None => Ok 0
            end = Ok n
            /\ 0 <= n /\ consumes store (predicate_value_with eval v) n.
Proof.
  unfold exact_operand. destruct (js_predicate_data v) as [q|] eqn:Hv.
  - intros Hq. destruct (IH q Hq) as (n & Hn & Hpos & Hrun).
    exists n. split; [ exact Hn | split; [ exact Hpos | ] ].
    intros args st Hst Hargs Hlen. unfold predicate_value_with. rewrite Hv.
    apply Hrun; assumption.
  - intros _. exists 0. split; [ reflexivity | split; [ lia | ] ].
    apply value_not_predicate, Hv.
Qed.

Lemma binary_operand_exact v :
  exact_operand exact v = true ->
  exists n, operand_num_args count v = Ok n
            /\ 0 <= n /\ consumes store (binary_operand eval v) n.
Proof.
  intros Hv. unfold operand_num_args, binary_operand.
  destruct (js_is_null_or_undefined v) eqn:Hnull.
  - exists 1. split; [ reflexivity | split; [ lia | ] ].
    intros args st Hst Hargs Hlen.
    destruct args as [|x rest]; [ unfold args_c in Hlen; simpl in Hlen; lia | ].
    simpl js_arguments_shift. cbv iota beta.
    unfold plain_arguments in Hargs. apply Forall_cons in Hargs as [Hx Hrest].
    destruct (value_not_predicate x Hx rest st Hst Hrest (args_c_nonneg rest))
      as (v' & st' & Hrun & Hst').
    exists v', st'. split; [ exact Hrun | exact Hst' ].
  - apply value_operand_exact, Hv.
Qed.

Lemma xor_operands_exact operands :
  forallb (exact_operand exact) operands = true ->
  forall n0, exists m,
    boolean_num_args count operands n0 = Ok (n0 + m)
    /\ 0 <= m
    /\ forall r args st, nodes st = store -> plain_arguments args -> m <= args_c args ->
         exists r' st', xor_loop eval operands r args st
                        = Ok (r', drop (Z.to_nat m) args, st')
                        /\ nodes st' = store.
Proof.
  induction operands as [|p rest IHops]; intros Hall n0; simpl in *.
  - exists 0. split; [ f_equal; lia | split; [ lia | ] ].
    intros r args st Hst _ _. eauto.
  - apply andb_true_iff in Hall as [Hp Hrest].
    destruct (value_operand_exact p Hp) as (n & Hn & Hpos & Hrun).
    assert (Hcount : exists m, boolean_num_args count (p :: rest) n0 = Ok (n0 + n + m)
                     /\ 0 <= m
                     /\ forall r args st, nodes st = store -> plain_arguments args ->
                          m <= args_c args ->
                          exists r' st', xor_loop eval rest r args st
                                         = Ok (r', drop (Z.to_nat m) args, st')
                                         /\ nodes st' = store).
    { simpl. destruct (js_predicate_data p) as [q|].
      - rewrite Hn. simpl. apply IHops, Hrest.
      - injection Hn as <-. destruct (IHops Hrest n0) as (m & Hm & Hmpos & Hmrun).
        exists m. rewrite Hm. split; [ f_equal; lia | auto ]. }
    destruct Hcount as (m & Hm & Hmpos & Hmrun). simpl in Hm.
    exists (n + m). split; [ rewrite Hm; f_equal; lia | split; [ lia | ] ].
    intros r args st Hst Hargs Hlen.
    destruct (Hrun args st Hst Hargs ltac:(lia)) as (v & st1 & Hv & Hst1).
    rewrite Hv. simpl.
    destruct (Hmrun (Z.lxor r (to_int64 v)) (drop (Z.to_nat n) args) st1 Hst1
                (plain_arguments_drop _ _ Hargs)
                ltac:(rewrite args_c_drop by lia; lia))
      as (r' & st2 & Hr' & Hst2).
    rewrite Hr', drop_drop_Z by lia. eauto.
Qed.
Lemma function_arity_small arity :
  0 <= arity <= 1 -> forall func this_val pr, store !! pr = Some (Pred_function func this_val arity) ->
  consumes store (predicate_eval_body eval pr) arity.
Proof.
  intros Harity func this_val pr Hnode args st Hst Hargs Hlen.
  unfold predicate_eval_body. rewrite Hst, Hnode.
  assert (arity = 0 \/ arity = 1) as [-> | ->] by lia.
  - simpl. eauto.
  - destruct args as [|x rest]; [ unfold args_c in Hlen; simpl in Hlen; lia | ].
    simpl. eauto.
Qed.

Lemma predicate_eval_body_exact pr :
  exact_count_body store exact pr = true ->
  exists n, predicate_recursive_num_args_body store count pr = Ok n
            /\ 0 <= n /\ consumes store (predicate_eval_body eval pr) n.
Proof.
  unfold exact_count_body, predicate_recursive_num_args_body.
  destruct (store !! pr) as [node|] eqn:Hnode; [ | discriminate ].
  destruct node as [type_flags | set chars | str | id operand | id lhs rhs
                   | id operands | expr bc | atom filter | object | k operand
                   | func this_val arity]; try discriminate.
  - assert (Hlogical : negb (js_is_null_or_undefined operand)
                       && exact_operand exact operand = true ->
              forall post : JSValue -> JSValue,
              (forall args st, nodes st = store ->
                 predicate_eval_body eval pr args st
                 = '(v, args', st') ← predicate_value_with eval operand args st;
                   Ok (post v, args', st')) ->
              exists n, operand_num_args count operand = Ok n /\ 0 <= n
                        /\ consumes store (predicate_eval_body eval pr) n).
    { intros Hok post Hbody. apply andb_true_iff in Hok as [Hset Hop].
      destruct (value_operand_exact operand Hop) as (n & Hn & Hpos & Hrun).
      exists n. split; [ | split; [ exact Hpos | ] ].
      - unfold operand_num_args.
        destruct (js_is_null_or_undefined operand); [ discriminate Hset | exact Hn ].
      - intros args st Hst Hargs Hlen. rewrite Hbody by exact Hst.
        destruct (Hrun args st Hst Hargs Hlen) as (v & st' & Hv & Hst').
        rewrite Hv. simpl. eauto. }
    assert (Hreference : js_is_null_or_undefined operand = true ->
              forall test : JSValue -> JSValue,
              (forall x rest st, nodes st = store ->
                 predicate_eval_body eval pr (x :: rest) st = Ok (test x, rest, st)) ->
              exists n, operand_num_args count operand = Ok n /\ 0 <= n
                        /\ consumes store (predicate_eval_body eval pr) n).
    { intros Hnull test Hbody. exists 1. split; [ | split; [ lia | ] ].
      - unfold operand_num_args. rewrite Hnull. reflexivity.
      - intros args st Hst Hargs Hlen.
        destruct args as [|x rest]; [ unfold args_c in Hlen; simpl in Hlen; lia | ].
        rewrite Hbody by exact Hst. eauto. }
    destruct id; intros Hok;
      [ eapply (Hlogical Hok) | eapply (Hlogical Hok) | eapply (Hlogical Hok)
      | eapply (Hlogical Hok) | eapply (Hreference Hok) | eapply (Hreference Hok)
      | eapply (Hreference Hok) ];
      intros; unfold predicate_eval_body;
      match goal with Hst : nodes _ = store |- _ => rewrite Hst, Hnode end;
      reflexivity.
  - intros Hok. apply andb_true_iff in Hok as [Hl Hr].
    destruct (binary_operand_exact lhs Hl) as (n1 & Hn1 & Hpos1 & Hrun1).
    destruct (binary_operand_exact rhs Hr) as (n2 & Hn2 & Hpos2 & Hrun2).
    exists (n1 + n2). rewrite Hn1, Hn2. split; [ reflexivity | split; [ lia | ] ].
    intros args st Hst Hargs Hlen. unfold predicate_eval_body. rewrite Hst, Hnode.
    destruct (Hrun1 args st Hst Hargs ltac:(lia)) as (v0 & st1 & Hv0 & Hst1).
    rewrite Hv0. simpl.
    destruct (Hrun2 (drop (Z.to_nat n1) args) st1 Hst1 (plain_arguments_drop _ _ Hargs)
                ltac:(rewrite args_c_drop by lia; lia)) as (v1 & st2 & Hv1 & Hst2).
    rewrite Hv1. simpl. rewrite drop_drop_Z by lia. eauto.
  - destruct id; try discriminate. intros Hok.
    destruct (xor_operands_exact operands Hok 0) as (m & Hm & Hpos & Hrun).
    exists m. split; [ rewrite Hm; f_equal; lia | split; [ exact Hpos | ] ].
    intros args st Hst Hargs Hlen. unfold predicate_eval_body. rewrite Hst, Hnode.
    destruct (Hrun 0 args st Hst Hargs Hlen) as (r' & st' & Hr' & Hst').
    rewrite Hr'. simpl. eauto.
  - intros Hok. apply andb_true_iff in Hok as [Hatom Hnull].
    exists 1. unfold operand_num_args. rewrite Hnull.
    destruct (atom =? 0); [ discriminate Hatom | ].
    split; [ reflexivity | split; [ lia | ] ].
    intros args st Hst Hargs Hlen. unfold predicate_eval_body. rewrite Hst, Hnode.
    destruct args as [|x rest]; [ unfold args_c in Hlen; simpl in Hlen; lia | ].
    simpl js_arguments_shift. cbv iota beta. rewrite Hnull. simpl.
    destruct (JS_IsObject x); eauto.
  - intros _. exists 1. split; [ reflexivity | split; [ lia | ] ].
    intros args st Hst Hargs Hlen. unfold predicate_eval_body. rewrite Hst, Hnode.
    destruct args as [|x rest]; [ unfold args_c in Hlen; simpl in Hlen; lia | ].
    simpl js_arguments_shift. cbv iota beta.
    destruct (negb _); eauto.
  - intros Hok. apply andb_true_iff in Hok as [H0 H1].
    apply Z.leb_le in H0, H1.
    exists arity. split; [ reflexivity | split; [ exact H0 | ] ].
    eapply function_arity_small; [ lia | exact Hnode ].
Qed.
End CountExact.

(** ** The count is a static sum *)

Lemma unset_is_no_predicate v :
  js_is_null_or_undefined v = true -> js_predicate_data v = None.
Proof. destruct v; simpl; intros; try discriminate; reflexivity. Qed.

Lemma height_nested node nested fuel :
  (height (Tree_node node nested) <= S fuel)%nat ->
  Forall (fun t => (height t <= fuel)%nat) nested.
Proof.
  simpl. intros Hle. apply le_S_n in Hle.
  induction nested as [|t nested IH]; constructor; simpl in Hle; [ lia | apply IH; lia ].
Qed.

Section CountStatic.
Context `{Runtime}.
Variable store : gmap addr Predicate.
Variable count : addr -> Outcome Z.
Variable known : Tree -> Prop.
Hypothesis count_known : forall t p,
  known t -> unfolds store t p -> count p = Ok (static_count t).

Lemma operand_num_args_static v nested :
  each (unfolds store) nested (omap js_predicate_data [v]) ->
  Forall known nested ->
  operand_num_args count v = Ok (unset_slots [v] + sum_over static_count nested).
Proof.
  unfold operand_num_args, unset_slots. simpl.
  destruct (js_is_null_or_undefined v) eqn:Hnull.
  - rewrite (unset_is_no_predicate v Hnull).
    destruct nested; simpl; [ reflexivity | contradiction ].
  - destruct (js_predicate_data v) as [other|]; simpl.
    + destruct nested as [|t [|t' nested]]; simpl; try tauto.
      intros [Ht _] Hknown. apply Forall_cons in Hknown as [Hknown _].
      rewrite (count_known t other Hknown Ht). f_equal. lia.
    + destruct nested; simpl; [ reflexivity | contradiction ].
Qed.

Lemma boolean_num_args_static predicates : forall nested n,
  each (unfolds store) nested (omap js_predicate_data predicates) ->
  Forall known nested ->
  boolean_num_args count predicates n = Ok (n + sum_over static_count nested).
Proof.
  induction predicates as [|p predicates IH]; intros nested n; simpl.
  - destruct nested; simpl; [ intros; f_equal; lia | contradiction ].
  - destruct (js_predicate_data p) as [other|]; [ | apply IH ].
    destruct nested as [|t nested]; simpl; [ contradiction | ].
    intros [Ht Hrest] Hknown. apply Forall_cons in Hknown as [Hknown Hknowns].
    rewrite (count_known t other Hknown Ht). simpl.
    rewrite (IH nested _ Hrest Hknowns). f_equal. lia.
Qed.

Lemma each_split (lhs rhs : JSValue) nested :
  each (unfolds store) nested (omap js_predicate_data [lhs; rhs]) ->
  exists nested1 nested2,
    nested = nested1 ++ nested2
    /\ each (unfolds store) nested1 (omap js_predicate_data [lhs])
    /\ each (unfolds store) nested2 (omap js_predicate_data [rhs]).
Proof.
  simpl. destruct (js_predicate_data lhs) as [p|].
  - destruct nested as [|t nested]; simpl; [ contradiction | ].
    intros [Ht Hrest]. exists [t], nested. simpl. tauto.
  - intros Hrest. exists [], nested. simpl. tauto.
Qed.

Lemma sum_over_app (measure : Tree -> Z) ts1 ts2 :
  sum_over measure (ts1 ++ ts2) = sum_over measure ts1 + sum_over measure ts2.
Proof. induction ts1 as [|t ts1 IH]; simpl; [ reflexivity | rewrite IH; lia ]. Qed.

Lemma predicate_recursive_num_args_body_static pr node nested :
  store !! pr = Some node ->
  each (unfolds store) nested (nested_predicates node) ->
  Forall known nested ->
  predicate_recursive_num_args_body store count pr
  = Ok (static_count (Tree_node node nested)).
Proof.
  intros Hnode Heach Hknown. unfold predicate_recursive_num_args_body.
  rewrite Hnode. unfold nested_predicates in Heach. cbn [static_count].
  assert (Hleaf : nested_predicates node = [] -> sum_over static_count nested = 0).
  { unfold nested_predicates. intros Hnone. rewrite Hnone in Heach.
    destruct nested; [ reflexivity | contradiction ]. }
  destruct node as [type_flags | set chars | str | id operand | id lhs rhs
                   | id operands | expr bc | atom filter | object | k operand
                   | func this_val arity];
    cbn [counted_operands own_slots] in *;
    try (now apply operand_num_args_static);
    try (rewrite Hleaf by reflexivity; f_equal; lia).
  - destruct (each_split lhs rhs nested Heach) as (n1 & n2 & -> & H1 & H2).
    apply Forall_app in Hknown as [Hk1 Hk2].
    rewrite (operand_num_args_static lhs n1 H1 Hk1).
    rewrite (operand_num_args_static rhs n2 H2 Hk2). simpl.
    rewrite sum_over_app. f_equal.
    unfold unset_slots. simpl.
    destruct (js_is_null_or_undefined lhs), (js_is_null_or_undefined rhs); simpl; lia.
  - now rewrite (boolean_num_args_static operands nested 0 Heach Hknown).
  - rewrite (operand_num_args_static filter nested Heach Hknown). simpl.
    f_equal. lia.
Qed.
End CountStatic.

Lemma predicate_recursive_num_args_static `{Runtime} store fuel : forall t pr,
  unfolds store t pr -> (height t <= fuel)%nat ->
  predicate_recursive_num_args fuel store pr = Ok (static_count t).
Proof.
  induction fuel as [|fuel IH]; intros [node nested] pr Ht Hheight.
  - simpl in Hheight. lia.
  - destruct Ht as [Hnode Heach]. cbn [predicate_recursive_num_args].
    apply (predicate_recursive_num_args_body_static store _
             (fun t => (height t <= fuel)%nat)).
    + intros t p Hle Htp. now apply IH.
    + exact Hnode.
    + exact Heach.
    + now apply height_nested with (node := node).
Qed.

(** ** What Regex and Shift nodes take *)

Lemma regexp_export_takes `{Runtime} re capture count result args st :
  (regexp_export re capture count result args st).1
  = if negb (result =? 0) && (1 <? args_c args) then drop 1 args else args.
Proof.
  unfold regexp_export.
  destruct (negb (result =? 0) && (1 <? args_c args)) eqn:Htake; [ | reflexivity ].
  apply andb_true_iff in Htake as [_ Hlen]. apply Z.ltb_lt in Hlen.
  destruct args as [|arg rest]; [ unfold args_c in Hlen; simpl in Hlen; lia | ].
  simpl. destruct (JS_IsFunction arg); [ reflexivity | ].
  destruct (JS_IsArray arg); reflexivity.
Qed.

Lemma regexp_eval_takes `{Runtime} fuel pr expr bytecode x rest st :
  nodes st !! pr = Some (Pred_regexp expr bytecode) ->
  let compiled := match bytecode with Some bc => Some bc | None => regexp_compile expr end in
  let result := (lre_exec compiled (js_input_chars x)).1 in
  exists st',
    predicate_eval (S fuel) pr (x :: rest) st
    = Ok (JS_NewBool result,
          (if negb (result =? 0) && (1 <? args_c rest) then drop 1 rest else rest),
          st').
Proof.
  intros Hnode. cbn [predicate_eval]. unfold predicate_eval_body.
  rewrite Hnode. cbn [js_arguments_shift].
  assert (Htail : forall capture count result st0,
            exists st',
              (let '(args0, st4) := regexp_export x capture count result rest st0 in
               Ok (JS_NewBool result, args0, st4))
              = Ok (JS_NewBool result,
                    (if negb (result =? 0) && (1 <? args_c rest) then drop 1 rest else rest),
                    st')).
  { intros capture count result st0.
    pose proof (regexp_export_takes x capture count result rest st0) as Hcursor.
    destruct (regexp_export x capture count result rest st0) as [rest' st'].
    simpl in Hcursor. subst rest'. eexists. reflexivity. }
  destruct bytecode as [ bc | ].
  - simpl. rewrite Hnode.
    destruct (lre_exec (Some bc) (js_input_chars x)) as [result capture]. simpl.
    apply Htail.
  - unfold predicate_regexp_compile. rewrite Hnode.
    destruct (regexp_compile expr) as [ bc | ]; simpl;
      rewrite lookup_insert_eq;
      destruct (lre_exec _ (js_input_chars x)) as [result capture]; simpl;
      apply Htail.
Qed.

Lemma shift_eval_takes `{Runtime} fuel pr k operand args st :
  nodes st !! pr = Some (Pred_shift k operand) ->
  js_predicate_data operand = None ->
  exists v st',
    predicate_eval (S fuel) pr args st
    = Ok (v, (if k <=? args_c args then js_arguments_shiftn args k else args), st').
Proof.
  intros Hnode Hplain. cbn [predicate_eval]. unfold predicate_eval_body.
  rewrite Hnode. destruct (k <=? args_c args); [ | eauto ].
  unfold predicate_value_with, predicate_call_with. rewrite Hplain.
  destruct (JS_IsFunction operand); [ | eauto ].
  destruct (js_call operand JS_UNDEFINED _ _ st) as [ret st']. simpl. eauto.
Qed.

(** C3, as the code has it.  The count is a static sum: on every finite
    tree that the store holds, [predicate_recursive_num_args] returns
    [static_count], the sum over the nodes of the tree of one per unset
    operand slot of a unary, arithmetic or Property node, one per Regex,
    Member and Shift node, the arity of each Function node and one per
    missing Property key.  On the trees of [exact_count], and on a
    cursor of arguments that are not predicates and that holds at least
    as many arguments as the count says, the evaluation returns a value
    and takes from the cursor exactly as many arguments as are counted.
    Elsewhere count and consumption part: a Regex node counts one
    argument, and takes two when the engine answers other than 0 on
    its input (a match) and two or more arguments follow the input, one
    otherwise; a Shift node whose
    operand is not a predicate counts one argument, and takes the [n]
    arguments it skips when that many are left, none otherwise. *)
Theorem recursive_num_args_is_consumption `{Runtime} fuel : forall pr args st,
  (forall t, unfolds (nodes st) t pr -> (height t <= fuel)%nat ->
     predicate_recursive_num_args fuel (nodes st) pr = Ok (static_count t))
  /\ (exact_count fuel (nodes st) pr = true ->
      plain_arguments args ->
      exists n, predicate_recursive_num_args fuel (nodes st) pr = Ok n
                /\ 0 <= n
                /\ (n <= args_c args ->
                    exists v st', predicate_eval fuel pr args st
                                  = Ok (v, drop (Z.to_nat n) args, st')
                                  /\ nodes st' = nodes st))
  /\ (forall expr bytecode x rest,
        nodes st !! pr = Some (Pred_regexp expr bytecode) ->
        args = x :: rest ->
        let compiled :=
          match bytecode with Some bc => Some bc | None => regexp_compile expr end in
        let result := (lre_exec compiled (js_input_chars x)).1 in
        predicate_recursive_num_args (S fuel) (nodes st) pr = Ok 1
        /\ exists st',
             predicate_eval (S fuel) pr args st
             = Ok (JS_NewBool result,
                   (if negb (result =? 0) && (1 <? args_c rest)
                    then drop 2 args else drop 1 args),
                   st'))
  /\ (forall k operand,
        nodes st !! pr = Some (Pred_shift k operand) ->
        js_predicate_data operand = None ->
        0 <= k ->
        predicate_recursive_num_args (S fuel) (nodes st) pr = Ok 1
        /\ exists v st',
             predicate_eval (S fuel) pr args st
             = Ok (v, (if k <=? args_c args then drop (Z.to_nat k) args else args), st')).
Proof.
  assert (Hgen : forall store pr, exact_count fuel store pr = true ->
            exists n, predicate_recursive_num_args fuel store pr = Ok n /\ 0 <= n
                      /\ consumes store (predicate_eval fuel pr) n).
  { induction fuel as [|fuel IHfuel]; intros store pr Hexact; [ discriminate | ].
    simpl in *. apply predicate_eval_body_exact with (exact := exact_count fuel store).
    - intros q Hq. apply IHfuel, Hq.
    - exact Hexact. }
  intros pr args st. split; [ | split; [ | split ] ].
  - intros t Ht Hheight. now apply predicate_recursive_num_args_static.
  - intros Hexact Hargs.
    destruct (Hgen (nodes st) pr Hexact) as (n & Hn & Hpos & Hrun).
    exists n. split; [ exact Hn | split; [ exact Hpos | ] ].
    intros Hlen. apply Hrun; [ reflexivity | exact Hargs | exact Hlen ].
  - intros expr bytecode x rest Hnode -> compiled result. split.
    + cbn [predicate_recursive_num_args]. unfold predicate_recursive_num_args_body.
      now rewrite Hnode.
    + apply (regexp_eval_takes fuel pr expr bytecode x rest st Hnode).
  - intros k operand Hnode Hplain Hk. split.
    + cbn [predicate_recursive_num_args]. unfold predicate_recursive_num_args_body.
      now rewrite Hnode.
    + apply (shift_eval_takes fuel pr k operand args st Hnode Hplain).
Qed.

Lemma recursive_num_args_is_consumption_witness :
  let expr := {| source := Example.bytes "a"; flags := 0 |} in
  let add := Pred_binary PREDICATE_ADD JS_UNDEFINED (Example.pred 1) in
  let mul := Pred_binary PREDICATE_MUL JS_UNDEFINED JS_UNDEFINED in
  let st := Example.state_of
              [(0%nat, add);
               (1%nat, mul);
               (2%nat, Pred_regexp expr (Some (Example.bytes "a")));
               (3%nat, Pred_shift 2 (JS_Int32 9))] in
  let t := Tree_node add [Tree_node mul []] in
  let args := [JS_Int32 1; JS_Int32 2; JS_Int32 3; JS_Int32 4] in
  let text := [JS_String (Example.bytes "ab"); JS_Int32 2; JS_Int32 3] in
  (@predicate_recursive_num_args Example.runtime 2 (nodes st) 0%nat
   = Ok (@static_count Example.runtime t)
   /\ @static_count Example.runtime t = 3)
  /\ (exists n, @predicate_recursive_num_args Example.runtime 2 (nodes st) 0%nat = Ok n
                /\ 0 <= n
                /\ (n <= args_c args ->
                    exists v st', @predicate_eval Example.runtime 2 0%nat args st
                                  = Ok (v, drop (Z.to_nat n) args, st')
                                  /\ nodes st' = nodes st))
  /\ (@predicate_recursive_num_args Example.runtime 1 (nodes st) 2%nat = Ok 1
      /\ exists st', @predicate_eval Example.runtime 1 2%nat text st
                     = Ok (JS_Bool true, drop 2 text, st'))
  /\ (@predicate_recursive_num_args Example.runtime 1 (nodes st) 3%nat = Ok 1
      /\ exists v st', @predicate_eval Example.runtime 1 3%nat args st
                       = Ok (v, drop 2 args, st')).
Proof.
  intros expr add mul st t args text.
  destruct (@recursive_num_args_is_consumption Example.runtime 2 0%nat args st)
    as (Hsum & Hexact & _ & _).
  destruct (@recursive_num_args_is_consumption Example.runtime 0 2%nat text st)
    as (_ & _ & Hregexp & _).
  destruct (@recursive_num_args_is_consumption Example.runtime 0 3%nat args st)
    as (_ & _ & _ & Hshift).
  split; [ | split; [ | split ] ].
  - split; [ | reflexivity ].
    apply Hsum; [ simpl; repeat split; reflexivity | simpl; lia ].
  - apply Hexact; [ reflexivity | repeat constructor ].
  - exact (Hregexp expr (Some (Example.bytes "a")) (JS_String (Example.bytes "ab"))
             [JS_Int32 2; JS_Int32 3] eq_refl eq_refl).
  - refine (Hshift 2 (JS_Int32 9) eq_refl eq_refl _). lia.
Defined.

(** The same tree, computed: three arguments are counted and three are
    taken. *)
Example recursive_num_args_add_mul :
  let st := Example.state_of
              [(0%nat, Pred_binary PREDICATE_ADD JS_UNDEFINED (Example.pred 1));
               (1%nat, Pred_binary PREDICATE_MUL JS_UNDEFINED JS_UNDEFINED)] in
  @predicate_recursive_num_args Example.runtime 2 (nodes st) 0%nat = Ok 3
  /\ @predicate_eval Example.runtime 2 0%nat
       [JS_Int32 1; JS_Int32 2; JS_Int32 3; JS_Int32 4] st
     = Ok (JS_Float64 7, [JS_Int32 4], st).
Proof. split; reflexivity. Qed.

(** C3 as stated fails.  An Or over two Equal nodes with an unset
    reference counts two arguments; on a cursor of three arguments whose
    first equals the unset reference, the first operand is truthy and the
    evaluation stops there, having taken one argument. *)
Lemma recursive_num_args_or_short_circuit :
  let st := Example.state_of
              [(0%nat, Pred_boolean PREDICATE_OR [Example.pred 1; Example.pred 2]);
               (1%nat, Pred_unary PREDICATE_EQUAL JS_UNDEFINED);
               (2%nat, Pred_unary PREDICATE_EQUAL JS_UNDEFINED)] in
  let args := [JS_UNDEFINED; JS_Int32 1; JS_Int32 2] in
  @predicate_recursive_num_args Example.runtime 2 (nodes st) 0%nat = Ok 2
  /\ @predicate_eval Example.runtime 2 0%nat args st
     = Ok (JS_Bool true, drop 1 args, st).
Proof. split; reflexivity. Qed.

(** The other shapes that [exact_count] leaves out, each on a cursor of
    three arguments: a Not node with an unset operand counts one argument
    and takes none; a Regex node that matches counts one and takes two; a
    Shift node counts one whatever it skips; a Function node of arity two
    counts two and takes one. *)
Example recursive_num_args_not_unset :
  let st := Example.state_of [(0%nat, Pred_unary PREDICATE_NOT JS_UNDEFINED)] in
  let args := [JS_Int32 1; JS_Int32 2; JS_Int32 3] in
  @predicate_recursive_num_args Example.runtime 1 (nodes st) 0%nat = Ok 1
  /\ @predicate_eval Example.runtime 1 0%nat args st = Ok (JS_Bool true, args, st).
Proof. split; reflexivity. Qed.

Example recursive_num_args_regexp_match :
  let expr := {| source := Example.bytes "a"; flags := 0 |} in
  let st := Example.state_of [(0%nat, Pred_regexp expr (Some (Example.bytes "a")))] in
  let args := [JS_String (Example.bytes "ab"); JS_Int32 2; JS_Int32 3] in
  @predicate_recursive_num_args Example.runtime 1 (nodes st) 0%nat = Ok 1
  /\ @predicate_eval Example.runtime 1 0%nat args st
     = Ok (JS_Bool true, drop 2 args,
           log (EvExec (Some (Example.bytes "a")) (Example.bytes "ab")) st).
Proof. split; reflexivity. Qed.

Example recursive_num_args_shift :
  let st := Example.state_of [(0%nat, Pred_shift 2 (Example.pred 1));
                              (1%nat, Pred_member (Example.obj 7))] in
  let args := [JS_Int32 1; JS_Int32 2; JS_Int32 3] in
  @predicate_recursive_num_args Example.runtime 2 (nodes st) 0%nat = Ok 1
  /\ @predicate_eval Example.runtime 2 0%nat args st = Ok (JS_Int32 3, drop 3 args, st).
Proof. split; reflexivity. Qed.

Example recursive_num_args_function :
  let st := Example.state_of [(0%nat, Pred_function (Example.fn 1) JS_NULL 2)] in
  let args := [JS_Int32 1; JS_Int32 2; JS_Int32 3] in
  @predicate_recursive_num_args Example.runtime 1 (nodes st) 0%nat = Ok 2
  /\ @predicate_eval Example.runtime 1 0%nat args st
     = Ok (JS_Int32 2, drop 1 args,
           log (EvCall (Example.fn 1) JS_NULL 2 [Some (JS_Int32 1); None]) st).
Proof. split; reflexivity. Qed.

(** ** Clone and free *)

Lemma occurrences_cons v values p :
  occurrences (v :: values) p
  = ((if bool_decide (object_addr v = Some p) then 1 else 0) + occurrences values p)%nat.
Proof.
  unfold occurrences. rewrite filter_cons.
  destruct (decide (object_addr v = Some p)) as [Heq|Hne].
  - rewrite bool_decide_eq_true_2 by exact Heq. reflexivity.
  - rewrite bool_decide_eq_false_2 by exact Hne. reflexivity.
Qed.

Lemma JS_DupValue_value v st : (JS_DupValue v st).1 = v.
Proof. destruct v; reflexivity. Qed.

Lemma JS_DupValue_state v st :
  nodes (JS_DupValue v st).2 = nodes st
  /\ trace (JS_DupValue v st).2 = trace st
  /\ forall p, refcount (JS_DupValue v st).2 !! p
               = (fun n => (n + if bool_decide (object_addr v = Some p) then 1 else 0)%nat)
                   <$> refcount st !! p.
Proof.
  assert (Hid : forall p, refcount st !! p = (fun n => (n + 0)%nat) <$> refcount st !! p).
  { intros p. destruct (refcount st !! p); simpl; f_equal; lia. }
  destruct v; simpl; try (split; [ reflexivity | split; [ reflexivity | exact Hid ] ]).
  split; [ reflexivity | split; [ reflexivity | ] ].
  intros q. rewrite lookup_alter. destruct (decide (p = q)) as [->|Hne].
  - rewrite bool_decide_eq_true_2 by reflexivity.
    destruct (refcount st !! q); simpl; f_equal; lia.
  - rewrite bool_decide_eq_false_2 by congruence. apply Hid.
Qed.

Lemma js_values_dup_spec values : forall st,
  (js_values_dup values st).1 = values
  /\ nodes (js_values_dup values st).2 = nodes st
  /\ trace (js_values_dup values st).2 = trace st
  /\ forall p, refcount (js_values_dup values st).2 !! p
               = (fun n => (n + occurrences values p)%nat) <$> refcount st !! p.
Proof.
  induction values as [|v rest IH]; intros st; simpl.
  - repeat split. intros p. destruct (refcount st !! p); simpl; f_equal.
    unfold occurrences. simpl. lia.
  - pose proof (JS_DupValue_value v st) as Hv.
    destruct (JS_DupValue_state v st) as (Hn & Ht & Hr).
    destruct (JS_DupValue v st) as [v' st1]. simpl in Hv, Hn, Ht, Hr. subst v'.
    destruct (IH st1) as (Hvs & Hn2 & Ht2 & Hr2).
    destruct (js_values_dup rest st1) as [rest' st2]. simpl in *. subst rest'.
    split; [ reflexivity | ]. split; [ congruence | ]. split; [ congruence | ].
    intros p. rewrite Hr2, Hr, occurrences_cons.
    destruct (refcount st !! p); simpl; f_equal. lia.
Qed.

Section ReleaseFacts.
Variable free_rt : addr -> State -> Outcome State.

(** Releasing references that are not the last ones only counts down. *)
Lemma js_values_free_counts values : forall st,
  (forall p, (0 < occurrences values p)%nat ->
     exists n, refcount st !! p = Some n /\ (occurrences values p < n)%nat) ->
  exists st', js_values_free_with free_rt values st = Ok st'
              /\ nodes st' = nodes st
              /\ trace st' = trace st
              /\ forall p, refcount st' !! p
                           = (fun n => (n - occurrences values p)%nat) <$> refcount st !! p.
Proof.
  induction values as [|v rest IH]; intros st Hlive; simpl.
  - exists st. repeat split. intros p. destruct (refcount st !! p); simpl; f_equal.
    unfold occurrences. simpl. lia.
  - assert (Hstep : exists st1, JS_FreeValueRT_with free_rt v st = Ok st1
                    /\ nodes st1 = nodes st /\ trace st1 = trace st
                    /\ forall p, refcount st1 !! p
                         = (fun n => (n - if bool_decide (object_addr v = Some p)
                                           then 1 else 0)%nat) <$> refcount st !! p).
    { assert (Hid : forall p, refcount st !! p
                              = (fun n => (n - 0)%nat) <$> refcount st !! p).
      { intros p. destruct (refcount st !! p); simpl; f_equal; lia. }
      destruct v as [ | | | | | | | cls q | ];
        try (exists st; simpl; repeat split; exact Hid).
      destruct (Hlive q) as (n & Hq & Hn).
      { rewrite occurrences_cons, bool_decide_eq_true_2 by reflexivity. lia. }
      rewrite occurrences_cons, bool_decide_eq_true_2 in Hn by reflexivity.
      destruct n as [|[|n]]; [ lia | lia | ].
      exists (set_refcount q (S n) st). simpl. rewrite Hq.
      split; [ reflexivity | split; [ reflexivity | split; [ reflexivity | ] ] ].
      intros p. destruct (decide (q = p)) as [->|Hne].
      - rewrite lookup_insert_eq, Hq, bool_decide_eq_true_2 by reflexivity.
        simpl. f_equal; lia.
      - rewrite lookup_insert_ne by exact Hne.
        rewrite bool_decide_eq_false_2 by congruence. apply Hid. }
    destruct Hstep as (st1 & -> & Hn1 & Ht1 & Hr1). simpl.
    destruct (IH st1) as (st2 & Hfree & Hn2 & Ht2 & Hr2).
    { intros p Hp. specialize (Hr1 p).
      destruct (Hlive p) as (n & Hq & Hn).
      { rewrite occurrences_cons. lia. }
      rewrite occurrences_cons in Hn. rewrite Hq in Hr1. simpl in Hr1.
      eexists. split; [ exact Hr1 | ].
      destruct (bool_decide (object_addr v = Some p)); lia. }
    exists st2. split; [ exact Hfree | ]. split; [ congruence | ]. split; [ congruence | ].
    intros p. rewrite Hr2, Hr1, occurrences_cons.
    destruct (refcount st !! p); simpl; f_equal. lia.
Qed.

Lemma predicate_free_rt_body_values pr node st :
  nodes st !! pr = Some node ->
  predicate_free_rt_body free_rt pr st
  = st' ← js_values_free_with free_rt (node_values node) st;
    Ok (set_node pr (Pred_type 0) st').
Proof.
  intros Hnode. unfold predicate_free_rt_body. rewrite Hnode.
  destruct node; simpl; try reflexivity;
    repeat match goal with
           | |- context [JS_FreeValueRT_with free_rt ?v ?s] =>
               destruct (JS_FreeValueRT_with free_rt v s); simpl; try reflexivity
           end.
Qed.
End ReleaseFacts.

Lemma predicate_clone_values pr node st :
  nodes st !! pr = Some node ->
  predicate_clone pr st
  = Ok (js_mallocz st,
        set_node (js_mallocz st) (clone_node node)
          (js_values_dup (node_values node) st).2).
Proof.
  intros Hnode. unfold predicate_clone. rewrite Hnode.
  destruct node; simpl; try reflexivity;
    repeat match goal with
           | |- context [JS_DupValue ?v ?s] =>
               let Hv := fresh "Hv" in
               pose proof (JS_DupValue_value v s) as Hv;
               destruct (JS_DupValue v s); simpl in Hv; subst; simpl
           end; try reflexivity.
  pose proof (js_values_dup_spec predicates st) as (Hv & _).
  destruct (js_values_dup predicates st). simpl in *. subst. reflexivity.
Qed.

Lemma js_mallocz_fresh st :
  nodes st !! js_mallocz st = None /\ refcount st !! js_mallocz st = None.
Proof.
  unfold js_mallocz.
  pose proof (is_fresh (dom (nodes st) ∪ dom (refcount st))) as Hfresh.
  split; apply not_elem_of_dom; set_solver.
Qed.

(** ** Evaluation does not depend on a node that nobody refers to *)

Section Frame.
Context `{Runtime}.
Variable a : addr.

(** The runtime itself never hands out a reference to [a]. *)
Hypothesis property_no_reference : forall obj atom, no_reference a (JS_GetProperty obj atom).
Hypothesis underflow_no_reference : no_reference a arguments_underflow.

Lemma related_bind {A B : Type} (good : A -> Prop) (good' : B -> Prop) r1 r2
    (k1 k2 : A * State -> Outcome (B * State)) :
  related a good r1 r2 ->
  (forall x s1 s2, good x -> agree a s1 s2 -> related a good' (k1 (x, s1)) (k2 (x, s2))) ->
  related a good' (r1 ≫= k1) (r2 ≫= k2).
Proof.
  intros Hr Hk.
  destruct r1 as [[x1 s1]| | |], r2 as [[x2 s2]| | |]; simpl in *; try contradiction;
    try exact I.
  destruct Hr as (<- & Hgood & Hagree). apply Hk; assumption.
Qed.

Lemma agree_log e s1 s2 : agree a s1 s2 -> agree a (log e s1) (log e s2).
Proof.
  intros (Hu & Hn & Ht). split; [ exact Hu | split; [ exact Hn | ] ].
  simpl. rewrite Ht. reflexivity.
Qed.

#[local] Hint Resolve agree_log : frame.

Lemma agree_set_node p node s1 s2 :
  p <> a -> node_values node = [] -> agree a s1 s2 ->
  agree a (set_node p node s1) (set_node p node s2).
Proof.
  intros Hp Hvals (Hu & Hn & Ht). split; [ | split; [ | exact Ht ] ].
  - intros q node' Hq. simpl. destruct (decide (p = q)) as [<-|Hne].
    + rewrite lookup_insert_eq. intros [= <-]. rewrite Hvals. constructor.
    + rewrite lookup_insert_ne by exact Hne. apply Hu, Hq.
  - intros q Hq. simpl. destruct (decide (p = q)) as [<-|Hne].
    + rewrite !lookup_insert_eq. reflexivity.
    + rewrite !lookup_insert_ne by exact Hne. apply Hn, Hq.
Qed.

Lemma shift_no_reference args :
  Forall (no_reference a) args ->
  no_reference a (js_arguments_shift args).1 /\ Forall (no_reference a) (js_arguments_shift args).2.
Proof.
  intros Hargs. destruct args as [|x rest]; simpl.
  - split; [ exact underflow_no_reference | constructor ].
  - inversion Hargs; subst. split; assumption.
Qed.

Lemma capture_sink_agree arg capture groups : forall i s1 s2,
  agree a s1 s2 ->
  agree a (capture_sink arg capture i groups s1) (capture_sink arg capture i groups s2).
Proof.
  induction groups as [|groups IH]; intros i s1 s2 Hs; simpl; [ exact Hs | ].
  apply IH, agree_log, Hs.
Qed.

Lemma regexp_export_agree re capture capture_count result args s1 s2 :
  Forall (no_reference a) args -> agree a s1 s2 ->
  (regexp_export re capture capture_count result args s1).1
  = (regexp_export re capture capture_count result args s2).1
  /\ Forall (no_reference a) (regexp_export re capture capture_count result args s1).1
  /\ agree a (regexp_export re capture capture_count result args s1).2
           (regexp_export re capture capture_count result args s2).2.
Proof.
  intros Hargs Hs. unfold regexp_export.
  destruct (negb (result =? 0) && (1 <? args_c args)); [ | auto ].
  destruct (shift_no_reference args Hargs) as [_ Hrest].
  destruct (js_arguments_shift args) as [arg args']. simpl in Hrest.
  destruct (JS_IsFunction arg); simpl.
  { split; [ reflexivity | split; [ exact Hrest | apply agree_log, Hs ] ]. }
  destruct (JS_IsArray arg); simpl.
  - split; [ reflexivity | split; [ exact Hrest | ] ].
    apply capture_sink_agree, agree_log, Hs.
  - auto.
Qed.

Lemma predicate_regexp_compile_agree p s1 s2 :
  p <> a -> agree a s1 s2 ->
  related a any_result (predicate_regexp_compile p s1) (predicate_regexp_compile p s2).
Proof.
  intros Hp Hs. unfold predicate_regexp_compile.
  destruct Hs as (Hu & Hn & Ht) eqn:Hs'. clear Hs'. rewrite <- (Hn p Hp).
  destruct (nodes s1 !! p) as [[]|]; simpl; try exact I.
  destruct bytecode; simpl; [ exact I | ].
  assert (Hnext : agree a (set_node p (Pred_regexp expr (regexp_compile expr))
                           (log (EvCompile expr) s1))
                        (set_node p (Pred_regexp expr (regexp_compile expr))
                           (log (EvCompile expr) s2))).
  { apply agree_set_node; [ exact Hp | reflexivity | ].
    apply agree_log. split; [ exact Hu | split; [ exact Hn | exact Ht ] ]. }
  destruct (regexp_compile expr); simpl; (split; [ reflexivity | split; [ exact I | exact Hnext ] ]).
Qed.

Section FrameBody.
Variable eval : addr -> JSArguments -> State -> Result.
Hypothesis eval_agree : forall p args s1 s2,
  p <> a -> Forall (no_reference a) args -> agree a s1 s2 ->
  related a (good_cursor a) (eval p args s1) (eval p args s2).

Lemma predicate_call_with_agree value argv s1 s2 :
  no_reference a value -> Forall (no_reference a) argv -> agree a s1 s2 ->
  related a any_result (predicate_call_with eval value argv s1)
                     (predicate_call_with eval value argv s2).
Proof.
  intros Hv Hargv Hs. unfold predicate_call_with.
  destruct (js_predicate_data value) as [p|] eqn:Hd.
  - eapply related_bind.
    + apply eval_agree; [ intros ->; exact (Hv Hd) | exact Hargv | exact Hs ].
    + intros [v args] t1 t2 _ Ht. related_ok.
  - destruct (JS_IsFunction value); simpl.
    + split; [ reflexivity | split; [ exact I | apply agree_log, Hs ] ].
    + split; [ reflexivity | split; [ exact I | exact Hs ] ].
Qed.

Lemma predicate_value_with_agree value args s1 s2 :
  no_reference a value -> Forall (no_reference a) args -> agree a s1 s2 ->
  related a (good_cursor a) (predicate_value_with eval value args s1)
                      (predicate_value_with eval value args s2).
Proof.
  intros Hv Hargs Hs. unfold predicate_value_with.
  destruct (js_predicate_data value) as [p|] eqn:Hd.
  - apply eval_agree; [ intros ->; exact (Hv Hd) | exact Hargs | exact Hs ].
  - destruct (JS_IsFunction value).
    + eapply related_bind.
      * apply predicate_call_with_agree; [ exact Hv | exact Hargs | exact Hs ].
      * intros v t1 t2 _ Ht. related_ok.
    + related_ok.
Qed.

Lemma binary_operand_agree value args s1 s2 :
  no_reference a value -> Forall (no_reference a) args -> agree a s1 s2 ->
  related a (good_cursor a) (binary_operand eval value args s1)
                      (binary_operand eval value args s2).
Proof.
  intros Hv Hargs Hs. unfold binary_operand.
  destruct (js_is_null_or_undefined value).
  - destruct (shift_no_reference args Hargs) as [Hx Hrest].
    destruct (js_arguments_shift args) as [x rest].
    apply predicate_value_with_agree; assumption.
  - apply predicate_value_with_agree; assumption.
Qed.

Lemma or_loop_agree predicates : forall ret args s1 s2,
  Forall (no_reference a) predicates -> Forall (no_reference a) args -> agree a s1 s2 ->
  related a (good_cursor a) (or_loop eval predicates ret args s1)
                      (or_loop eval predicates ret args s2).
Proof.
  induction predicates as [|p rest IH]; intros ret args s1 s2 Hps Hargs Hs; simpl.
  - related_ok.
  - inversion Hps as [|? ? Hp Hrest]; subst. eapply related_bind.
    + apply predicate_value_with_agree; [ exact Hp | exact Hargs | exact Hs ].
    + intros [v args'] t1 t2 Hgood Ht. simpl.
      destruct (negb (JS_ToBool v =? 0)); [ related_ok | ].
      apply IH; assumption.
Qed.

Lemma and_loop_agree predicates : forall ret args s1 s2,
  Forall (no_reference a) predicates -> Forall (no_reference a) args -> agree a s1 s2 ->
  related a (good_cursor a) (and_loop eval predicates ret args s1)
                      (and_loop eval predicates ret args s2).
Proof.
  induction predicates as [|p rest IH]; intros ret args s1 s2 Hps Hargs Hs; simpl.
  - related_ok.
  - inversion Hps as [|? ? Hp Hrest]; subst. eapply related_bind.
    + apply predicate_value_with_agree; [ exact Hp | exact Hargs | exact Hs ].
    + intros [v args'] t1 t2 Hgood Ht. simpl.
      destruct (negb (c_not (JS_ToBool v) =? 0)); [ related_ok | ].
      apply IH; assumption.
Qed.

Lemma xor_loop_agree predicates : forall r args s1 s2,
  Forall (no_reference a) predicates -> Forall (no_reference a) args -> agree a s1 s2 ->
  related a (good_cursor a) (xor_loop eval predicates r args s1)
                      (xor_loop eval predicates r args s2).
Proof.
  induction predicates as [|p rest IH]; intros r args s1 s2 Hps Hargs Hs; simpl.
  - related_ok.
  - inversion Hps as [|? ? Hp Hrest]; subst. eapply related_bind.
    + apply predicate_value_with_agree; [ exact Hp | exact Hargs | exact Hs ].
    + intros [v args'] t1 t2 Hgood Ht. simpl. apply IH; assumption.
Qed.

Lemma predicate_eval_body_agree p args s1 s2 :
  p <> a -> Forall (no_reference a) args -> agree a s1 s2 ->
  related a (good_cursor a) (predicate_eval_body eval p args s1)
                      (predicate_eval_body eval p args s2).
Proof.
  intros Hp Hargs Hs. unfold predicate_eval_body.
  pose proof Hs as (Hu & Hn & Ht). rewrite <- (Hn p Hp).
  destruct (nodes s1 !! p) as [node|] eqn:Hnode; [ | exact I ].
  pose proof (Hu p node Hp Hnode) as Hvals.
  destruct (shift_no_reference args Hargs) as [Hx Hrest].
  destruct node as [type_flags | set chars | str | id operand | id lhs rhs
                   | id operands | expr bc | atom filter | object | n operand
                   | func this_val arity]; simpl in Hvals.
  - destruct (js_arguments_shift args) as [x rest]. related_ok.
  - destruct (js_arguments_shift args) as [x rest].
    destruct (vector_unset chars).
    + destruct (utf8_to_unicode set vector_init) as [ [n chars'] | ]; [ | exact I ].
      simpl. destruct (charset_loop _ _ chars'); [ | exact I ].
      simpl. split; [ reflexivity | split; [ exact Hrest | ] ].
      apply agree_set_node; [ exact Hp | reflexivity | exact Hs ].
    + simpl. destruct (charset_loop _ _ chars); [ related_ok | exact I ].
  - destruct (js_arguments_shift args) as [x rest].
    destruct (_ && _); related_ok.
  - inversion Hvals as [|? ? Hop _]; subst.
    destruct id;
      try (destruct (js_arguments_shift args) as [x rest]; related_ok);
      (eapply related_bind;
       [ apply predicate_value_with_agree; [ exact Hop | exact Hargs | exact Hs ]
       | intros [v args'] t1 t2 Hgood Ht'; related_ok ]).
  - inversion Hvals as [|? ? Hl Hvals']; subst.
    inversion Hvals' as [|? ? Hr _]; subst.
    eapply related_bind.
    + apply binary_operand_agree; [ exact Hl | exact Hargs | exact Hs ].
    + intros [v0 args0] t1 t2 Hgood0 Ht0. simpl. eapply related_bind.
      * apply binary_operand_agree; [ exact Hr | exact Hgood0 | exact Ht0 ].
      * intros [v1 args1] u1 u2 Hgood1 Hu1. related_ok.
  - destruct id.
    + apply or_loop_agree; assumption.
    + apply and_loop_agree; assumption.
    + eapply related_bind.
      * apply xor_loop_agree; [ exact Hvals | exact Hargs | exact Hs ].
      * intros [r args'] t1 t2 Hgood Ht'. related_ok.
  - destruct (js_arguments_shift args) as [re rest]. simpl in Hx, Hrest.
    eapply related_bind.
    + instantiate (1 := any_result). destruct bc.
      * related_ok.
      * apply predicate_regexp_compile_agree; assumption.
    + intros capture_count t1 t2 _ Ht'. cbv beta iota.
      pose proof Ht' as (_ & Hn' & _). rewrite <- (Hn' p Hp).
      set (stored := match nodes t1 !! p with
                     | Some (Pred_regexp _ bc0) => bc0
                     | _ => None
                     end).
      destruct (lre_exec stored (js_input_chars re)) as [result capture].
      destruct (regexp_export_agree re capture capture_count result rest
                  (log (EvExec stored (js_input_chars re)) t1)
                  (log (EvExec stored (js_input_chars re)) t2)
                  Hrest (agree_log _ _ _ Ht')) as (Hargs' & Hgood' & Hagree').
      destruct (regexp_export re capture capture_count result rest
                  (log (EvExec stored (js_input_chars re)) t1)) as [args1 u1].
      destruct (regexp_export re capture capture_count result rest
                  (log (EvExec stored (js_input_chars re)) t2)) as [args2 u2].
      simpl in *. subst args2. related_ok.
  - destruct (js_arguments_shift args) as [obj rest]. simpl in Hx, Hrest.
    inversion Hvals as [|? ? Hf _]; subst.
    destruct (JS_IsObject obj); [ | related_ok ].
    destruct (_ && _); [ | related_ok ].
    eapply related_bind.
    + apply predicate_call_with_agree; [ exact Hf | | exact Hs ].
      constructor; [ apply property_no_reference | constructor ].
    + intros result t1 t2 _ Ht'. related_ok.
  - destruct (js_arguments_shift args) as [member rest].
    destruct (negb _); related_ok.
  - inversion Hvals as [|? ? Hop _]; subst.
    destruct (n <=? args_c args); [ | related_ok ].
    apply predicate_value_with_agree; [ exact Hop | | exact Hs ].
    apply Forall_drop, Hargs.
  - assert (Hfill : forall fuel i argv args0, Forall (no_reference a) args0 ->
              Forall (no_reference a) (function_argv fuel i arity argv args0).2).
    { induction fuel as [|fuel IH]; intros i argv args0 Hargs0; simpl; [ exact Hargs0 | ].
      destruct (Z.of_nat i <? arity); [ | exact Hargs0 ].
      destruct (shift_no_reference args0 Hargs0) as [_ Hrest0].
      destruct (js_arguments_shift args0) as [x rest0]. apply IH, Hrest0. }
    specialize (Hfill (Z.to_nat arity) 0%nat (replicate (Z.to_nat arity) None) args Hargs).
    destruct (function_argv _ _ _ _ _) as [argv args']. related_ok.
Qed.
End FrameBody.

(** Two states that agree a but for the node at [a] give the same
    evaluation of every node other than [a]: the same value, the same
    cursor, the same calls, and states that agree a again. *)
Theorem predicate_eval_agree fuel : forall p args s1 s2,
  p <> a -> Forall (no_reference a) args -> agree a s1 s2 ->
  related a (good_cursor a) (predicate_eval fuel p args s1) (predicate_eval fuel p args s2).
Proof.
  induction fuel as [|fuel IH]; intros p args s1 s2 Hp Hargs Hs; [ exact I | ].
  rewrite !predicate_eval_unfold. apply predicate_eval_body_agree; assumption.
Qed.
End Frame.

Lemma node_values_clone node : node_values (clone_node node) = node_values node.
Proof. destruct node; reflexivity. Qed.

Lemma occurrences_positive values p :
  (0 < occurrences values p)%nat -> exists v, v ∈ values /\ object_addr v = Some p.
Proof.
  induction values as [|v rest IH]; [ unfold occurrences; simpl; lia | ].
  rewrite occurrences_cons. destruct (decide (object_addr v = Some p)) as [Heq|Hne].
  - intros _. exists v. split; [ left | exact Heq ].
  - rewrite bool_decide_eq_false_2 by exact Hne. intros Hpos.
    destruct (IH Hpos) as (w & Hw & Hwp). exists w. split; [ right; exact Hw | exact Hwp ].
Qed.

(** ** The renderers and the counter do not read a node that nobody
    refers to *)

Section SourceFrame.
Context `{Printer}.
Variable a : addr.
Variables store1 store2 : gmap addr Predicate.
Hypothesis store_unreferenced : unreferenced a store1.
Hypothesis store_same : forall p, p <> a -> store1 !! p = store2 !! p.

Lemma operand_parens_frame prec v :
  no_reference a v -> operand_parens store1 prec v = operand_parens store2 prec v.
Proof.
  unfold operand_parens, no_reference.
  destruct (js_predicate_data v) as [other|]; [ | reflexivity ].
  intros Hv. rewrite store_same by congruence. reflexivity.
Qed.

Section SourceBody.
Variables tosource1 tosource2
  : addr -> list byte -> Arguments -> Outcome (list byte * Arguments).
Hypothesis tosource_same : forall p dbuf args,
  p <> a -> tosource1 p dbuf args = tosource2 p dbuf args.

Lemma predicate_inspect_frame v dbuf args parens :
  no_reference a v ->
  predicate_inspect tosource1 v dbuf args parens
  = predicate_inspect tosource2 v dbuf args parens.
Proof.
  unfold predicate_inspect, no_reference.
  destruct (js_is_null_or_undefined v); [ reflexivity | ].
  destruct (js_predicate_data v) as [other|]; [ | reflexivity ].
  intros Hv. rewrite tosource_same by congruence. reflexivity.
Qed.

Lemma boolean_tosource_frame op prec predicates :
  Forall (no_reference a) predicates ->
  forall i dbuf args,
    boolean_tosource store1 tosource1 op prec i predicates dbuf args
    = boolean_tosource store2 tosource2 op prec i predicates dbuf args.
Proof.
  induction 1 as [|v predicates Hv _ IH]; intros i dbuf args; simpl; [ reflexivity | ].
  rewrite (operand_parens_frame prec v Hv).
  destruct (operand_parens store2 prec v) as [parens| | |]; simpl; try reflexivity.
  rewrite (predicate_inspect_frame v _ args parens Hv).
  destruct (predicate_inspect tosource2 v _ args parens) as [[text names]| | |];
    simpl; [ apply IH | reflexivity .. ].
Qed.

Lemma predicate_tosource_body_frame p dbuf args :
  p <> a ->
  predicate_tosource_body store1 tosource1 p dbuf args
  = predicate_tosource_body store2 tosource2 p dbuf args.
Proof.
  intros Hp. unfold predicate_tosource_body. rewrite <- (store_same p Hp).
  destruct (store1 !! p) as [node|] eqn:Hnode; [ | reflexivity ].
  pose proof (store_unreferenced p node Hp Hnode) as Hvals.
  destruct node as [type_flags | set chars | str | id operand | id lhs rhs
                   | id operands | expr bc | atom filter | object | n operand
                   | func this_val arity]; simpl in Hvals; try reflexivity.
  - inversion Hvals as [|? ? Hop _]; subst.
    destruct id; try reflexivity;
      destruct (arguments_push args _) as [arg names];
      now rewrite (predicate_inspect_frame operand _ names false Hop).
  - inversion Hvals as [|? ? Hl Hvals']; subst.
    inversion Hvals' as [|? ? Hr _]; subst.
    destruct (predicate_precedence (Pred_binary id lhs rhs)) as [prec| | |];
      simpl; try reflexivity.
    rewrite (operand_parens_frame prec lhs Hl), (operand_parens_frame prec rhs Hr).
    destruct (operand_parens store2 prec lhs) as [parens0| | |]; simpl; try reflexivity.
    destruct (operand_parens store2 prec rhs) as [parens1| | |]; simpl; try reflexivity.
    rewrite (predicate_inspect_frame lhs dbuf args parens0 Hl).
    destruct (predicate_inspect tosource2 lhs dbuf args parens0) as [[text names]| | |];
      simpl; try reflexivity.
    now rewrite (predicate_inspect_frame rhs _ names parens1 Hr).
  - destruct (predicate_precedence (Pred_boolean id operands)) as [prec| | |];
      simpl; try reflexivity.
    now rewrite (boolean_tosource_frame _ prec operands Hvals).
Qed.
End SourceBody.

Lemma predicate_tosource_names_frame fuel : forall p dbuf args,
  p <> a ->
  predicate_tosource_names fuel store1 p dbuf args
  = predicate_tosource_names fuel store2 p dbuf args.
Proof.
  induction fuel as [|fuel IH]; intros p dbuf args Hp; [ reflexivity | ].
  simpl. apply predicate_tosource_body_frame; [ | exact Hp ].
  intros q text names Hq. now apply IH.
Qed.
End SourceFrame.

Section CountFrame.
Context `{Runtime}.
Variable a : addr.
Variables store1 store2 : gmap addr Predicate.
Hypothesis store_unreferenced : unreferenced a store1.
Hypothesis store_same : forall p, p <> a -> store1 !! p = store2 !! p.
Hypothesis view_no_reference : forall node, no_reference a (union_unary_view node).

Section CountBody.
Variables count1 count2 : addr -> Outcome Z.
Hypothesis count_same : forall p, p <> a -> count1 p = count2 p.

Lemma operand_num_args_frame v :
  no_reference a v -> operand_num_args count1 v = operand_num_args count2 v.
Proof.
  unfold operand_num_args, no_reference.
  destruct (js_is_null_or_undefined v); [ reflexivity | ].
  destruct (js_predicate_data v) as [other|]; [ | reflexivity ].
  intros Hv. apply count_same. congruence.
Qed.

Lemma boolean_num_args_frame predicates :
  Forall (no_reference a) predicates ->
  forall n, boolean_num_args count1 predicates n = boolean_num_args count2 predicates n.
Proof.
  induction 1 as [|v predicates Hv _ IH]; intros n; simpl; [ reflexivity | ].
  unfold no_reference in Hv.
  destruct (js_predicate_data v) as [other|]; [ | apply IH ].
  rewrite count_same by congruence.
  destruct (count2 other) as [m| | |]; simpl; [ apply IH | reflexivity .. ].
Qed.

Lemma predicate_recursive_num_args_body_frame p :
  p <> a ->
  predicate_recursive_num_args_body store1 count1 p
  = predicate_recursive_num_args_body store2 count2 p.
Proof.
  intros Hp. unfold predicate_recursive_num_args_body. rewrite <- (store_same p Hp).
  destruct (store1 !! p) as [node|] eqn:Hnode; [ | reflexivity ].
  pose proof (store_unreferenced p node Hp Hnode) as Hvals.
  destruct node as [type_flags | set chars | str | id operand | id lhs rhs
                   | id operands | expr bc | atom filter | object | n operand
                   | func this_val arity]; simpl in Hvals; try reflexivity;
    try (apply operand_num_args_frame, view_no_reference).
  - inversion Hvals; subst. now apply operand_num_args_frame.
  - inversion Hvals as [|? ? Hl Hvals']; subst.
    inversion Hvals' as [|? ? Hr _]; subst.
    now rewrite (operand_num_args_frame lhs Hl), (operand_num_args_frame rhs Hr).
  - now apply boolean_num_args_frame.
  - inversion Hvals; subst. now rewrite (operand_num_args_frame filter).
Qed.
End CountBody.

Lemma predicate_recursive_num_args_frame fuel : forall p,
  p <> a ->
  predicate_recursive_num_args fuel store1 p = predicate_recursive_num_args fuel store2 p.
Proof.
  induction fuel as [|fuel IH]; intros p Hp; [ reflexivity | ].
  simpl. apply predicate_recursive_num_args_body_frame; [ | exact Hp ].
  intros q Hq. now apply IH.
Qed.
End CountFrame.

Section CloneFree.
Context `{Runtime}.

End CloneFree.



(** * Further properties of the evaluator *)

(** ** String nodes *)

Lemma take_is_prefix {A : Type} (l input : list A) :
  (length l <= length input)%nat /\ take (length l) input = l <-> l `prefix_of` input.
Proof.
  split.
  - intros [_ Htake]. exists (drop (length l) input).
    rewrite <- Htake at 1. symmetry. apply take_drop.
  - intros [k ->]. split.
    + rewrite length_app. lia.
    + now rewrite take_app_length.
Qed.

(** X1. A String node takes one argument and answers 1 exactly when its
    literal is a prefix of the bytes of the argument; otherwise it answers
    the undefined marker (not 0, not false).  The state is untouched. *)
Theorem string_eval_is_prefix_test `{Runtime} fuel pr str args st :
  nodes st !! pr = Some (Pred_string str) ->
  predicate_eval (S fuel) pr args st =
  Ok (if bool_decide (str `prefix_of` js_input_chars (js_arguments_shift args).1)
      then JS_NewInt32 1 else JS_UNDEFINED,
      (js_arguments_shift args).2, st).
Proof.
  intros Hnode. rewrite predicate_eval_unfold. unfold predicate_eval_body.
  rewrite Hnode. destruct (js_arguments_shift args) as [arg rest]. simpl.
  set (input := js_input_chars arg).
  destruct (bool_decide (str `prefix_of` input)) eqn:Hprefix.
  - apply bool_decide_eq_true in Hprefix. apply take_is_prefix in Hprefix as [Hlen Htake].
    apply Nat.leb_le in Hlen. rewrite Hlen. rewrite (bool_decide_eq_true_2 _ Htake).
    reflexivity.
  - apply bool_decide_eq_false in Hprefix.
    destruct (length str <=? length input)%nat eqn:Hlen; [ | reflexivity ].
    destruct (bool_decide (take (length str) input = str)) eqn:Htake; [ | reflexivity ].
    exfalso. apply Hprefix. apply take_is_prefix. split.
    + now apply Nat.leb_le.
    + now apply bool_decide_eq_true in Htake.
Qed.

Lemma string_eval_is_prefix_test_witness :
  let st := Example.state_of [(1%nat, Pred_string (Example.bytes "ab"))] in
  @predicate_eval Example.runtime 1 1%nat [JS_String (Example.bytes "abc"); JS_Int32 7] st =
    Ok (JS_Int32 1, [JS_Int32 7], st)
  /\ @predicate_eval Example.runtime 1 1%nat [JS_String (Example.bytes "a")] st =
    Ok (JS_UNDEFINED, [], st).
Proof.
  intros st. split.
  - rewrite (@string_eval_is_prefix_test Example.runtime 0 1%nat (Example.bytes "ab") _ st eq_refl).
    reflexivity.
  - rewrite (@string_eval_is_prefix_test Example.runtime 0 1%nat (Example.bytes "ab") _ st eq_refl).
    reflexivity.
Defined.

(** ** Assertions and the cursor *)

Lemma js_arguments_shift_suffix `{Runtime} (args : JSArguments) :
  (js_arguments_shift args).2 `suffix_of` args.
Proof.
  destruct args as [ | x rest ]; simpl.
  - reflexivity.
  - apply suffix_cons_r. reflexivity.
Qed.

Lemma function_argv_suffix `{Runtime} fuel i nargs argv (args : JSArguments) :
  (function_argv fuel i nargs argv args).2 `suffix_of` args.
Proof.
  revert i argv args. induction fuel as [ | fuel IH ]; intros i argv args; simpl.
  - reflexivity.
  - destruct (Z.of_nat i <? nargs); [ | reflexivity ].
    pose proof (js_arguments_shift_suffix args) as Hshift.
    destruct (js_arguments_shift args) as [x args']. simpl in Hshift.
    etrans; [ apply IH | exact Hshift ].
Qed.

Lemma regexp_export_suffix `{Runtime} re capture capture_count result
    (args : JSArguments) st :
  (regexp_export re capture capture_count result args st).1 `suffix_of` args.
Proof.
  unfold regexp_export.
  destruct (negb (result =? 0) && (1 <? args_c args)); [ | reflexivity ].
  pose proof (js_arguments_shift_suffix args) as Hshift.
  destruct (js_arguments_shift args) as [arg args']. simpl in Hshift.
  destruct (JS_IsFunction arg); [ exact Hshift | ].
  destruct (JS_IsArray arg); exact Hshift.
Qed.

Lemma sound_outcome_weaken {A : Type} (args args' : JSArguments)
    (r : Outcome (A * JSArguments * State)) :
  args' `suffix_of` args -> sound_outcome args' r -> sound_outcome args r.
Proof.
  intros Hsuffix. destruct r as [ [[v a] s] | | | ]; simpl; try tauto.
  intros Ha. etrans; eassumption.
Qed.

Lemma sound_outcome_bind {A B : Type} (args : JSArguments)
    (m : Outcome (A * JSArguments * State))
    (f : A * JSArguments * State -> Outcome (B * JSArguments * State)) :
  sound_outcome args m ->
  (forall v a s, a `suffix_of` args -> sound_outcome a (f (v, a, s))) ->
  sound_outcome args (m ≫= f).
Proof.
  intros Hm Hf. destruct m as [ [[v a] s] | | | ]; simpl in *; try tauto.
  apply (sound_outcome_weaken args a); [ exact Hm | apply Hf, Hm ].
Qed.

Section Sound.
Context `{Runtime}.
Variable eval : addr -> JSArguments -> State -> Result.
Hypothesis eval_sound : forall pr args st, sound_outcome args (eval pr args st).

Lemma predicate_call_with_sound value argv st :
  aborted (predicate_call_with eval value argv st) = false.
Proof.
  unfold predicate_call_with. destruct (js_predicate_data value) as [ pr | ].
  - pose proof (eval_sound pr (js_arguments_new argv) st) as Hrun.
    destruct (eval pr (js_arguments_new argv) st) as [ [[ret a] s] | | | ];
      simpl in *; tauto.
  - destruct (JS_IsFunction value); reflexivity.
Qed.

Lemma predicate_value_with_sound value args st :
  sound_outcome args (predicate_value_with eval value args st).
Proof.
  unfold predicate_value_with. destruct (js_predicate_data value) as [ pr | ] eqn:Hdata.
  - apply eval_sound.
  - destruct (JS_IsFunction value).
    + pose proof (predicate_call_with_sound value args st) as Hcall.
      destruct (predicate_call_with eval value args st) as [ [ret s] | | | ];
        simpl in *; try discriminate; try exact I.
      reflexivity.
    + simpl. reflexivity.
Qed.

Lemma binary_operand_sound value args st :
  sound_outcome args (binary_operand eval value args st).
Proof.
  unfold binary_operand. destruct (js_is_null_or_undefined value).
  - pose proof (js_arguments_shift_suffix args) as Hshift.
    destruct (js_arguments_shift args) as [x args']. simpl in Hshift.
    apply (sound_outcome_weaken args args'); [ exact Hshift | ].
    apply predicate_value_with_sound.
  - apply predicate_value_with_sound.
Qed.

Lemma or_loop_sound predicates ret args st :
  sound_outcome args (or_loop eval predicates ret args st).
Proof.
  revert ret args st. induction predicates as [ | p rest IH ]; intros ret args st; simpl.
  - reflexivity.
  - apply sound_outcome_bind; [ apply predicate_value_with_sound | ].
    intros v a s _. destruct (negb (JS_ToBool v =? 0)); [ simpl; reflexivity | apply IH ].
Qed.

Lemma and_loop_sound predicates ret args st :
  sound_outcome args (and_loop eval predicates ret args st).
Proof.
  revert ret args st. induction predicates as [ | p rest IH ]; intros ret args st; simpl.
  - reflexivity.
  - apply sound_outcome_bind; [ apply predicate_value_with_sound | ].
    intros v a s _. destruct (negb (c_not (JS_ToBool v) =? 0)); [ simpl; reflexivity | apply IH ].
Qed.

Lemma xor_loop_sound predicates r args st :
  sound_outcome args (xor_loop eval predicates r args st).
Proof.
  revert r args st. induction predicates as [ | p rest IH ]; intros r args st; simpl.
  - reflexivity.
  - apply sound_outcome_bind; [ apply predicate_value_with_sound | ].
    intros v a s _. apply IH.
Qed.

Lemma predicate_eval_body_sound pr args st :
  sound_outcome args (predicate_eval_body eval pr args st).
Proof.
  unfold predicate_eval_body.
  pose proof (js_arguments_shift_suffix args) as Hshift.
  destruct (nodes st !! pr) as [ node | ] eqn:Hnode; [ | exact I ].
  destruct node as [ type_flags | set chars | str | id operand | id lhs rhs
                   | id predicates | expr bytecode | atom filter | object
                   | n operand | func this_val arity ].
  - destruct (js_arguments_shift args) as [arg rest]. exact Hshift.
  - destruct (js_arguments_shift args) as [arg rest].
    destruct (vector_unset chars);
      [ destruct (utf8_to_unicode set vector_init) as [ [n chars'] | ]; [ | exact I ];
        simpl; destruct (charset_loop _ _ chars')
      | simpl; destruct (charset_loop _ _ chars) ];
      first [ exact Hshift | exact I ].
  - destruct (js_arguments_shift args) as [arg rest].
    destruct (_ && _); exact Hshift.
  - destruct id;
      try (apply sound_outcome_bind; [ apply predicate_value_with_sound | ];
           intros v a s _; simpl; reflexivity);
      destruct (js_arguments_shift args) as [arg rest]; exact Hshift.
  - apply sound_outcome_bind; [ apply binary_operand_sound | ].
    intros v0 a0 s0 _.
    apply sound_outcome_bind; [ apply binary_operand_sound | ].
    intros v1 a1 s1 _. simpl. reflexivity.
  - destruct id.
    + apply or_loop_sound.
    + apply and_loop_sound.
    + apply sound_outcome_bind; [ apply xor_loop_sound | ].
      intros r a s _. simpl. reflexivity.
  - destruct (js_arguments_shift args) as [re rest]. simpl in Hshift.
    destruct bytecode as [ bc | ].
    + simpl. rewrite Hnode.
      destruct (lre_exec (Some bc) (js_input_chars re)) as [result capture].
      pose proof (regexp_export_suffix re capture 0 result rest
                    (log (EvExec (Some bc) (js_input_chars re)) st)) as Hexport.
      destruct (regexp_export re capture 0 result rest _) as [rest' st'].
      simpl in *. etrans; eassumption.
    + unfold predicate_regexp_compile. rewrite Hnode.
      set (st1 := set_node pr _ _).
      assert (Hst1 : forall n, sound_outcome args
                (Ok (n, st1) ≫= fun '(capture_count, st0) =>
                   let bytecode := match nodes st0 !! pr with
                                   | Some (Pred_regexp _ bc) => bc
                                   | _ => None
                                   end in
                   let '(result, capture) := lre_exec bytecode (js_input_chars re) in
                   let st2 := log (EvExec bytecode (js_input_chars re)) st0 in
                   let '(args0, st3) :=
                     regexp_export re capture capture_count result rest st2 in
                   Ok (JS_NewBool result, args0, st3))).
      { intros n. simpl.
        destruct (lre_exec _ (js_input_chars re)) as [result capture].
        match goal with
        | |- context [regexp_export ?a ?b ?c ?d ?e ?f] =>
            pose proof (regexp_export_suffix a b c d e f) as Hexport;
            destruct (regexp_export a b c d e f) as [rest' st']
        end.
        simpl in *. etrans; eassumption. }
      destruct (regexp_compile expr); apply Hst1.
  - destruct (js_arguments_shift args) as [obj rest]. simpl in Hshift.
    destruct (JS_IsObject obj); [ | exact Hshift ].
    destruct (negb (js_is_null_or_undefined filter) && predicate_callable filter);
      [ | exact Hshift ].
    pose proof (predicate_call_with_sound filter [JS_GetProperty obj atom] st) as Hcall.
    destruct (predicate_call_with eval filter [JS_GetProperty obj atom] st)
      as [ [ret s] | | | ]; simpl in *; try discriminate; try exact I.
    exact Hshift.
  - destruct (js_arguments_shift args) as [member rest].
    destruct (negb _); exact Hshift.
  - destruct (n <=? args_c args); [ | simpl; reflexivity ].
    apply (sound_outcome_weaken args (js_arguments_shiftn args n)).
    + unfold js_arguments_shiftn. apply suffix_drop.
    + apply predicate_value_with_sound.
  - pose proof (function_argv_suffix (Z.to_nat arity) 0 arity
                  (replicate (Z.to_nat arity) None) args) as Hargv.
    destruct (function_argv _ _ _ _ args) as [argv rest]. exact Hargv.
Qed.
End Sound.

Lemma predicate_eval_sound `{Runtime} fuel pr args st :
  sound_outcome args (predicate_eval fuel pr args st).
Proof.
  revert pr args st. induction fuel as [ | fuel IH ]; intros pr args st.
  - exact I.
  - rewrite predicate_eval_unfold. now apply predicate_eval_body_sound.
Qed.

(** X3. An evaluation only takes arguments off the front of the cursor:
    the cursor it leaves is the cursor it was given without the arguments
    taken, whatever the tree. *)
Theorem predicate_eval_leaves_a_suffix `{Runtime} fuel pr args st v args' st' :
  predicate_eval fuel pr args st = Ok (v, args', st') ->
  exists taken, args = taken ++ args'.
Proof.
  intros Hrun. pose proof (predicate_eval_sound fuel pr args st) as Hsound.
  rewrite Hrun in Hsound. exact Hsound.
Qed.

Lemma predicate_eval_leaves_a_suffix_witness :
  let st := Example.state_of
              [(1%nat, Pred_binary PREDICATE_ADD JS_UNDEFINED (Example.pred 2));
               (2%nat, Pred_type 8)] in
  @predicate_eval Example.runtime 2 1%nat [JS_Int32 1; JS_Int32 2; JS_Int32 3] st =
    Ok (JS_Float64 2, [JS_Int32 3], st)
  /\ exists taken, [JS_Int32 1; JS_Int32 2; JS_Int32 3] = taken ++ [JS_Int32 3].
Proof.
  intros st.
  assert (Hrun : @predicate_eval Example.runtime 2 1%nat
                   [JS_Int32 1; JS_Int32 2; JS_Int32 3] st =
                 Ok (JS_Float64 2, [JS_Int32 3], st)) by (vm_compute; reflexivity).
  split; [ exact Hrun | ].
  exact (@predicate_eval_leaves_a_suffix Example.runtime _ _ _ _ _ _ _ Hrun).
Defined.

(** ** What an evaluation changes *)

Lemma node_fills_values `{Runtime} node node' :
  node_fills node node' -> node_values node' = node_values node.
Proof. now destruct 1. Qed.

(** X4. An evaluation writes into a node only to fill one of the two
    lazy caches: it only adds to the trace, and a node that is there
    before and after is afterwards what it was, or what it was with its
    unset cache filled from its own literal; its operands stay as they
    are.  (Which objects are alive afterwards is a matter of the
    reference counts, which the evaluator does not follow.) *)
Theorem predicate_eval_only_fills_caches `{Runtime} fuel pr args st v args' st' :
  predicate_eval fuel pr args st = Ok (v, args', st') ->
  trace st `prefix_of` trace st'
  /\ (forall q node node',
        nodes st !! q = Some node -> nodes st' !! q = Some node' ->
        node_fills node node' /\ node_values node' = node_values node).
Proof.
  intros Hrun. apply predicate_eval_fills in Hrun as (Hnodes & _ & Htrace).
  split; [ exact Htrace | ].
  intros q node node' Hq Hq'. specialize (Hnodes q). rewrite Hq, Hq' in Hnodes.
  inversion Hnodes as [ node0 node1 Hfills Heq0 Heq' | ]; subst.
  split; [ exact Hfills | ]. now apply node_fills_values.
Qed.

Lemma predicate_eval_only_fills_caches_witness :
  let st := Example.state_of
              [(1%nat, Pred_boolean PREDICATE_AND [Example.pred 2; Example.pred 3]);
               (2%nat, Pred_charset (Example.bytes "ab") None);
               (3%nat, Pred_regexp {| source := Example.bytes "b"; flags := 0 |} None)] in
  let args := [JS_String (Example.bytes "ba"); JS_String (Example.bytes "bc")] in
  exists v args' st' node',
    @predicate_eval Example.runtime 2 1%nat args st = Ok (v, args', st')
    /\ trace st `prefix_of` trace st'
    /\ nodes st' !! 2%nat = Some (Pred_charset (Example.bytes "ab") (Some [97; 98]))
    /\ nodes st' !! 1%nat = Some node'
    /\ node_values node' = [Example.pred 2; Example.pred 3].
Proof.
  intros st args.
  destruct (@predicate_eval Example.runtime 2 1%nat args st) as [ [[v args'] st'] | | | ] eqn:Hrun;
    try (vm_compute in Hrun; discriminate).
  destruct (nodes st' !! 1%nat) as [ node' | ] eqn:Hq;
    [ | vm_compute in Hrun; injection Hrun as _ _ <-; vm_compute in Hq; discriminate ].
  exists v, args', st', node'. split; [ reflexivity | ].
  destruct (@predicate_eval_only_fills_caches Example.runtime _ _ _ _ _ _ _ Hrun)
    as (Htrace & Hkept).
  split; [ exact Htrace | ]. split.
  - vm_compute in Hrun. injection Hrun as _ _ <-. vm_compute. reflexivity.
  - split; [ exact Hq | ].
    exact (proj2 (Hkept 1%nat _ node' eq_refl Hq)).
Defined.

(** ** Not and NotNot *)

(** X5. A Not node and a NotNot node over the same operand end alike,
    and when they answer, they answer opposite booleans, on the same
    cursor and in the same state. *)
Theorem not_and_notnot_are_opposite `{Runtime} fuel p q operand args st :
  nodes st !! p = Some (Pred_unary PREDICATE_NOT operand) ->
  nodes st !! q = Some (Pred_unary PREDICATE_NOTNOT operand) ->
  match predicate_eval (S fuel) p args st, predicate_eval (S fuel) q args st with
  | Ok (v1, a1, s1), Ok (v2, a2, s2) =>
      exists b, v1 = JS_Bool b /\ v2 = JS_Bool (negb b) /\ a1 = a2 /\ s1 = s2
  | AssertFail, AssertFail | Fault, Fault | OutOfFuel, OutOfFuel => True
  | _, _ => False
  end.
Proof.
  intros Hp Hq. rewrite !predicate_eval_unfold. unfold predicate_eval_body.
  rewrite Hp, Hq.
  destruct (predicate_value_with (predicate_eval fuel) operand args st)
    as [ [[v a] s] | | | ]; simpl; try exact I.
  exists (negb (c_not (JS_ToBool v) =? 0)). unfold JS_NewBool, c_not.
  destruct (JS_ToBool v =? 0); simpl; auto.
Qed.

Lemma not_and_notnot_are_opposite_witness :
  let st := Example.state_of
              [(1%nat, Pred_unary PREDICATE_NOT (Example.pred 3));
               (2%nat, Pred_unary PREDICATE_NOTNOT (Example.pred 3));
               (3%nat, Pred_type 8)] in
  match @predicate_eval Example.runtime 2 1%nat [JS_Int32 5] st,
        @predicate_eval Example.runtime 2 2%nat [JS_Int32 5] st with
  | Ok (v1, a1, s1), Ok (v2, a2, s2) =>
      exists b, v1 = JS_Bool b /\ v2 = JS_Bool (negb b) /\ a1 = a2 /\ s1 = s2
  | AssertFail, AssertFail | Fault, Fault | OutOfFuel, OutOfFuel => True
  | _, _ => False
  end.
Proof.
  intros st.
  exact (@not_and_notnot_are_opposite Example.runtime 1 1%nat 2%nat (Example.pred 3)
           [JS_Int32 5] st eq_refl eq_refl).
Defined.

(** ** Regex nodes *)

(** X6. The captures of a match are exported only by the evaluation that
    compiles the pattern: [capture_count] is set by
    [predicate_regexp_compile] alone, so on a node that is already
    compiled a callback receives an empty buffer and an array sink is
    set to length 0 and gets no entry. *)
Theorem regexp_compiled_exports_no_capture `{Runtime} fuel pr expr bc re arg next rest st :
  nodes st !! pr = Some (Pred_regexp expr (Some bc)) ->
  (lre_exec (Some bc) (js_input_chars re)).1 <> 0 ->
  JS_IsFunction arg || JS_IsArray arg = true ->
  predicate_eval (S fuel) pr (re :: arg :: next :: rest) st =
  Ok (JS_Bool true, next :: rest,
      log (if JS_IsFunction arg
           then EvCall arg JS_NULL 2 [Some (JS_ArrayBufferU32 []); Some re]
           else EvSetLength arg 0)
        (log (EvExec (Some bc) (js_input_chars re)) st)).
Proof.
  intros Hnode Hmatch Hsink. rewrite predicate_eval_unfold. unfold predicate_eval_body.
  rewrite Hnode. simpl. rewrite Hnode.
  destruct (lre_exec (Some bc) (js_input_chars re)) as [result capture]. simpl in Hmatch.
  unfold regexp_export.
  assert (Hresult : (result =? 0) = false) by now apply Z.eqb_neq.
  rewrite Hresult.
  replace (1 <? args_c (arg :: next :: rest)) with true
    by (symmetry; apply Z.ltb_lt; unfold args_c; simpl length; lia).
  simpl. unfold JS_NewBool. rewrite Hresult. simpl.
  destruct (JS_IsFunction arg); [ reflexivity | ].
  simpl in Hsink. rewrite Hsink. reflexivity.
Qed.

Lemma regexp_compiled_exports_no_capture_witness :
  let expr := {| source := Example.bytes "ab"; flags := 0 |} in
  let st := Example.state_of [(1%nat, Pred_regexp expr (Some (Example.bytes "ab")))] in
  let re := JS_String (Example.bytes "abc") in
  @predicate_eval Example.runtime 1 1%nat [re; Example.fn 9; JS_Int32 0] st =
  Ok (JS_Bool true, [JS_Int32 0],
      log (EvCall (Example.fn 9) JS_NULL 2 [Some (JS_ArrayBufferU32 []); Some re])
        (log (EvExec (Some (Example.bytes "ab")) (Example.bytes "abc")) st)).
Proof.
  intros expr st re.
  refine (@regexp_compiled_exports_no_capture Example.runtime 0 1%nat expr
            (Example.bytes "ab") re (Example.fn 9) (JS_Int32 0) [] st eq_refl _ eq_refl).
  vm_compute. discriminate.
Defined.

(** X7. The argument after the input is only looked at when a further
    argument follows it ([args->c > 1] once the input is taken): on a
    cursor that holds the input and one more argument, that argument is
    neither taken nor called nor filled, match or no match. *)
Theorem regexp_last_argument_is_ignored `{Runtime} fuel pr expr bytecode re arg st :
  nodes st !! pr = Some (Pred_regexp expr bytecode) ->
  let stored := match bytecode with Some bc => Some bc | None => regexp_compile expr end in
  let st1 := match bytecode with
             | Some _ => st
             | None => set_node pr (Pred_regexp expr stored) (log (EvCompile expr) st)
             end in
  predicate_eval (S fuel) pr [re; arg] st =
  Ok (JS_NewBool (lre_exec stored (js_input_chars re)).1, [arg],
      log (EvExec stored (js_input_chars re)) st1).
Proof.
  intros Hnode stored st1. rewrite predicate_eval_unfold. unfold predicate_eval_body.
  rewrite Hnode. simpl.
  assert (Hexport : forall capture capture_count result st0,
            regexp_export re capture capture_count result [arg] st0 = ([arg], st0)).
  { intros. unfold regexp_export.
    replace (1 <? args_c [arg]) with false by reflexivity.
    now rewrite andb_false_r. }
  destruct bytecode as [ bc | ].
  - simpl. rewrite Hnode. subst stored st1.
    destruct (lre_exec (Some bc) (js_input_chars re)) as [result capture].
    rewrite Hexport. reflexivity.
  - unfold predicate_regexp_compile. rewrite Hnode. subst stored st1.
    destruct (regexp_compile expr) as [ bc | ]; simpl;
      rewrite lookup_insert_eq;
      destruct (lre_exec _ (js_input_chars re)) as [result capture];
      rewrite Hexport; reflexivity.
Qed.

Lemma regexp_last_argument_is_ignored_witness :
  let expr := {| source := Example.bytes "ab"; flags := 0 |} in
  let st := Example.state_of [(1%nat, Pred_regexp expr None)] in
  let re := JS_String (Example.bytes "abc") in
  exists st',
    @predicate_eval Example.runtime 1 1%nat [re; Example.fn 9] st =
      Ok (JS_Bool true, [Example.fn 9], st')
    /\ trace st' = [EvCompile expr; EvExec (Some (Example.bytes "ab")) (Example.bytes "abc")].
Proof.
  intros expr st re. eexists. split.
  - exact (@regexp_last_argument_is_ignored Example.runtime 0 1%nat expr None re
             (Example.fn 9) st eq_refl).
  - reflexivity.
Defined.

(** ** Charset nodes *)

Lemma charset_loop_same_members `{Runtime} chars1 chars2 fuel :
  (forall x, x ∈ vector_elems chars1 <-> x ∈ vector_elems chars2) ->
  forall input, charset_loop fuel input chars1 = charset_loop fuel input chars2.
Proof.
  intros Hsame. induction fuel as [ | fuel IH ]; intros input;
    destruct input as [ | b input ]; simpl; try reflexivity.
  destruct (input_buffer_getc (b :: input)) as [codepoint rest].
  rewrite !vector_find_absent. unfold vector_mem.
  rewrite (bool_decide_ext _ _ (Hsame codepoint)).
  destruct (bool_decide (codepoint ∈ vector_elems chars2)); simpl;
    [ apply IH | reflexivity ].
Qed.

(** X8. A Charset node tests membership in a set: two nodes whose
    caches, given or decoded from the literal, hold the same code points,
    in whatever order and however often repeated, end alike on every
    argument and, when they answer, give the same answer.  The literal of
    a node without cache has to decode: on a literal on which the decoder
    does not advance the node never answers, whatever a node with that
    cache preset does. *)
Theorem charset_eval_depends_on_members `{Runtime}
    fuel p q set1 chars1 set2 chars2 cache1 cache2 args st :
  nodes st !! p = Some (Pred_charset set1 chars1) ->
  nodes st !! q = Some (Pred_charset set2 chars2) ->
  charset_cache set1 chars1 = Some cache1 ->
  charset_cache set2 chars2 = Some cache2 ->
  (forall x, x ∈ vector_elems cache1 <-> x ∈ vector_elems cache2) ->
  same_answer (predicate_eval (S fuel) p args st) (predicate_eval (S fuel) q args st).
Proof.
  intros Hp Hq Hcache1 Hcache2 Hsame. rewrite !predicate_eval_unfold.
  set (input := js_input_chars (js_arguments_shift args).1).
  pose proof (charset_loop_same_members cache1 cache2 (length input) Hsame input) as Hloop.
  destruct (charset_loop (length input) input cache1) as [ v | ] eqn:Hloop1.
  - rewrite (charset_eval_run _ p set1 chars1 cache1 args st v Hp Hcache1 Hloop1).
    rewrite (charset_eval_run _ q set2 chars2 cache2 args st v Hq Hcache2 (eq_sym Hloop)).
    simpl. auto.
  - unfold predicate_eval_body. rewrite Hp, Hq. fold input.
    destruct (js_arguments_shift args) as [arg rest]. simpl in input.
    unfold charset_cache, decoded in Hcache1, Hcache2.
    assert (Hleft : forall chars set st0 cache (pr : addr),
              (if vector_unset chars then snd <$> utf8_to_unicode set vector_init
               else Some chars) = Some cache ->
              charset_loop (length input) input cache = None ->
              ((if vector_unset chars then
                  match utf8_to_unicode set vector_init with
                  | Some (_, chars') =>
                      Ok (chars', set_node pr (Pred_charset set chars') st0)
                  | None => OutOfFuel
                  end
                else Ok (chars, st0)) ≫= fun '(chars0, st1) =>
                 match charset_loop (length input) input chars0 with
                 | Some ret => Ok (ret, rest, st1)
                 | None => OutOfFuel
                 end) = OutOfFuel).
    { intros chars set st0 cache pr Hcache Hnone. destruct (vector_unset chars).
      - destruct (utf8_to_unicode set vector_init) as [ [n chars'] | ];
          [ | reflexivity ].
        simpl in Hcache. injection Hcache as ->. simpl. now rewrite Hnone.
      - injection Hcache as ->. simpl. now rewrite Hnone. }
    subst input.
    rewrite (Hleft chars1 set1 st cache1 p Hcache1 Hloop1).
    rewrite (Hleft chars2 set2 st cache2 q Hcache2 (eq_sym Hloop)).
    exact I.
Qed.

Lemma charset_eval_depends_on_members_witness :
  let st := Example.state_of
              [(1%nat, Pred_charset (Example.bytes "abca") None);
               (2%nat, Pred_charset (Example.bytes "cba") (Some [99; 98; 97]))] in
  same_answer (@predicate_eval Example.runtime 1 1%nat [JS_String (Example.bytes "cab")] st)
              (@predicate_eval Example.runtime 1 2%nat [JS_String (Example.bytes "cab")] st).
Proof.
  intros st.
  refine (@charset_eval_depends_on_members Example.runtime 0 1%nat 2%nat _ _ _ _
            (Some [97; 98; 99; 97]) (Some [99; 98; 97]) _ st
            eq_refl eq_refl _ eq_refl _).
  - vm_compute. reflexivity.
  - intros x. simpl. rewrite !elem_of_cons, !elem_of_nil. tauto.
Defined.

(** * Further properties of the argument counters *)

Lemma binary_operand_self_contained `{Runtime} eval value args st :
  is_literal value = true ->
  plain_arguments args ->
  (if js_is_null_or_undefined value then 1 else 0) <= args_c args ->
  exists v st',
    binary_operand eval value args st =
    Ok (v, drop (Z.to_nat (if js_is_null_or_undefined value then 1 else 0)) args, st').
Proof.
  intros Hliteral Hargs Hlen. unfold binary_operand.
  destruct (js_is_null_or_undefined value) eqn:Hunset.
  - destruct args as [ | x rest ]; [ unfold args_c in Hlen; simpl in Hlen; lia | ].
    simpl. unfold plain_arguments in Hargs. apply Forall_cons in Hargs as [Hx _].
    unfold predicate_value_with. rewrite Hx.
    destruct (JS_IsFunction x).
    + unfold predicate_call_with. rewrite Hx.
      destruct (JS_IsFunction x); simpl; eauto.
    + eauto.
  - simpl. rewrite predicate_value_with_literal by exact Hliteral. eauto.
Qed.

(** X9. On a node that holds no nested predicate and no callable (a
    Type, Charset, String, Equal, Instanceof, PrototypeIs or Member node,
    or an arithmetic node over literals and unset operands),
    [predicate_direct_num_args] is the number of arguments an evaluation
    takes from a cursor of plain values that holds as many.  A Charset
    node answers on a decoder that advances; on any other, its loops may
    never leave. *)
Theorem direct_num_args_is_consumption `{Runtime} fuel pr node args st :
  nodes st !! pr = Some node ->
  self_contained node = true ->
  plain_arguments args ->
  predicate_direct_num_args node <= args_c args ->
  (forall set chars, node = Pred_charset set chars -> decoder_advances) ->
  exists v st',
    predicate_eval (S fuel) pr args st =
    Ok (v, drop (Z.to_nat (predicate_direct_num_args node)) args, st').
Proof.
  intros Hnode Hself Hargs Hlen Hadv. rewrite predicate_eval_unfold.
  unfold predicate_eval_body. rewrite Hnode.
  assert (Hone : 1 <= args_c args ->
                 exists x rest, args = x :: rest
                                /\ drop (Z.to_nat 1) args = rest).
  { destruct args as [ | x rest ]; [ unfold args_c; simpl; lia | ]. eauto. }
  destruct node as [ type_flags | set chars | str | id operand | id lhs rhs
                   | id predicates | expr bytecode | atom filter | object
                   | n operand | func this_val arity ]; simpl in Hself, Hlen |- *;
    try discriminate.
  - destruct (Hone Hlen) as (x & rest & -> & ->). simpl. eauto.
  - destruct (Hone Hlen) as (x & rest & -> & ->).
    specialize (Hadv set chars eq_refl).
    destruct (decoded_advances set Hadv) as [literal Hliteral].
    destruct (decoded_advances (js_input_chars x) Hadv) as [text Htext].
    assert (Hcache : exists cache, charset_cache set chars = Some cache).
    { unfold charset_cache. destruct (vector_unset chars); eauto. }
    destruct Hcache as [cache Hcache].
    pose proof (charset_eval_run (predicate_eval fuel) pr set chars cache (x :: rest) st _
                  Hnode Hcache (charset_loop_decoded cache _ _ Htext)) as Hrun.
    unfold predicate_eval_body in Hrun. rewrite Hnode in Hrun. rewrite Hrun.
    simpl. eauto.
  - destruct (Hone Hlen) as (x & rest & -> & ->). simpl.
    destruct (_ && _); eauto.
  - destruct (Hone Hlen) as (x & rest & -> & ->).
    destruct id; try discriminate; simpl; eauto.
  - apply andb_prop in Hself as [Hl Hr].
    assert (Hbounds : 0 <= (if js_is_null_or_undefined lhs then 1 else 0) <= 1
                      /\ 0 <= (if js_is_null_or_undefined rhs then 1 else 0) <= 1)
      by (destruct (js_is_null_or_undefined lhs), (js_is_null_or_undefined rhs); lia).
    destruct (binary_operand_self_contained (predicate_eval fuel) lhs args st Hl Hargs)
      as (v0 & st0 & Hrun0); [ lia | ].
    rewrite Hrun0. simpl.
    destruct (binary_operand_self_contained (predicate_eval fuel) rhs
                (drop (Z.to_nat (if js_is_null_or_undefined lhs then 1 else 0)) args)
                st0 Hr) as (v1 & st1 & Hrun1).
    { now apply plain_arguments_drop. }
    { rewrite args_c_drop by lia. lia. }
    rewrite Hrun1. simpl. rewrite drop_drop_Z by lia. eauto.
  - destruct (Hone Hlen) as (x & rest & -> & ->). simpl.
    destruct (negb _); eauto.
Qed.

Lemma direct_num_args_is_consumption_witness :
  let st := Example.state_of [(1%nat, Pred_binary PREDICATE_SUB JS_UNDEFINED JS_NULL)] in
  exists v st',
    @predicate_eval Example.runtime 1 1%nat [JS_Int32 7; JS_Int32 2; JS_Int32 9] st =
    Ok (v, [JS_Int32 9], st').
Proof.
  intros st.
  refine (@direct_num_args_is_consumption Example.runtime 0 1%nat _
            [JS_Int32 7; JS_Int32 2; JS_Int32 9] st eq_refl eq_refl _ _ _).
  - repeat constructor.
  - vm_compute. discriminate.
  - discriminate.
Defined.

(** * Further properties of clone and free *)

(** X10. [predicate_clone] of a live node writes the copy into a block
    that was neither a node nor an object, leaves every node and the
    trace as they were, and gives each object one more owner for each
    reference that the node holds to it. *)
Theorem clone_adds_an_owner_per_reference pr node st :
  nodes st !! pr = Some node ->
  exists ret st1,
    predicate_clone pr st = Ok (ret, st1)
    /\ nodes st !! ret = None
    /\ refcount st !! ret = None
    /\ nodes st1 = <[ret := clone_node node]> (nodes st)
    /\ trace st1 = trace st
    /\ forall p, refcount st1 !! p
                 = (fun n => (n + occurrences (node_values node) p)%nat) <$> refcount st !! p.
Proof.
  intros Hnode.
  destruct (js_values_dup_spec (node_values node) st) as (_ & Hdn & Hdt & Hdr).
  destruct (js_mallocz_fresh st) as [Hfresh Hcount].
  eexists _, _. split; [ apply predicate_clone_values, Hnode | ].
  split; [ exact Hfresh | ]. split; [ exact Hcount | ].
  split; [ simpl; now rewrite Hdn | ].
  split; [ exact Hdt | exact Hdr ].
Qed.

Lemma clone_adds_an_owner_per_reference_witness :
  let st := {| nodes := {[ 1%nat := Pred_binary PREDICATE_ADD (Example.obj 5) (Example.obj 5) ]};
               refcount := {[ 5%nat := 1%nat ]};
               trace := [] |} in
  exists ret st1,
    predicate_clone 1%nat st = Ok (ret, st1)
    /\ refcount st1 !! 5%nat = Some 3%nat.
Proof.
  intros st.
  destruct (clone_adds_an_owner_per_reference 1%nat
              (Pred_binary PREDICATE_ADD (Example.obj 5) (Example.obj 5)) st eq_refl)
    as (ret & st1 & Hclone & _ & _ & _ & _ & Hcount).
  exists ret, st1. split; [ exact Hclone | ].
  rewrite Hcount. reflexivity.
Defined.

(** X11. [predicate_free_rt] on a node whose every referenced object has
    an owner besides the node takes one owner off each object for each
    reference the node holds, and leaves the block zeroed (kind 0, no
    flags); no other node changes and nothing is logged. *)
Theorem free_drops_an_owner_per_reference fuel pr node st :
  nodes st !! pr = Some node ->
  (forall p, (0 < occurrences (node_values node) p)%nat ->
     exists n, refcount st !! p = Some n /\ (occurrences (node_values node) p < n)%nat) ->
  exists st',
    predicate_free_rt (S fuel) pr st = Ok st'
    /\ nodes st' = <[pr := Pred_type 0]> (nodes st)
    /\ trace st' = trace st
    /\ forall p, refcount st' !! p
                 = (fun n => (n - occurrences (node_values node) p)%nat) <$> refcount st !! p.
Proof.
  intros Hnode Hshared.
  destruct (js_values_free_counts (predicate_free_rt fuel) (node_values node) st Hshared)
    as (st1 & Hfree & Hfn & Hft & Hfr).
  exists (set_node pr (Pred_type 0) st1).
  split.
  { simpl. rewrite (predicate_free_rt_body_values _ pr node st Hnode).
    rewrite Hfree. reflexivity. }
  split; [ simpl; now rewrite Hfn | ].
  split; [ exact Hft | exact Hfr ].
Qed.

Lemma free_drops_an_owner_per_reference_witness :
  let st := {| nodes := {[ 1%nat := Pred_binary PREDICATE_ADD (Example.obj 5) (Example.obj 5) ]};
               refcount := {[ 5%nat := 3%nat ]};
               trace := [] |} in
  exists st',
    predicate_free_rt 1 1%nat st = Ok st'
    /\ nodes st' !! 1%nat = Some (Pred_type 0)
    /\ refcount st' !! 5%nat = Some 1%nat.
Proof.
  intros st.
  destruct (free_drops_an_owner_per_reference 0 1%nat
              (Pred_binary PREDICATE_ADD (Example.obj 5) (Example.obj 5)) st eq_refl)
    as (st' & Hfree & Hnodes & _ & Hcount).
  { intros p Hpos. destruct (decide (p = 5%nat)) as [ -> | Hp ].
    - exists 3%nat. split; [ reflexivity | ]. vm_compute. lia.
    - exfalso. simpl node_values in Hpos. rewrite !occurrences_cons in Hpos. simpl in Hpos.
      rewrite !bool_decide_eq_false_2 in Hpos by congruence.
      unfold occurrences in Hpos. simpl in Hpos. lia. }
  exists st'. split; [ exact Hfree | ]. split.
  - rewrite Hnodes. apply lookup_insert_eq.
  - rewrite Hcount. reflexivity.
Defined.

(** X12. Freeing a node twice is harmless: the first [predicate_free_rt]
    leaves kind 0 in the block, which owns nothing, so a second one finds
    nothing to release and leaves the state as it is. *)
Theorem free_twice_is_free_once fuel fuel' pr st st' :
  predicate_free_rt (S fuel) pr st = Ok st' ->
  predicate_free_rt (S fuel') pr st' = Ok st'.
Proof.
  simpl. unfold predicate_free_rt_body at 1.
  destruct (match nodes st !! pr with Some _ => _ | None => _ end) as [ st1 | | | ];
    simpl; try discriminate.
  intros [= <-]. unfold predicate_free_rt_body. simpl.
  rewrite lookup_insert_eq. simpl. f_equal.
  apply set_node_same. simpl. apply lookup_insert_eq.
Qed.

Lemma free_twice_is_free_once_witness :
  let st := {| nodes := {[ 1%nat := Pred_member (Example.obj 5) ]};
               refcount := {[ 5%nat := 2%nat ]};
               trace := [] |} in
  exists st',
    predicate_free_rt 1 1%nat st = Ok st'
    /\ predicate_free_rt 1 1%nat st' = Ok st'
    /\ refcount st' !! 5%nat = Some 1%nat.
Proof.
  intros st. eexists. split; [ vm_compute; reflexivity | ]. split.
  - apply (free_twice_is_free_once 0 0 1%nat st). vm_compute. reflexivity.
  - vm_compute. reflexivity.
Defined.

(** X13. Cloning a node and freeing the clone gives back the state before
    the clone, but for the zeroed block of the clone: the reference counts
    and the trace are those before, and every node that was there is
    unchanged.  It needs the objects that the node refers to to be alive. *)
Theorem clone_then_free_restores fuel pr node st :
  nodes st !! pr = Some node ->
  Forall (alive st) (node_values node) ->
  exists ret st1 st2,
    predicate_clone pr st = Ok (ret, st1)
    /\ predicate_free_rt (S fuel) ret st1 = Ok st2
    /\ nodes st !! ret = None
    /\ nodes st2 = <[ret := Pred_type 0]> (nodes st)
    /\ refcount st2 = refcount st
    /\ trace st2 = trace st.
Proof.
  intros Hnode Halive.
  set (values := node_values node).
  destruct (js_values_dup_spec values st) as (_ & Hdn & Hdt & Hdr).
  destruct (js_mallocz_fresh st) as [Hfresh _].
  set (ret := js_mallocz st) in *.
  set (st1 := set_node ret (clone_node node) (js_values_dup values st).2).
  assert (Hret : nodes st1 !! ret = Some (clone_node node))
    by (subst st1; simpl; apply lookup_insert_eq).
  destruct (js_values_free_counts (predicate_free_rt fuel) values st1)
    as (st' & Hfree & Hfn & Hft & Hfr).
  { intros p Hpos. destruct (occurrences_positive values p Hpos) as (v & Hv & Hvp).
    rewrite Forall_forall in Halive. specialize (Halive v Hv).
    unfold alive in Halive. rewrite Hvp in Halive.
    subst st1. simpl. rewrite Hdr.
    destruct (refcount st !! p) as [[|k]|]; try contradiction.
    simpl. eexists. split; [ reflexivity | lia ]. }
  exists ret, st1, (set_node ret (Pred_type 0) st').
  split; [ apply predicate_clone_values, Hnode | ].
  split.
  { simpl. rewrite (predicate_free_rt_body_values _ ret _ st1 Hret).
    rewrite node_values_clone. fold values. rewrite Hfree. reflexivity. }
  split; [ exact Hfresh | ].
  split.
  { simpl. rewrite Hfn. subst st1. simpl. rewrite Hdn. apply insert_insert_eq. }
  split.
  { simpl. apply map_eq. intros p. rewrite Hfr. subst st1. simpl. rewrite Hdr.
    destruct (refcount st !! p); simpl; f_equal. lia. }
  simpl. rewrite Hft. subst st1. simpl. exact Hdt.
Qed.

Lemma clone_then_free_restores_witness :
  let st := {| nodes := {[ 1%nat := Pred_member (Example.obj 5) ]};
               refcount := {[ 5%nat := 1%nat ]};
               trace := [] |} in
  exists ret st1 st2,
    predicate_clone 1%nat st = Ok (ret, st1)
    /\ predicate_free_rt 1 ret st1 = Ok st2
    /\ refcount st2 = refcount st.
Proof.
  intros st.
  destruct (clone_then_free_restores 0 1%nat (Pred_member (Example.obj 5)) st eq_refl)
    as (ret & st1 & st2 & Hclone & Hfree & _ & _ & Hcount & _).
  { repeat constructor. }
  exists ret, st1, st2. auto.
Defined.

(** * Properties of the introspection *)

Lemma index_keys_spec fuel i n ret :
  length ret = i ->
  Z.of_nat i <= n ->
  n - Z.of_nat i <= Z.of_nat fuel ->
  index_keys fuel i n ret
  = ret ++ ((fun k => JS_NewInt32 (int32_wrap (Z.of_nat k))) <$> seq i (Z.to_nat n - i)).
Proof.
  revert i ret. induction fuel as [ | fuel IH ]; intros i ret Hlen Hle Hfuel; simpl.
  - replace (Z.to_nat n - i)%nat with 0%nat by lia. simpl. now rewrite app_nil_r.
  - destruct (Z.of_nat i <? n) eqn:Hlt.
    + apply Z.ltb_lt in Hlt.
      assert (Hset : array_set ret i (JS_NewInt32 (int32_wrap (Z.of_nat i)))
                     = ret ++ [JS_NewInt32 (int32_wrap (Z.of_nat i))]).
      { unfold array_set. rewrite Hlen, Nat.ltb_irrefl, Nat.sub_diag. reflexivity. }
      rewrite Hset, IH.
      * replace (Z.to_nat n - i)%nat with (S (Z.to_nat n - S i)) by lia.
        simpl. now rewrite <- app_assoc.
      * rewrite length_app. simpl. lia.
      * lia.
      * lia.
    + apply Z.ltb_ge in Hlt. replace (Z.to_nat n - i)%nat with 0%nat by lia.
      simpl. now rewrite app_nil_r.
Qed.

Lemma int32_wrap_small z : 0 <= z < 2 ^ 31 -> int32_wrap z = z.
Proof. intros Hz. unfold int32_wrap. rewrite Z.mod_small; lia. Qed.

(** X14. The labels of [predicate_keys] name the elements of
    [predicate_values] one for one exactly on the unary, arithmetic,
    combinator and Property nodes, where a combinator gets the labels 0,
    1, ... in order.  On every other kind the two do not pair up: a
    Charset or String node has its literal as a value under no label, and
    a Member, Shift or Function node hands back its operand itself, not an
    array.  (Stated for combinators of fewer than 2^31 operands, whose
    indices fit the 32-bit integers of the loop.) *)
Theorem keys_label_the_values JS_AtomToValue union_string_view node :
  Z.of_nat (length (node_values node)) < 2 ^ 31 ->
  (labelled_by (predicate_keys node)
     (predicate_values JS_AtomToValue union_string_view node)
   <-> operand_array node = true)
  /\ (forall id predicates, node = Pred_boolean id predicates ->
        predicate_keys node
        = (fun k => JS_NewInt32 (Z.of_nat k)) <$> seq 0 (length predicates)).
Proof.
  intros Hsize.
  assert (Hkeys : forall id predicates, node = Pred_boolean id predicates ->
            predicate_keys node
            = (fun k => JS_NewInt32 (Z.of_nat k)) <$> seq 0 (length predicates)).
  { intros id predicates ->. simpl in *. unfold uint32_wrap.
    rewrite Z.mod_small by lia. rewrite index_keys_spec; simpl; try lia.
    rewrite Nat2Z.id, Nat.sub_0_r. apply list_fmap_ext.
    intros k j Hj. apply lookup_seq in Hj as [-> Hj].
    now rewrite int32_wrap_small by lia. }
  split; [ | exact Hkeys ].
  destruct node as [ type_flags | set chars | str | id operand | id lhs rhs
                   | id predicates | expr bytecode | atom filter | object
                   | n operand | func this_val arity ];
    try (simpl; split; [ intros Hfalse; first [ contradiction | discriminate ]
                       | intros Hfalse; discriminate ]);
    try (simpl; split; [ reflexivity | reflexivity ]).
  rewrite (Hkeys id predicates eq_refl). simpl.
  rewrite length_fmap, length_seq. split; reflexivity.
Qed.

Lemma keys_label_the_values_witness :
  let node := Pred_boolean PREDICATE_OR [JS_Int32 4; JS_UNDEFINED; Example.pred 2] in
  labelled_by (predicate_keys node)
    (predicate_values (fun atom => JS_Int32 atom) (fun set _ => set) node)
  /\ predicate_keys node = [JS_Int32 0; JS_Int32 1; JS_Int32 2].
Proof.
  intros node.
  destruct (keys_label_the_values (fun atom => JS_Int32 atom) (fun set _ => set) node)
    as [Hpair Hkeys].
  { vm_compute. reflexivity. }
  split.
  - apply Hpair. reflexivity.
  - exact (Hkeys _ _ eq_refl).
Defined.

(** * Properties of the renderers *)

(** X15. [predicate_dump] has no case for BNot, Sqrt and Atan2 nodes: on
    these three kinds, and on no other, it runs into [assert(0)]; on every
    other kind it appends a text that ends with a closing parenthesis. *)
Theorem predicate_dump_aborts_on_three_kinds `{Printer} node dbuf :
  match predicate_dump node dbuf with
  | Ok text => dump_unsupported node = false /\ exists body, text = body ++ lit ")"
  | AssertFail => dump_unsupported node = true
  | _ => False
  end.
Proof.
  unfold predicate_dump. simpl.
  destruct node as [ type_flags | set chars | str | id operand | id lhs rhs
                   | id predicates | expr bytecode | atom filter | object
                   | n operand | func this_val arity ];
    try destruct id; simpl;
    try destruct (negb (js_is_null_or_undefined filter)); simpl;
    first [ reflexivity | split; [ reflexivity | eexists; reflexivity ] ].
Qed.

Lemma predicate_precedence_unranked `{Printer} node :
  without_precedence node = true -> predicate_precedence node = AssertFail.
Proof.
  destruct node as [ | | | id ? | | | | | | | ]; try destruct id; simpl;
    intros Hkind; try discriminate; reflexivity.
Qed.

Lemma operand_parens_unranked `{Printer} store prec v :
  operand_without_precedence store v = true -> operand_parens store prec v = AssertFail.
Proof.
  unfold operand_without_precedence, operand_parens.
  destruct (js_predicate_data v) as [ other | ]; [ | discriminate ].
  destruct (store !! other) as [ node | ]; [ | discriminate ].
  intros Hkind. now rewrite predicate_precedence_unranked.
Qed.

Lemma operand_parens_value `{Printer} store prec v :
  js_predicate_data v = None -> operand_parens store prec v = Ok (negb (JS_IsNumber v)).
Proof. intros Hv. unfold operand_parens. now rewrite Hv. Qed.

(** X16. [predicate_tosource] has no case for Regex and Shift nodes: it
    runs into [assert(0)] on them, with the names it is given and, when
    it is given none, as soon as the list for two names is allocated; when
    that allocation fails it returns with the buffer untouched. *)
Theorem predicate_tosource_aborts_on_regexp_and_shift `{Runtime} `{Printer}
    fuel store pr node dbuf args :
  store !! pr = Some node ->
  source_unsupported node = true ->
  predicate_tosource (S fuel) store pr dbuf args =
  match args with
  | Some _ => AssertFail
  | None =>
      match arguments_alloc 2 with
      | Some _ => AssertFail
      | None => Ok None
      end
  end.
Proof.
  intros Hnode Hkind.
  assert (Hnames : forall names,
            predicate_tosource_names (S fuel) store pr dbuf names = AssertFail).
  { intros names. simpl. unfold predicate_tosource_body. rewrite Hnode.
    destruct node; try discriminate; reflexivity. }
  unfold predicate_tosource. destruct args as [ names | ].
  - now rewrite Hnames.
  - assert (Hcount : predicate_recursive_num_args (S fuel) store pr = Ok 1).
    { simpl. unfold predicate_recursive_num_args_body. rewrite Hnode.
      destruct node; try discriminate; reflexivity. }
    rewrite Hcount. cbn [mbind Outcome_bind]. change (1 + 1) with 2.
    destruct (arguments_alloc 2) as [ tmp | ]; [ | reflexivity ].
    now rewrite Hnames.
Qed.

Lemma predicate_tosource_aborts_on_regexp_and_shift_witness :
  let store : gmap addr Predicate :=
    {[ 1%nat := Pred_shift 1 (JS_Int32 0) ]} in
  @predicate_tosource Example.runtime ExamplePrinter.printer 1 store 1%nat [] None
  = AssertFail.
Proof.
  intros store.
  exact (@predicate_tosource_aborts_on_regexp_and_shift Example.runtime
           ExamplePrinter.printer 0 store 1%nat (Pred_shift 1 (JS_Int32 0)) [] None
           eq_refl eq_refl).
Defined.

(** X17. [predicate_tosource] asks [predicate_precedence] for the level
    of each operand node of an arithmetic or combinator node, and Type,
    Charset, PrototypeIs, Regex and Shift nodes have none: the source of
    an infix node with such an operand is never rendered, the
    regeneration runs into the assertion of [predicate_precedence]. *)
Theorem predicate_tosource_aborts_on_unranked_operand `{Printer}
    fuel store pr node dbuf args :
  store !! pr = Some node ->
  infix_over_unranked store node = true ->
  predicate_tosource_names (S fuel) store pr dbuf args = AssertFail.
Proof.
  intros Hnode Hkind. simpl. unfold predicate_tosource_body. rewrite Hnode.
  destruct node as [ | | | | id lhs rhs | id predicates | | | | | ];
    simpl in Hkind; try discriminate.
  - destruct (predicate_precedence (Pred_binary id lhs rhs)) as [ prec | | | ] eqn:Hprec;
      try reflexivity;
      try (exfalso; revert Hprec; unfold predicate_precedence;
           destruct (_ =? -1); discriminate).
    cbn [mbind Outcome_bind]. apply orb_prop in Hkind as [ Hl | Hr ].
    + now rewrite (operand_parens_unranked store prec lhs Hl).
    + apply andb_prop in Hr as [ Hl Hr ]. apply bool_decide_eq_true in Hl.
      rewrite (operand_parens_value store prec lhs Hl). cbn [mbind Outcome_bind].
      now rewrite (operand_parens_unranked store prec rhs Hr).
  - destruct predicates as [ | p rest ]; [ discriminate | ].
    destruct (predicate_precedence (Pred_boolean id (p :: rest))) as [ prec | | | ] eqn:Hprec;
      try reflexivity;
      try (exfalso; revert Hprec; unfold predicate_precedence;
           destruct (_ =? -1); discriminate).
    cbn [mbind Outcome_bind boolean_tosource].
    now rewrite (operand_parens_unranked store prec p Hkind).
Qed.

Lemma predicate_tosource_aborts_on_unranked_operand_witness :
  let store : gmap addr Predicate :=
    {[ 1%nat := Pred_boolean PREDICATE_OR [Example.pred 2; JS_Int32 1];
       2%nat := Pred_type 8 ]} in
  @predicate_tosource_names ExamplePrinter.printer 2 store 1%nat [] [] = AssertFail.
Proof.
  intros store.
  exact (@predicate_tosource_aborts_on_unranked_operand ExamplePrinter.printer 1 store
           1%nat (Pred_boolean PREDICATE_OR [Example.pred 2; JS_Int32 1]) [] []
           eq_refl eq_refl).
Defined.

(** X18. The regenerated source of a Not, NotNot, BNot or Sqrt node
    never shows the operand: it names one more parameter and applies the
    operator to it, whether the operand is unset, a literal or a nested
    predicate; two such nodes of one kind have the same source. *)
Theorem predicate_tosource_ignores_logical_operand `{Printer}
    fuel fuel' store store' pr pr' id x y dbuf args :
  store !! pr = Some (Pred_unary id x) ->
  store' !! pr' = Some (Pred_unary id y) ->
  logical_id id = true ->
  exists text args',
    predicate_tosource_names (S fuel) store pr dbuf args = Ok (text, args')
    /\ predicate_tosource_names (S fuel') store' pr' dbuf args = Ok (text, args')
    /\ args' = (arguments_push args (lit "value")).2.
Proof.
  intros Hx Hy Hid. cbn [predicate_tosource_names].
  unfold predicate_tosource_body. rewrite Hx, Hy.
  destruct id; try discriminate;
    destruct (arguments_push args (lit "value")) as [arg names];
    cbn [mbind Outcome_bind snd]; eauto.
Qed.

Lemma predicate_tosource_ignores_logical_operand_witness :
  let store : gmap addr Predicate :=
    {[ 1%nat := Pred_unary PREDICATE_NOT (JS_Int32 1);
       2%nat := Pred_unary PREDICATE_NOT JS_UNDEFINED ]} in
  exists text args',
    @predicate_tosource_names ExamplePrinter.printer 1 store 1%nat [] [] = Ok (text, args')
    /\ @predicate_tosource_names ExamplePrinter.printer 1 store 2%nat [] [] = Ok (text, args')
    /\ text = lit "(value) => !value".
Proof.
  intros store.
  destruct (@predicate_tosource_ignores_logical_operand ExamplePrinter.printer 0 0 store store
              1%nat 2%nat PREDICATE_NOT (JS_Int32 1) JS_UNDEFINED [] [] eq_refl eq_refl eq_refl)
    as (text & args' & H1 & H2 & _).
  exists text, args'. split; [ exact H1 | ]. split; [ exact H2 | ].
  vm_compute in H1. now injection H1 as <- _.
Defined.

(** X19. A nested arithmetic node of the same level as its parent goes
    without parentheses, also as the right operand: over number literals
    [a], [b] and [c], the node [a - (b - c)] is rendered as [a - b - c].
    The rendering of the nested node also puts its own header in front of
    the text so far, so that the header stands twice in the result. *)
Theorem predicate_tosource_same_level_unparenthesised `{Printer}
    fuel store p q id id' a b c prec dbuf args :
  store !! p = Some (Pred_binary id a (JS_Object JS_CLASS_PREDICATE q)) ->
  store !! q = Some (Pred_binary id' b c) ->
  JS_IsNumber a = true -> JS_IsNumber b = true -> JS_IsNumber c = true ->
  predicate_precedence (Pred_binary id a (JS_Object JS_CLASS_PREDICATE q)) = Ok prec ->
  predicate_precedence (Pred_binary id' b c) = Ok prec ->
  predicate_tosource_names (S (S fuel)) store p dbuf args =
  Ok (dbuf_0 (arguments_dump args ++ lit " => "
              ++ dbuf_0 (arguments_dump args ++ lit " => "
                         ++ ((dbuf ++ js_value_dump a) ++ binary_op_str id)
                         ++ js_value_dump b ++ binary_op_str id' ++ js_value_dump c)),
      args).
Proof.
  intros Hp Hq Ha Hb Hc Hprec Hprec'.
  assert (Hnumber : forall v, JS_IsNumber v = true ->
            js_is_null_or_undefined v = false /\ js_predicate_data v = None).
  { intros v Hv. destruct v; try discriminate; split; reflexivity. }
  destruct (Hnumber a Ha) as [Ha1 Ha2], (Hnumber b Hb) as [Hb1 Hb2],
    (Hnumber c Hc) as [Hc1 Hc2].
  assert (Hvalue : forall tosource v text names parens,
            js_is_null_or_undefined v = false -> js_predicate_data v = None ->
            predicate_inspect tosource v text names parens
            = Ok (text ++ js_value_dump v, names)).
  { intros tosource v text names parens Hv1 Hv2. unfold predicate_inspect.
    now rewrite Hv1, Hv2. }
  assert (Hinner : forall text,
            predicate_tosource_names (S fuel) store q text args =
            Ok (dbuf_0 (arguments_dump args ++ lit " => "
                        ++ text ++ js_value_dump b ++ binary_op_str id'
                        ++ js_value_dump c), args)).
  { intros text. cbn [predicate_tosource_names]. unfold predicate_tosource_body. rewrite Hq.
    cbn [mbind Outcome_bind]. rewrite Hprec'. cbn [mbind Outcome_bind].
    rewrite !operand_parens_value by assumption. cbn [mbind Outcome_bind].
    rewrite !Hvalue by assumption. cbn [mbind Outcome_bind].
    rewrite !Hvalue by assumption. cbn [mbind Outcome_bind].
    rewrite <- !app_assoc. reflexivity. }
  change (predicate_tosource_names (S (S fuel)) store p dbuf args)
    with (predicate_tosource_body store (predicate_tosource_names (S fuel) store)
            p dbuf args).
  unfold predicate_tosource_body. rewrite Hp. cbn [mbind Outcome_bind].
  rewrite Hprec. cbn [mbind Outcome_bind].
  rewrite (operand_parens_value store prec a Ha2). cbn [mbind Outcome_bind].
  assert (Hparens : operand_parens store prec (JS_Object JS_CLASS_PREDICATE q) = Ok false).
  { unfold operand_parens. cbn [js_predicate_data]. rewrite Hq, Hprec'.
    cbn [mbind Outcome_bind]. now rewrite Z.leb_refl. }
  rewrite Hparens. cbn [mbind Outcome_bind].
  rewrite (Hvalue (predicate_tosource_names (S fuel) store) a) by assumption.
  cbn [mbind Outcome_bind].
  unfold predicate_inspect. cbn [js_is_null_or_undefined js_predicate_data].
  rewrite Hinner. reflexivity.
Qed.

Lemma predicate_tosource_same_level_unparenthesised_witness :
  let store : gmap addr Predicate :=
    {[ 1%nat := Pred_binary PREDICATE_SUB (JS_Int32 7) (Example.pred 2);
       2%nat := Pred_binary PREDICATE_SUB (JS_Int32 2) (JS_Int32 1) ]} in
  @predicate_tosource_names ExamplePrinter.printer 2 store 1%nat [] []
  = Ok (lit "() => () => 7 - 2 - 1", []).
Proof.
  intros store.
  exact (@predicate_tosource_same_level_unparenthesised ExamplePrinter.printer 0 store
           1%nat 2%nat PREDICATE_SUB PREDICATE_SUB (JS_Int32 7) (JS_Int32 2) (JS_Int32 1)
           8 [] [] eq_refl eq_refl eq_refl eq_refl eq_refl eq_refl eq_refl).
Defined.

(** * Composition *)

(** ** The recursion bound of the model *)

Lemma refines_refl {A : Type} (r : Outcome A) : refines r r.
Proof. now right. Qed.

Lemma refines_bind {A B : Type} (m1 m2 : Outcome A) (f1 f2 : A -> Outcome B) :
  refines m1 m2 -> (forall x, refines (f1 x) (f2 x)) -> refines (m1 ≫= f1) (m2 ≫= f2).
Proof.
  intros [ -> | -> ] Hf; [ now left | ].
  destruct m2 as [ x | | | ]; simpl; [ apply Hf | now right .. ].
Qed.

Lemma refines_ok {A : Type} (r1 r2 : Outcome A) (x : A) :
  refines r1 r2 -> r1 = Ok x -> r2 = Ok x.
Proof. intros [ -> | -> ]; [ discriminate | auto ]. Qed.

Section FuelMonotone.
Context `{Runtime}.
Variables eval1 eval2 : addr -> JSArguments -> State -> Result.
Hypothesis eval_refines : forall pr args st, refines (eval1 pr args st) (eval2 pr args st).

Lemma predicate_call_with_refines value argv st :
  refines (predicate_call_with eval1 value argv st) (predicate_call_with eval2 value argv st).
Proof.
  unfold predicate_call_with. destruct (js_predicate_data value) as [ pr | ].
  - apply refines_bind; [ apply eval_refines | intros [[ret a] s]; apply refines_refl ].
  - apply refines_refl.
Qed.

Lemma predicate_value_with_refines value args st :
  refines (predicate_value_with eval1 value args st)
          (predicate_value_with eval2 value args st).
Proof.
  unfold predicate_value_with. destruct (js_predicate_data value) as [ pr | ].
  - apply eval_refines.
  - destruct (JS_IsFunction value); [ | apply refines_refl ].
    apply refines_bind; [ apply predicate_call_with_refines | ].
    intros [ret s]. apply refines_refl.
Qed.

Lemma binary_operand_refines value args st :
  refines (binary_operand eval1 value args st) (binary_operand eval2 value args st).
Proof.
  unfold binary_operand.
  destruct (if js_is_null_or_undefined value then _ else _) as [value' args'].
  apply predicate_value_with_refines.
Qed.

Lemma or_loop_refines predicates ret args st :
  refines (or_loop eval1 predicates ret args st) (or_loop eval2 predicates ret args st).
Proof.
  revert ret args st. induction predicates as [ | p rest IH ]; intros ret args st; simpl.
  - apply refines_refl.
  - apply refines_bind; [ apply predicate_value_with_refines | ].
    intros [[v a] s]. destruct (negb (JS_ToBool v =? 0)); [ apply refines_refl | apply IH ].
Qed.

Lemma and_loop_refines predicates ret args st :
  refines (and_loop eval1 predicates ret args st) (and_loop eval2 predicates ret args st).
Proof.
  revert ret args st. induction predicates as [ | p rest IH ]; intros ret args st; simpl.
  - apply refines_refl.
  - apply refines_bind; [ apply predicate_value_with_refines | ].
    intros [[v a] s]. destruct (negb (c_not (JS_ToBool v) =? 0));
      [ apply refines_refl | apply IH ].
Qed.

Lemma xor_loop_refines predicates r args st :
  refines (xor_loop eval1 predicates r args st) (xor_loop eval2 predicates r args st).
Proof.
  revert r args st. induction predicates as [ | p rest IH ]; intros r args st; simpl.
  - apply refines_refl.
  - apply refines_bind; [ apply predicate_value_with_refines | ].
    intros [[v a] s]. apply IH.
Qed.

Lemma predicate_eval_body_refines pr args st :
  refines (predicate_eval_body eval1 pr args st) (predicate_eval_body eval2 pr args st).
Proof.
  unfold predicate_eval_body.
  destruct (nodes st !! pr) as [ node | ]; [ | apply refines_refl ].
  destruct node as [ type_flags | set chars | str | id operand | id lhs rhs
                   | id predicates | expr bytecode | atom filter | object
                   | n operand | func this_val arity ];
    try apply refines_refl.
  - destruct id; try apply refines_refl;
      (apply refines_bind; [ apply predicate_value_with_refines | ];
       intros [[v a] s]; apply refines_refl).
  - apply refines_bind; [ apply binary_operand_refines | ].
    intros [[v0 a0] s0].
    apply refines_bind; [ apply binary_operand_refines | ].
    intros [[v1 a1] s1]. apply refines_refl.
  - destruct id.
    + apply or_loop_refines.
    + apply and_loop_refines.
    + apply refines_bind; [ apply xor_loop_refines | ].
      intros [[r a] s]. apply refines_refl.
  - destruct (js_arguments_shift args) as [obj rest].
    destruct (JS_IsObject obj); [ | apply refines_refl ].
    destruct (negb (js_is_null_or_undefined filter) && predicate_callable filter);
      [ | apply refines_refl ].
    apply refines_bind; [ apply predicate_call_with_refines | ].
    intros [ret s]. apply refines_refl.
  - destruct (n <=? args_c args); [ | apply refines_refl ].
    apply predicate_value_with_refines.
Qed.
End FuelMonotone.

Lemma predicate_eval_fuel_step `{Runtime} fuel pr args st :
  refines (predicate_eval fuel pr args st) (predicate_eval (S fuel) pr args st).
Proof.
  revert pr args st. induction fuel as [ | fuel IH ]; intros pr args st.
  - now left.
  - rewrite !predicate_eval_unfold. now apply predicate_eval_body_refines.
Qed.

Lemma predicate_value_fills `{Runtime} fuel value args st v args' st' :
  predicate_value fuel value args st = Ok (v, args', st') -> state_fills st st'.
Proof.
  unfold predicate_value, predicate_value_with, predicate_call_with.
  destruct (js_predicate_data value) as [ pr | ].
  - apply predicate_eval_fills.
  - destruct (JS_IsFunction value); simpl; intros [= <- <- <-].
    + apply state_fills_log.
    + apply state_fills_refl.
Qed.

Lemma boolean_node_kept `{Runtime} s s' q id predicates :
  state_fills s s' ->
  nodes s !! q = Some (Pred_boolean id predicates) ->
  nodes s' !! q = Some (Pred_boolean id predicates).
Proof.
  intros (Hn & _) Hq. specialize (Hn q). rewrite Hq in Hn.
  inversion Hn as [n n' Hfill Hn1 Hn2|]; subst. inversion Hfill; subst. reflexivity.
Qed.

(** ** Nested combinators *)

Section Flatten.
Context `{Runtime}.

Lemma or_loop_app eval xs ys ret args st :
  xs <> [] ->
  or_loop eval (xs ++ ys) ret args st =
  or_loop eval xs ret args st ≫= fun '(r, a, s) =>
    if negb (JS_ToBool r =? 0) then Ok (r, a, s) else or_loop eval ys r a s.
Proof.
  revert ret args st. induction xs as [ | x xs IH ]; intros ret args st Hne;
    [ congruence | ].
  simpl. destruct (predicate_value_with eval x args st) as [ [[v a] s] | | | ];
    simpl; try reflexivity.
  destruct (negb (JS_ToBool v =? 0)) eqn:Htruthy.
  - simpl. now rewrite Htruthy.
  - destruct xs as [ | x' xs ].
    + simpl. now rewrite Htruthy.
    + apply IH. discriminate.
Qed.

Lemma and_loop_app eval xs ys ret args st :
  xs <> [] ->
  and_loop eval (xs ++ ys) ret args st =
  and_loop eval xs ret args st ≫= fun '(r, a, s) =>
    if negb (c_not (JS_ToBool r) =? 0) then Ok (r, a, s) else and_loop eval ys r a s.
Proof.
  revert ret args st. induction xs as [ | x xs IH ]; intros ret args st Hne;
    [ congruence | ].
  simpl. destruct (predicate_value_with eval x args st) as [ [[v a] s] | | | ];
    simpl; try reflexivity.
  destruct (negb (c_not (JS_ToBool v) =? 0)) eqn:Hfalsy.
  - simpl. now rewrite Hfalsy.
  - destruct xs as [ | x' xs ].
    + simpl. now rewrite Hfalsy.
    + apply IH. discriminate.
Qed.

Lemma or_loop_flatten fuel q xs pre ys ret args st res :
  xs <> [] ->
  nodes st !! q = Some (Pred_boolean PREDICATE_OR xs) ->
  or_loop (predicate_eval fuel) (pre ++ xs ++ ys) ret args st = Ok res ->
  or_loop (predicate_eval (S fuel))
    (pre ++ JS_Object JS_CLASS_PREDICATE q :: ys) ret args st = Ok res.
Proof.
  intros Hne. revert ret args st. induction pre as [ | x pre IH ];
    intros ret args st Hq Hflat.
  - simpl app in *. rewrite or_loop_app in Hflat by exact Hne.
    cbn [or_loop]. unfold predicate_value_with at 1. cbn [js_predicate_data].
    rewrite predicate_eval_unfold. unfold predicate_eval_body at 1. rewrite Hq.
    destruct (or_loop (predicate_eval fuel) xs JS_UNDEFINED args st)
      as [ [[r a] s] | | | ] eqn:Hxs.
    + assert (Hsame : or_loop (predicate_eval fuel) xs ret args st
                      = Ok (r, a, s)).
      { destruct xs as [ | x xs ]; [ congruence | ]. exact Hxs. }
      rewrite Hsame in Hflat. simpl in Hflat |- *.
      destruct (negb (JS_ToBool r =? 0)); [ exact Hflat | ].
      eapply refines_ok; [ | exact Hflat ].
      apply or_loop_refines. intros. apply predicate_eval_fuel_step.
    + exfalso. destruct xs as [ | x xs ]; [ congruence | ].
      simpl in Hxs, Hflat. rewrite Hxs in Hflat. discriminate.
    + exfalso. destruct xs as [ | x xs ]; [ congruence | ].
      simpl in Hxs, Hflat. rewrite Hxs in Hflat. discriminate.
    + exfalso. destruct xs as [ | x xs ]; [ congruence | ].
      simpl in Hxs, Hflat. rewrite Hxs in Hflat. discriminate.
  - cbn [app or_loop] in Hflat |- *.
    destruct (predicate_value_with (predicate_eval fuel) x args st)
      as [ [[v a] s] | | | ] eqn:Hx; try discriminate.
    rewrite (refines_ok _ _ _
               (predicate_value_with_refines (predicate_eval fuel)
                  (predicate_eval (S fuel)) (predicate_eval_fuel_step fuel) x args st) Hx).
    cbn [mbind Outcome_bind] in Hflat |- *.
    destruct (negb (JS_ToBool v =? 0)); [ exact Hflat | ].
    apply IH; [ | exact Hflat ].
    eapply boolean_node_kept; [ | exact Hq ].
    eapply predicate_value_fills. exact Hx.
Qed.

Lemma and_loop_flatten fuel q xs pre ys ret args st res :
  xs <> [] ->
  nodes st !! q = Some (Pred_boolean PREDICATE_AND xs) ->
  and_loop (predicate_eval fuel) (pre ++ xs ++ ys) ret args st = Ok res ->
  and_loop (predicate_eval (S fuel))
    (pre ++ JS_Object JS_CLASS_PREDICATE q :: ys) ret args st = Ok res.
Proof.
  intros Hne. revert ret args st. induction pre as [ | x pre IH ];
    intros ret args st Hq Hflat.
  - simpl app in *. rewrite and_loop_app in Hflat by exact Hne.
    cbn [and_loop]. unfold predicate_value_with at 1. cbn [js_predicate_data].
    rewrite predicate_eval_unfold. unfold predicate_eval_body at 1. rewrite Hq.
    destruct (and_loop (predicate_eval fuel) xs JS_UNDEFINED args st)
      as [ [[r a] s] | | | ] eqn:Hxs.
    + assert (Hsame : and_loop (predicate_eval fuel) xs ret args st
                      = Ok (r, a, s)).
      { destruct xs as [ | x xs ]; [ congruence | ]. exact Hxs. }
      rewrite Hsame in Hflat. simpl in Hflat |- *.
      destruct (negb (c_not (JS_ToBool r) =? 0)); [ exact Hflat | ].
      eapply refines_ok; [ | exact Hflat ].
      apply and_loop_refines. intros. apply predicate_eval_fuel_step.
    + exfalso. destruct xs as [ | x xs ]; [ congruence | ].
      simpl in Hxs, Hflat. rewrite Hxs in Hflat. discriminate.
    + exfalso. destruct xs as [ | x xs ]; [ congruence | ].
      simpl in Hxs, Hflat. rewrite Hxs in Hflat. discriminate.
    + exfalso. destruct xs as [ | x xs ]; [ congruence | ].
      simpl in Hxs, Hflat. rewrite Hxs in Hflat. discriminate.
  - cbn [app and_loop] in Hflat |- *.
    destruct (predicate_value_with (predicate_eval fuel) x args st)
      as [ [[v a] s] | | | ] eqn:Hx; try discriminate.
    rewrite (refines_ok _ _ _
               (predicate_value_with_refines (predicate_eval fuel)
                  (predicate_eval (S fuel)) (predicate_eval_fuel_step fuel) x args st) Hx).
    cbn [mbind Outcome_bind] in Hflat |- *.
    destruct (negb (c_not (JS_ToBool v) =? 0)); [ exact Hflat | ].
    apply IH; [ | exact Hflat ].
    eapply boolean_node_kept; [ | exact Hq ].
    eapply predicate_value_fills. exact Hx.
Qed.

(** X20. Or and And are associative: a combinator that has a nested
    combinator of its own kind (with at least one operand) among its
    operands answers as the flat combinator in which the operands of the
    nested one stand in its place: the same value, the same cursor and
    the same state, whenever the flat one answers. *)
Theorem nested_combinator_flattens fuel id p q flat pre xs ys args st res :
  short_circuit id = true ->
  xs <> [] ->
  nodes st !! p
    = Some (Pred_boolean id (pre ++ JS_Object JS_CLASS_PREDICATE q :: ys)) ->
  nodes st !! q = Some (Pred_boolean id xs) ->
  nodes st !! flat = Some (Pred_boolean id (pre ++ xs ++ ys)) ->
  predicate_eval fuel flat args st = Ok res ->
  predicate_eval (S fuel) p args st = Ok res.
Proof.
  intros Hid Hne Hp Hq Hflat Hrun.
  destruct fuel as [ | fuel ]; [ discriminate | ].
  rewrite predicate_eval_unfold in Hrun |- *. unfold predicate_eval_body in Hrun |- *.
  rewrite Hflat in Hrun. rewrite Hp.
  destruct id; try discriminate.
  - eapply or_loop_flatten; eassumption.
  - eapply and_loop_flatten; eassumption.
Qed.
End Flatten.

Lemma nested_combinator_flattens_witness :
  let st := Example.state_of
              [(1%nat, Pred_boolean PREDICATE_OR
                         [JS_Int32 0; Example.pred 2; JS_Int32 5]);
               (2%nat, Pred_boolean PREDICATE_OR [Example.pred 4; JS_Int32 0]);
               (3%nat, Pred_boolean PREDICATE_OR
                         [JS_Int32 0; Example.pred 4; JS_Int32 0; JS_Int32 5]);
               (4%nat, Pred_type 32)] in
  @predicate_eval Example.runtime 2 3%nat [JS_Int32 1] st = Ok (JS_Int32 5, [], st)
  /\ @predicate_eval Example.runtime 3 1%nat [JS_Int32 1] st = Ok (JS_Int32 5, [], st).
Proof.
  intros st.
  assert (Hflat : @predicate_eval Example.runtime 2 3%nat [JS_Int32 1] st
                  = Ok (JS_Int32 5, [], st)) by (vm_compute; reflexivity).
  split; [ exact Hflat | ].
  refine (@nested_combinator_flattens Example.runtime 2 PREDICATE_OR 1%nat 2%nat 3%nat
            [JS_Int32 0] [Example.pred 4; JS_Int32 0] [JS_Int32 5] [JS_Int32 1] st _
            eq_refl _ eq_refl eq_refl eq_refl Hflat).
  discriminate.
Defined.

(** ** Nested shifts *)

(** X21. Shifts add up as long as the cursor holds the arguments: a
    Shift by [n] over a Shift by [m] answers as one Shift by [n + m].
    When the cursor holds [n] arguments but not [n + m], both answer the
    undefined marker, but the nested pair has taken [n] arguments off the
    cursor and the single node none. *)
Theorem nested_shifts_add_up `{Runtime} fuel p q single n m operand args st :
  nodes st !! p = Some (Pred_shift n (JS_Object JS_CLASS_PREDICATE q)) ->
  nodes st !! q = Some (Pred_shift m operand) ->
  nodes st !! single = Some (Pred_shift (n + m) operand) ->
  0 <= n -> 0 <= m -> n <= args_c args ->
  if n + m <=? args_c args
  then predicate_eval (S (S fuel)) p args st = predicate_eval (S fuel) single args st
  else predicate_eval (S (S fuel)) p args st
         = Ok (JS_UNDEFINED, drop (Z.to_nat n) args, st)
       /\ predicate_eval (S fuel) single args st = Ok (JS_UNDEFINED, args, st).
Proof.
  intros Hp Hq Hsingle Hn Hm Hlen.
  assert (Houter : predicate_eval (S (S fuel)) p args st
                   = predicate_eval (S fuel) q (drop (Z.to_nat n) args) st).
  { rewrite (predicate_eval_unfold (S fuel)). unfold predicate_eval_body. rewrite Hp.
    replace (n <=? args_c args) with true by (symmetry; now apply Z.leb_le).
    reflexivity. }
  rewrite Houter. rewrite !predicate_eval_unfold. unfold predicate_eval_body.
  rewrite Hq, Hsingle. rewrite args_c_drop by lia.
  destruct (n + m <=? args_c args) eqn:Hsum.
  - apply Z.leb_le in Hsum.
    replace (m <=? args_c args - n) with true by (symmetry; apply Z.leb_le; lia).
    unfold js_arguments_shiftn. now rewrite drop_drop_Z by lia.
  - apply Z.leb_gt in Hsum.
    replace (m <=? args_c args - n) with false by (symmetry; apply Z.leb_gt; lia).
    split; reflexivity.
Qed.

Lemma nested_shifts_add_up_witness :
  let st := Example.state_of
              [(1%nat, Pred_shift 1 (Example.pred 2));
               (2%nat, Pred_shift 1 (Example.pred 4));
               (3%nat, Pred_shift 2 (Example.pred 4));
               (4%nat, Pred_type 8)] in
  let args := [JS_NULL; JS_NULL; JS_Int32 1] in
  @predicate_eval Example.runtime 3 1%nat args st
  = @predicate_eval Example.runtime 2 3%nat args st
  /\ @predicate_eval Example.runtime 2 3%nat args st = Ok (JS_Bool true, [], st).
Proof.
  intros st args. split.
  - exact (@nested_shifts_add_up Example.runtime 1 1%nat 2%nat 3%nat 1 1 (Example.pred 4)
             args st eq_refl eq_refl eq_refl
             ltac:(lia) ltac:(lia) ltac:(vm_compute; discriminate)).
  - vm_compute. reflexivity.
Defined.

(** * The capture buffer *)

Lemma capture_words_length capture i groups :
  length (capture_words capture i groups) = (2 * groups)%nat.
Proof.
  revert i. induction groups as [ | groups IH ]; intros i; simpl; [ reflexivity | ].
  rewrite length_app, IH. destruct (capture_at capture i); simpl; lia.
Qed.

Lemma capture_words_lookup capture i groups g :
  (g < groups)%nat ->
  capture_words capture i groups !! (2 * g)%nat
    = Some (match capture_at capture (i + 2 * g) with
            | Some start => uint32_wrap start
            | None => 0
            end)
  /\ capture_words capture i groups !! (2 * g + 1)%nat
    = Some (match capture_at capture (i + 2 * g) with
            | Some _ => uint32_wrap (default 0 (capture_at capture (i + 2 * g + 1)))
            | None => 0
            end).
Proof.
  revert i g. induction groups as [ | groups IH ]; intros i g Hg; [ lia | ].
  simpl capture_words. destruct g as [ | g ].
  - replace (i + 2 * 0)%nat with i by lia. replace (i + 1)%nat with (S i) by lia.
    destruct (capture_at capture i); split; reflexivity.
  - set (pair := match capture_at capture i with
                 | Some start =>
                     [uint32_wrap start; uint32_wrap (default 0 (capture_at capture (S i)))]
                 | None => [0; 0]
                 end).
    assert (Hpair : length pair = 2%nat)
      by (subst pair; destruct (capture_at capture i); reflexivity).
    destruct (IH (S (S i)) g ltac:(lia)) as [Heven Hodd].
    replace (S (S i) + 2 * g + 1)%nat with (i + 2 * S g + 1)%nat in Hodd by lia.
    replace (S (S i) + 2 * g)%nat with (i + 2 * S g)%nat in Heven, Hodd by lia.
    rewrite !lookup_app_r by (rewrite Hpair; lia). rewrite Hpair.
    replace (2 * S g - 2)%nat with (2 * g)%nat by lia.
    replace (2 * S g + 1 - 2)%nat with (2 * g + 1)%nat by lia.
    split; assumption.
Qed.

(** X22. The buffer that [predicate_regexp_capture] hands to a callback
    holds two 32-bit words for each of the [capture_count] groups: the
    start and the end offset of a group that took part in the match, and
    two zeros for a group that did not, which is what a group that
    matched the empty string at offset 0 gives as well. *)
Theorem capture_buffer_layout capture capture_count :
  0 <= capture_count ->
  exists words,
    predicate_regexp_capture capture capture_count = JS_ArrayBufferU32 words
    /\ Z.of_nat (length words) = 2 * capture_count
    /\ forall g, (Z.of_nat g < capture_count) ->
         words !! (2 * g)%nat
           = Some (match capture_at capture (2 * g) with
                   | Some start => uint32_wrap start
                   | None => 0
                   end)
         /\ words !! (2 * g + 1)%nat
           = Some (match capture_at capture (2 * g) with
                   | Some _ => uint32_wrap (default 0 (capture_at capture (2 * g + 1)))
                   | None => 0
                   end).
Proof.
  intros Hcount. eexists. split; [ reflexivity | ]. split.
  - rewrite capture_words_length. lia.
  - intros g Hg.
    exact (capture_words_lookup capture 0 (Z.to_nat capture_count) g ltac:(lia)).
Qed.

Lemma capture_buffer_layout_witness :
  predicate_regexp_capture [Some 0; Some 3; None; Some 9; Some 0; Some 0] 3
  = JS_ArrayBufferU32 [0; 3; 0; 0; 0; 0]
  /\ exists words,
       predicate_regexp_capture [Some 0; Some 3; None; Some 9; Some 0; Some 0] 3
       = JS_ArrayBufferU32 words
       /\ Z.of_nat (length words) = 2 * 3.
Proof.
  split; [ reflexivity | ].
  destruct (capture_buffer_layout [Some 0; Some 3; None; Some 9; Some 0; Some 0] 3
              ltac:(lia)) as (words & Hbuf & Hlen & _).
  exists words. split; [ exact Hbuf | exact Hlen ].
Defined.

(** * The clone and its original *)

Lemma same_answer_refl (r : Result) : same_answer r r.
Proof. destruct r as [ [[v a] s] | | | ]; simpl; auto. Qed.

Lemma regexp_export_cursor `{Runtime} re capture capture' count count' result args st st' :
  (regexp_export re capture count result args st).1
  = (regexp_export re capture' count' result args st').1.
Proof.
  unfold regexp_export.
  destruct (negb (result =? 0) && (1 <? args_c args)); [ | reflexivity ].
  destruct (js_arguments_shift args) as [arg rest].
  destruct (JS_IsFunction arg); [ reflexivity | ].
  destruct (JS_IsArray arg); reflexivity.
Qed.

Lemma regexp_eval_answer `{Runtime} fuel p expr bytecode args st :
  nodes st !! p = Some (Pred_regexp expr bytecode) ->
  (forall bc, bytecode = Some bc -> regexp_compile expr = Some bc) ->
  let re := (js_arguments_shift args).1 in
  let rest := (js_arguments_shift args).2 in
  let result := (lre_exec (regexp_compile expr) (js_input_chars re)).1 in
  exists s,
    predicate_eval (S fuel) p args st
    = Ok (JS_NewBool result, (regexp_export re [] 0 result rest st).1, s).
Proof.
  intros Hnode Hcompiled. rewrite predicate_eval_unfold. unfold predicate_eval_body.
  rewrite Hnode. destruct (js_arguments_shift args) as [re rest]. simpl.
  assert (Htail : forall capture count result st0,
            exists s,
              (let '(args0, st4) := regexp_export re capture count result rest st0 in
               Ok (JS_NewBool result, args0, st4))
              = Ok (JS_NewBool result, (regexp_export re [] 0 result rest st).1, s)).
  { intros capture count result st0.
    pose proof (regexp_export_cursor re capture [] count 0 result rest st0 st) as Hcursor.
    destruct (regexp_export re capture count result rest st0) as [rest' st'].
    simpl in Hcursor. subst rest'. eexists. reflexivity. }
  destruct bytecode as [ bc | ].
  - simpl. rewrite Hnode. rewrite (Hcompiled bc eq_refl).
    destruct (lre_exec (Some bc) (js_input_chars re)) as [result capture]. simpl.
    apply Htail.
  - unfold predicate_regexp_compile. rewrite Hnode.
    destruct (regexp_compile expr) as [ bc | ]; simpl;
      rewrite lookup_insert_eq;
      destruct (lre_exec _ (js_input_chars re)) as [result capture]; simpl;
      apply Htail.
Qed.

(** X23. A clone answers like its original: evaluated on the same cursor
    in the same state, the two end alike, and when they answer they give
    the same value and leave the same cursor.  For a Regex node whose
    original is compiled this needs the stored form to be what
    [regexp_compile] gives for the pattern, since the clone compiles
    again. *)
Theorem clone_answers_like_original `{Runtime} fuel pr node ret st st1 args :
  nodes st !! pr = Some node ->
  (forall expr bc, node = Pred_regexp expr (Some bc) -> regexp_compile expr = Some bc) ->
  predicate_clone pr st = Ok (ret, st1) ->
  same_answer (predicate_eval fuel ret args st1) (predicate_eval fuel pr args st1).
Proof.
  intros Hnode Hcompiled Hclone.
  rewrite (predicate_clone_values pr node st Hnode) in Hclone.
  injection Hclone as <- <-.
  destruct (js_values_dup_spec (node_values node) st) as (_ & Hdn & _).
  destruct (js_mallocz_fresh st) as [Hfresh _].
  set (ret := js_mallocz st) in *.
  set (st1 := set_node ret (clone_node node) (js_values_dup (node_values node) st).2).
  assert (Hne : ret <> pr) by (intros Heq; rewrite Heq in Hfresh; congruence).
  assert (Hret : nodes st1 !! ret = Some (clone_node node))
    by (subst st1; simpl; apply lookup_insert_eq).
  assert (Hpr : nodes st1 !! pr = Some node).
  { subst st1. simpl. rewrite lookup_insert_ne by exact Hne. now rewrite Hdn. }
  clearbody st1 ret. clear Hdn Hfresh.
  destruct fuel as [ | fuel ]; [ exact I | ].
  destruct node as [ type_flags | set chars | str | id operand | id lhs rhs
                   | id predicates | expr bytecode | atom filter | object
                   | n operand | func this_val arity ];
    cbn [clone_node] in Hret;
    try (rewrite !predicate_eval_unfold; unfold predicate_eval_body;
         rewrite Hret, Hpr; apply same_answer_refl).
  - rewrite !predicate_eval_unfold. unfold predicate_eval_body. rewrite Hret, Hpr.
    unfold vector_copy. destruct (js_arguments_shift args) as [arg rest].
    destruct (vector_unset chars).
    + destruct (utf8_to_unicode set vector_init) as [ [n chars'] | ]; [ | exact I ].
      simpl. destruct (charset_loop _ _ chars'); simpl; auto.
    + simpl. destruct (charset_loop _ _ chars); simpl; auto.
  - destruct (regexp_eval_answer fuel ret expr None args st1 Hret) as (s1 & Hrun1);
      [ discriminate | ].
    destruct (regexp_eval_answer fuel pr expr bytecode args st1 Hpr) as (s2 & Hrun2).
    { intros bc ->. now apply Hcompiled. }
    rewrite Hrun1, Hrun2. simpl. auto.
Qed.

Lemma clone_answers_like_original_witness :
  let expr := {| source := Example.bytes "ab"; flags := 0 |} in
  let st := Example.state_of [(1%nat, Pred_regexp expr (Some (Example.bytes "ab")))] in
  exists ret st1,
    predicate_clone 1%nat st = Ok (ret, st1)
    /\ same_answer
         (@predicate_eval Example.runtime 1 ret [JS_String (Example.bytes "abc")] st1)
         (@predicate_eval Example.runtime 1 1%nat [JS_String (Example.bytes "abc")] st1).
Proof.
  intros expr st. eexists _, _. split; [ reflexivity | ].
  refine (@clone_answers_like_original Example.runtime 1 1%nat
            (Pred_regexp expr (Some (Example.bytes "ab"))) _ st _ _ eq_refl _ eq_refl).
  intros expr' bc [= <- <-]. reflexivity.
Defined.

Section CountExtension.
Context `{Runtime}.
Variables store store' : gmap addr Predicate.
Hypothesis store_extends : forall q node, store !! q = Some node -> store' !! q = Some node.

Lemma boolean_num_args_extends count count' predicates n m :
  (forall q k, count q = Ok k -> count' q = Ok k) ->
  boolean_num_args count predicates n = Ok m ->
  boolean_num_args count' predicates n = Ok m.
Proof.
  intros Hcount. revert n. induction predicates as [ | p rest IH ]; intros n; simpl.
  - auto.
  - destruct (js_predicate_data p) as [ other | ]; [ | apply IH ].
    destruct (count other) as [ k | | | ] eqn:Hother; simpl; try discriminate.
    rewrite (Hcount other k Hother). simpl. apply IH.
Qed.

Lemma operand_num_args_extends count count' value m :
  (forall q k, count q = Ok k -> count' q = Ok k) ->
  operand_num_args count value = Ok m ->
  operand_num_args count' value = Ok m.
Proof.
  intros Hcount. unfold operand_num_args.
  destruct (js_is_null_or_undefined value); [ auto | ].
  destruct (js_predicate_data value) as [ other | ]; [ apply Hcount | auto ].
Qed.

Lemma recursive_num_args_node count count' pr pr' node m :
  (forall q k, count q = Ok k -> count' q = Ok k) ->
  store !! pr = Some node ->
  store' !! pr' = Some (clone_node node) ->
  predicate_recursive_num_args_body store count pr = Ok m ->
  predicate_recursive_num_args_body store' count' pr' = Ok m.
Proof.
  intros Hcount Hnode Hnode'. unfold predicate_recursive_num_args_body.
  rewrite Hnode, Hnode'.
  destruct node as [ type_flags | set chars | str | id operand | id lhs rhs
                   | id predicates | expr bytecode | atom filter | object
                   | n operand | func this_val arity ];
    cbn [clone_node]; unfold vector_copy;
    try apply operand_num_args_extends; try exact Hcount; auto.
  - destruct (operand_num_args count lhs) as [ k | | | ] eqn:Hl; simpl; try discriminate.
    rewrite (operand_num_args_extends count count' lhs k Hcount Hl). simpl.
    destruct (operand_num_args count rhs) as [ k' | | | ] eqn:Hr; simpl; try discriminate.
    now rewrite (operand_num_args_extends count count' rhs k' Hcount Hr).
  - now apply boolean_num_args_extends.
  - destruct (operand_num_args count filter) as [ k | | | ] eqn:Hf; simpl; try discriminate.
    now rewrite (operand_num_args_extends count count' filter k Hcount Hf).
Qed.

Lemma recursive_num_args_extends fuel pr m :
  predicate_recursive_num_args fuel store pr = Ok m ->
  predicate_recursive_num_args fuel store' pr = Ok m.
Proof.
  revert pr m. induction fuel as [ | fuel IH ]; intros pr m; [ discriminate | ].
  simpl. unfold predicate_recursive_num_args_body at 1.
  destruct (store !! pr) as [ node | ] eqn:Hnode; [ | discriminate ].
  intros Hrun.
  assert (Hbody : predicate_recursive_num_args_body store
                    (predicate_recursive_num_args fuel store) pr = Ok m).
  { unfold predicate_recursive_num_args_body. rewrite Hnode. exact Hrun. }
  assert (Hsame : clone_node node = node \/ exists expr bc, node = Pred_regexp expr bc).
  { destruct node; cbn; eauto. }
  destruct Hsame as [ Hsame | (expr & bc & ->) ].
  - eapply recursive_num_args_node; [ exact IH | exact Hnode | | exact Hbody ].
    rewrite Hsame. now apply store_extends.
  - unfold predicate_recursive_num_args_body. rewrite (store_extends _ _ Hnode).
    exact Hrun.
Qed.
End CountExtension.

Lemma direct_num_args_clone node :
  predicate_direct_num_args (clone_node node) = predicate_direct_num_args node.
Proof. now destruct node. Qed.

(** X24. A clone has the argument counts of its original: whatever
    [predicate_recursive_num_args] counts on the original before the
    clone, it counts on the clone after it, and
    [predicate_direct_num_args] gives the same for both. *)
Theorem clone_keeps_the_argument_counts `{Runtime} fuel pr node ret st st1 n :
  nodes st !! pr = Some node ->
  predicate_clone pr st = Ok (ret, st1) ->
  predicate_recursive_num_args fuel (nodes st) pr = Ok n ->
  predicate_recursive_num_args fuel (nodes st1) ret = Ok n
  /\ exists copy, nodes st1 !! ret = Some copy
                  /\ predicate_direct_num_args copy = predicate_direct_num_args node.
Proof.
  intros Hnode Hclone Hcount.
  rewrite (predicate_clone_values pr node st Hnode) in Hclone.
  injection Hclone as <- <-.
  destruct (js_values_dup_spec (node_values node) st) as (_ & Hdn & _).
  destruct (js_mallocz_fresh st) as [Hfresh _].
  set (ret := js_mallocz st) in *.
  assert (Hextends : forall q other,
            nodes st !! q = Some other ->
            nodes (set_node ret (clone_node node)
                     (js_values_dup (node_values node) st).2) !! q = Some other).
  { intros q other Hq. simpl. rewrite Hdn.
    rewrite lookup_insert_ne; [ exact Hq | ]. intros <-. congruence. }
  split.
  - destruct fuel as [ | fuel ]; [ discriminate | ].
    simpl in Hcount |- *.
    eapply recursive_num_args_node; [ | exact Hnode | | exact Hcount ].
    + intros q k. now apply recursive_num_args_extends.
    + simpl. apply lookup_insert_eq.
  - exists (clone_node node). split; [ simpl; apply lookup_insert_eq | ].
    apply direct_num_args_clone.
Qed.

Lemma clone_keeps_the_argument_counts_witness :
  let st := Example.state_of
              [(1%nat, Pred_binary PREDICATE_ADD JS_UNDEFINED (Example.pred 2));
               (2%nat, Pred_member (Example.obj 7))] in
  exists ret st1,
    predicate_clone 1%nat st = Ok (ret, st1)
    /\ @predicate_recursive_num_args Example.runtime 2 (nodes st) 1%nat = Ok 2
    /\ @predicate_recursive_num_args Example.runtime 2 (nodes st1) ret = Ok 2.
Proof.
  intros st. eexists _, _. split; [ reflexivity | ].
  assert (Hcount : @predicate_recursive_num_args Example.runtime 2 (nodes st) 1%nat = Ok 2)
    by (vm_compute; reflexivity).
  split; [ exact Hcount | ].
  exact (proj1 (@clone_keeps_the_argument_counts Example.runtime 2 1%nat
                  (Pred_binary PREDICATE_ADD JS_UNDEFINED (Example.pred 2))
                  _ st _ 2 eq_refl eq_refl Hcount)).
Defined.
